(** * optparse99: a shallow embedding of the parsing core of optparse99.c

    The development follows the C source function by function:
    the C library routines the source relies on ([isspace], [tolower],
    [strtol] and friends, [strtok]), the type converter [strtox], the list
    splitter [strtoarr], the option executor [execute_option], the option
    matchers [execute_long_option] and [execute_short_option], and the command
    tree walker [parse] with the public entry points [optparse_parse],
    [optparse_shift] and [optparse_unshift].

    Platform and configuration.  The header optparse99.h is not part of the
    sources at hand.  The model fixes the LP64 data model (16-bit short,
    32-bit int, 64-bit long and long long, 8-byte pointers, 1-byte _Bool) and
    the feature macros OPTPARSE_LONG_OPTIONS, OPTPARSE_ATTACHED_OPTION_ARGUMENTS,
    OPTPARSE_SUBCOMMANDS, OPTPARSE_LIST_SUPPORT,
    OPTPARSE_MUTUALLY_EXCLUSIVE_OPTIONS and OPTPARSE_C99_INTEGER_TYPES_SUPPORT
    switched on; OPTPARSE_FLOATING_POINT_SUPPORT is switched off (floating
    point conversion is outside the embedding).  The constant
    OPTPARSE_MUTUALLY_EXCLUSIVE_GROUPS_MAX is a parameter of the model. *)

From Stdlib Require Import ZArith Lia Ascii.
From stdpp Require Import base tactics option list strings gmap.

Local Open Scope Z_scope.

(* ===================================================================== *)
(** * 1. The C library routines used by the source *)
(* ===================================================================== *)

Module Libc.

Definition code (c : ascii) : Z := Z.of_nat (nat_of_ascii c).

(** [isspace] in the "C" locale: space, \t, \n, \v, \f, \r. *)
Definition isspace (c : ascii) : bool :=
  (code c =? 32) || ((9 <=? code c) && (code c <=? 13)).

(** [tolower] in the "C" locale. *)
Definition tolower (c : ascii) : ascii :=
  if (65 <=? code c) && (code c <=? 90)
  then ascii_of_nat (Z.to_nat (code c + 32)) else c.

Fixpoint map_string (f : ascii → ascii) (s : string) : string :=
  match s with
  | EmptyString => EmptyString
  | String c s' => String (f c) (map_string f s')
  end.

(** The value of a character as a digit in bases up to 36. *)
Definition digit_val (c : ascii) : option Z :=
  let n := code c in
  if (48 <=? n) && (n <=? 57) then Some (n - 48)
  else if (97 <=? n) && (n <=? 122) then Some (n - 97 + 10)
  else if (65 <=? n) && (n <=? 90) then Some (n - 65 + 10)
  else None.

Definition digit_in (base : Z) (c : ascii) : option Z :=
  match digit_val c with
  | Some d => if d <? base then Some d else None
  | None => None
  end.

Fixpoint skip_spaces (s : string) : string :=
  match s with
  | String c s' => if isspace c then skip_spaces s' else s
  | EmptyString => s
  end.

(** Accumulates the digits of [s] in [base]; returns the value and the
    text that follows the last digit. *)
Fixpoint scan_digits (base acc : Z) (s : string) : Z * string :=
  match s with
  | String c s' =>
      match digit_in base c with
      | Some d => scan_digits base (acc * base + d) s'
      | None => (acc, s)
      end
  | EmptyString => (acc, s)
  end.

Definition is_x (c : ascii) : bool := (code c =? 120) || (code c =? 88).

(** The optional sign of the subject sequence. *)
Definition scan_sign (s1 : string) : bool * string :=
  match s1 with
  | String c r =>
      if code c =? 45 then (true, r)
      else if code c =? 43 then (false, r)
      else (false, s1)
  | EmptyString => (false, s1)
  end.

(** The base chosen by a base argument of 0: 16 behind "0x" or "0X" when a
    hexadecimal digit follows, 8 behind a leading "0", else 10. *)
Definition scan_base (s2 : string) : Z * string :=
  match s2 with
  | String z (String x (String h r)) =>
      if (code z =? 48) && is_x x && bool_decide (is_Some (digit_in 16 h))
      then (16, String h r)
      else if code z =? 48 then (8, s2) else (10, s2)
  | String z _ => if code z =? 48 then (8, s2) else (10, s2)
  | EmptyString => (10, s2)
  end.

(** The digits of the subject sequence: [None] when there is none, else
    the magnitude and the text behind the last digit. *)
Definition scan_magnitude (s2 : string) : option (Z * string) :=
  let '(base, s3) := scan_base s2 in
  match s3 with
  | String c _ =>
      match digit_in base c with
      | Some _ => Some (scan_digits base 0 s3)
      | None => None
      end
  | EmptyString => None
  end.

(** The subject sequence of the strtol family with base 0 (C99 7.20.1.4):
    optional white space, an optional sign, then a hexadecimal, octal or
    decimal numeral.  The result is [None] when no conversion can be
    performed, and otherwise the sign, the magnitude and the text at the
    end pointer. *)
Definition scan_integer (s : string) : option (bool * Z * string) :=
  let '(neg, s2) := scan_sign (skip_spaces s) in
  match scan_magnitude s2 with
  | Some (m, rest) => Some (neg, m, rest)
  | None => None
  end.

(** What a conversion routine leaves behind: the returned value, the text
    at [*endptr], and whether it set [errno] to [ERANGE]. *)
Record strto := { st_val : Z; st_end : string; st_erange : bool }.

(** Signed conversion to a [bits]-bit integer: the value is clamped and
    [ERANGE] raised when it does not fit. *)
Definition strto_signed (bits : Z) (s : string) : strto :=
  match scan_integer s with
  | None => {| st_val := 0; st_end := s; st_erange := false |}
  | Some (neg, m, rest) =>
      let v := if neg then - m else m in
      if v <? - 2 ^ (bits - 1)
      then {| st_val := - 2 ^ (bits - 1); st_end := rest; st_erange := true |}
      else if 2 ^ (bits - 1) - 1 <? v
      then {| st_val := 2 ^ (bits - 1) - 1; st_end := rest; st_erange := true |}
      else {| st_val := v; st_end := rest; st_erange := false |}
  end.

(** Unsigned conversion: a magnitude that does not fit gives the maximum
    and [ERANGE]; a minus sign negates the result in the unsigned type. *)
Definition strto_unsigned (bits : Z) (s : string) : strto :=
  match scan_integer s with
  | None => {| st_val := 0; st_end := s; st_erange := false |}
  | Some (neg, m, rest) =>
      if 2 ^ bits - 1 <? m
      then {| st_val := 2 ^ bits - 1; st_end := rest; st_erange := true |}
      else {| st_val := if neg then (2 ^ bits - m) mod 2 ^ bits else m;
              st_end := rest; st_erange := false |}
  end.

Definition strtol := strto_signed 64.
Definition strtoul := strto_unsigned 64.
Definition strtoll := strto_signed 64.
Definition strtoull := strto_unsigned 64.

(** Conversion of an integer to a narrower type (two's complement). *)
Definition cast_unsigned (bits z : Z) : Z := z mod 2 ^ bits.
Definition cast_signed (bits z : Z) : Z :=
  let r := z mod 2 ^ bits in
  if r <? 2 ^ (bits - 1) then r else r - 2 ^ bits.

(** [strtok]: one call on the text at the saved pointer.  Leading
    delimiters are skipped; the token runs up to the next delimiter, which
    is overwritten by NUL; the saved pointer moves behind it. *)
Fixpoint is_delim (delim : string) (c : ascii) : bool :=
  match delim with
  | EmptyString => false
  | String d delim' => if Ascii.eqb c d then true else is_delim delim' c
  end.

Fixpoint skip_delims (delim s : string) : string :=
  match s with
  | String c s' => if is_delim delim c then skip_delims delim s' else s
  | EmptyString => s
  end.

Fixpoint take_token (delim s : string) : string * string :=
  match s with
  | String c s' =>
      if is_delim delim c then (EmptyString, s')
      else let '(t, r) := take_token delim s' in (String c t, r)
  | EmptyString => (EmptyString, EmptyString)
  end.

Definition strtok (delim saved : string) : option (string * string) :=
  match skip_delims delim saved with
  | EmptyString => None
  | String c s' => Some (take_token delim (String c s'))
  end.

End Libc.

(* ===================================================================== *)
(** * 2. Data model *)
(* ===================================================================== *)

(** [enum optparse_data_type].  [DATA_TYPE_NONE] is the zero value tested by
    [if (opt->arg_data_type)]. *)
Inductive optparse_data_type :=
| DATA_TYPE_NONE
| DATA_TYPE_STR
| DATA_TYPE_CHAR | DATA_TYPE_SCHAR | DATA_TYPE_UCHAR
| DATA_TYPE_SHRT | DATA_TYPE_USHRT
| DATA_TYPE_INT | DATA_TYPE_UINT
| DATA_TYPE_LONG | DATA_TYPE_ULONG
| DATA_TYPE_LLONG | DATA_TYPE_ULLONG
| DATA_TYPE_BOOL
| DATA_TYPE_INT8 | DATA_TYPE_UINT8
| DATA_TYPE_INT16 | DATA_TYPE_UINT16
| DATA_TYPE_INT32 | DATA_TYPE_UINT32
| DATA_TYPE_INT64 | DATA_TYPE_UINT64.

Global Instance optparse_data_type_eq_dec : EqDecision optparse_data_type.
Proof. solve_decision. Defined.

(** A converted value, as written through the [void *x] of [strtox]. *)
Inductive value :=
| VStr (s : string)
| VChar (c : ascii)
| VInt (z : Z)
| VBool (b : bool).

Global Instance value_eq_dec : EqDecision value.
Proof. solve_decision. Defined.

(** The outcome of one [strtox] call: the return value (0, 1 or -1), the
    value stored through [x] (if any) and whether [errno] is [ERANGE] on
    return. *)
Record conv := { ret : Z; stored : option value; erange : bool }.

(** [get_data_type_size].  The switch has no case for [DATA_TYPE_SHRT] and
    [DATA_TYPE_USHRT], which therefore take the [default] branch. *)
Definition get_data_type_size (data_type : optparse_data_type) : Z :=
  match data_type with
  | DATA_TYPE_STR => 8
  | DATA_TYPE_CHAR | DATA_TYPE_SCHAR | DATA_TYPE_UCHAR => 1
  | DATA_TYPE_INT | DATA_TYPE_UINT => 4
  | DATA_TYPE_LONG | DATA_TYPE_ULONG => 8
  | DATA_TYPE_LLONG | DATA_TYPE_ULLONG => 8
  | DATA_TYPE_BOOL => 1
  | DATA_TYPE_INT8 | DATA_TYPE_UINT8 => 1
  | DATA_TYPE_INT16 | DATA_TYPE_UINT16 => 2
  | DATA_TYPE_INT32 | DATA_TYPE_UINT32 => 4
  | DATA_TYPE_INT64 | DATA_TYPE_UINT64 => 8
  | _ => 0
  end.

(* ===================================================================== *)
(** * 3. The type converter [strtox] *)
(* ===================================================================== *)

Definition first_char (str : string) : ascii :=
  match str with
  | String c _ => c
  | EmptyString => zero
  end.

(** The cases that call [strtol]/[strtoll] into a signed type of [bits]
    bits, with the range check of the source ([lo], [hi]). *)
Definition conv_signed (r : Libc.strto) (bits : Z)
  : option value * option string * bool :=
  let result := Libc.st_val r in
  let e := Libc.st_erange r
           || (result <? - 2 ^ (bits - 1)) || (2 ^ (bits - 1) - 1 <? result) in
  (Some (VInt (Libc.cast_signed bits result)), Some (Libc.st_end r), e).

Definition conv_unsigned (r : Libc.strto) (bits : Z)
  : option value * option string * bool :=
  let result := Libc.st_val r in
  let e := Libc.st_erange r || (2 ^ bits - 1 <? result) in
  (Some (VInt (Libc.cast_unsigned bits result)), Some (Libc.st_end r), e).

(** The [char] cases: [errno = ERANGE] when the token has more than one
    character; [str[0]] is stored; [endptr] stays NULL. *)
Definition conv_char (str : string) : option value * option string * bool :=
  (Some (VChar (first_char str)), None, bool_decide (1 < String.length str)%nat).

(** The return statement of [strtox]: 1 when [endptr] is set and either
    equals [str] or does not point at the terminating NUL, else -1 when
    [errno] is [ERANGE], else 0.  [endptr] is held as the text it points to,
    a suffix of [str], so it equals [str] exactly when the two texts are
    equal. *)
Definition strtox_return (str : string) (x : option value)
    (endptr : option string) (e : bool) : conv :=
  let bad :=
    match endptr with
    | Some e' => String.eqb e' str || negb (String.eqb e' EmptyString)
    | None => false
    end in
  {| ret := if bad then 1 else if e then -1 else 0;
     stored := x; erange := e |}.

(** The body of [strtox] for a non-NULL [str].  [rec] stands for the
    function itself in the one recursive call of the [DATA_TYPE_BOOL] case.
    The triple computed by the switch is the stored value, [endptr]
    (NULL, or the text it points to inside [str]) and [errno == ERANGE]. *)
Definition strtox_body (rec : string → optparse_data_type → conv)
    (str : string) (data_type : optparse_data_type) : conv :=
  let '(x, endptr, e) :=
    match data_type with
    | DATA_TYPE_NONE => (None, None, false)
    | DATA_TYPE_STR => (Some (VStr str), None, false)
    | DATA_TYPE_CHAR | DATA_TYPE_SCHAR | DATA_TYPE_UCHAR => conv_char str
    | DATA_TYPE_SHRT => conv_signed (Libc.strtol str) 16
    | DATA_TYPE_USHRT => conv_unsigned (Libc.strtoul str) 16
    | DATA_TYPE_INT => conv_signed (Libc.strtol str) 32
    | DATA_TYPE_UINT => conv_unsigned (Libc.strtoul str) 32
    | DATA_TYPE_LONG =>
        let r := Libc.strtol str in
        (Some (VInt (Libc.st_val r)), Some (Libc.st_end r), Libc.st_erange r)
    | DATA_TYPE_ULONG =>
        let r := Libc.strtoul str in
        (Some (VInt (Libc.st_val r)), Some (Libc.st_end r), Libc.st_erange r)
    | DATA_TYPE_LLONG =>
        let r := Libc.strtoll str in
        (Some (VInt (Libc.st_val r)), Some (Libc.st_end r), Libc.st_erange r)
    | DATA_TYPE_ULLONG =>
        let r := Libc.strtoull str in
        (Some (VInt (Libc.st_val r)), Some (Libc.st_end r), Libc.st_erange r)
    | DATA_TYPE_BOOL =>
        let temp := Libc.map_string Libc.tolower str in
        if String.eqb temp "true" then (Some (VBool true), None, false)
        else if String.eqb temp "false" then (Some (VBool false), None, false)
        else if String.eqb temp "enabled" then (Some (VBool true), None, false)
        else if String.eqb temp "disabled" then (Some (VBool false), None, false)
        else if String.eqb temp "yes" then (Some (VBool true), None, false)
        else if String.eqb temp "no" then (Some (VBool false), None, false)
        else if String.eqb temp "on" then (Some (VBool true), None, false)
        else if String.eqb temp "off" then (Some (VBool false), None, false)
        else
          let result := rec str DATA_TYPE_INT in
          if (ret result =? 1) || (ret result =? 0)
          then (Some (VBool (negb (ret result =? 0))), None, erange result)
          else (stored result, Some str, erange result)
    | DATA_TYPE_INT8 => conv_signed (Libc.strtol str) 8
    | DATA_TYPE_UINT8 => conv_unsigned (Libc.strtoul str) 8
    | DATA_TYPE_INT16 => conv_signed (Libc.strtol str) 16
    | DATA_TYPE_UINT16 => conv_unsigned (Libc.strtoul str) 16
    | DATA_TYPE_INT32 => conv_signed (Libc.strtol str) 32
    | DATA_TYPE_UINT32 => conv_unsigned (Libc.strtoul str) 32
    | DATA_TYPE_INT64 => conv_signed (Libc.strtoll str) 64
    | DATA_TYPE_UINT64 => conv_unsigned (Libc.strtoull str) 64
    end in
  strtox_return str x endptr e.

(** [strtox].  The only recursive call asks for [DATA_TYPE_INT], whose case
    does not recurse, so two unfoldings of the body tie the knot. *)
Definition strtox (str : option string) (data_type : optparse_data_type) : conv :=
  match str with
  | None => {| ret := 1; stored := None; erange := false |}
  | Some s =>
      strtox_body
        (strtox_body (fun _ _ => {| ret := 1; stored := None; erange := false |}))
        s data_type
  end.

(* ===================================================================== *)
(** * 4. Outcomes of the parser *)
(* ===================================================================== *)

(** The fatal errors raised through [optparse_error], one constructor per
    message of the source. *)
Inductive optparse_err :=
| OutOfMemory                                     (* Out of memory. *)
| ListItemNotValid (list_item : string)           (* List item not valid: %s *)
| ListItemOutOfRange (list_item : string)         (* List item out of range: %s *)
| ArgumentNotValid (arg : string)                 (* Argument not valid: %s *)
| ValueOutOfRange (arg : string)                  (* Value out of range: %s *)
| MutuallyExclusive (name1 name2 : string)        (* Options %s and %s are mutually exclusive. *)
| UnwantedOptionArgument (arg : string)           (* Unwanted option-argument: %s *)
| LongOptionRequiresArgument (long_name : string) (* Option --%s requires an argument. *)
| ShortOptionRequiresArgument (c : ascii)         (* Option -%c requires an argument. *)
| UnknownLongOption (long_name : string)          (* Unknown option: --%s *)
| UnknownShortOptionInSequence (c : ascii) (option_group : string)
                                                  (* Unknown option: -%c (in sequence %s) *)
| UnknownShortOption (option_group : string)      (* Unknown option: %s *)
| UnknownCommand (arg : string).                  (* Unknown command: %s *)

(** A run either returns, or exits through [optparse_error], or steps
    outside the behaviour C defines (an access outside the argument vector,
    signed overflow of a flag), or exhausts the fuel of the model. *)
Inductive outcome (A : Type) :=
| Ok (a : A)
| Fatal (e : optparse_err)
| Undefined
| OutOfFuel.
Arguments Ok {A} a.
Arguments Fatal {A} e.
Arguments Undefined {A}.
Arguments OutOfFuel {A}.

Global Instance outcome_ret : MRet outcome := @Ok.
Global Instance outcome_bind : MBind outcome := λ A B f m,
  match m with
  | Ok a => f a
  | Fatal e => Fatal e
  | Undefined => Undefined
  | OutOfFuel => OutOfFuel
  end.

(* ===================================================================== *)
(** * 5. The list splitter [strtoarr] *)
(* ===================================================================== *)

(** The C-string left in the buffer once [strtok] has cut it: the leading
    delimiters and the first token. *)
Fixpoint strtok_residue (delim s : string) : string :=
  match s with
  | String c s' =>
      if Libc.is_delim delim c then String c (strtok_residue delim s')
      else fst (Libc.take_token delim s)
  | EmptyString => EmptyString
  end.

(** An array produced by [strtoarr]: the values in the order they were
    written, each with the byte offset [array_size * data_type_size] it was
    written at. *)
Definition array := list (Z * value).

(** The conversion loop of [strtoarr].  [saved] is the text at the saved
    pointer of [strtok].  Allocation is taken to succeed. *)
Fixpoint strtoarr_loop (fuel : nat) (delim saved : string)
    (data_type : optparse_data_type) (array_size : nat) (arr : array)
  : outcome (nat * array) :=
  match fuel with
  | O => OutOfFuel
  | S fuel' =>
      match Libc.strtok delim saved with
      | None => Ok (array_size, arr)
      | Some (list_item, saved') =>
          let r := strtox (Some list_item) data_type in
          if ret r =? 0 then
            let arr' :=
              match stored r with
              | Some v =>
                  arr ++ [(Z.of_nat array_size * get_data_type_size data_type, v)]
              | None => arr
              end in
            strtoarr_loop fuel' delim saved' data_type (S array_size) arr'
          else if ret r =? 1 then Fatal (ListItemNotValid list_item)
          else if ret r =? -1 then Fatal (ListItemOutOfRange list_item)
          else Undefined
      end
  end.

(** [strtoarr]: the element count and the array ([None] is the NULL array
    of the early return). *)
Definition strtoarr (str : option string) (delim : option string)
    (data_type : optparse_data_type) : outcome (nat * option array) :=
  match str, delim with
  | Some s, Some d =>
      '(n, arr) ← strtoarr_loop (S (String.length s)) d s data_type 0%nat [];
      Ok (n, Some arr)
  | _, _ => Ok (0%nat, None)
  end.

(* ===================================================================== *)
(** * 6. Descriptors, callbacks and the parser state *)
(* ===================================================================== *)

Inductive optparse_flag_type :=
| FLAG_TYPE_SET_TRUE | FLAG_TYPE_SET_FALSE
| FLAG_TYPE_INCREMENT | FLAG_TYPE_DECREMENT.

Inductive optparse_function_type :=
| FUNCTION_TYPE_AUTO | FUNCTION_TYPE_OARG | FUNCTION_TYPE_TARG
| FUNCTION_TYPE_OARG_ARRAY | FUNCTION_TYPE_TARG_ARRAY | FUNCTION_TYPE_VOID.

(** What a storage destination ([opt->arg_storage]) holds. *)
Inductive storage_cell :=
| CellValue (v : value)
| CellList (arr : option array).

(** The caller's memory reachable through the pointers of the descriptors:
    the [int] flags, the storage destinations and the list sizes, each keyed
    by its address. *)
Record mem := {
  mem_flags : gmap nat Z;
  mem_storage : gmap nat storage_cell;
  mem_sizes : gmap nat nat
}.

(** The argument a callback is invoked with, by invocation style. *)
Inductive cb_arg :=
| ArgVoid
| ArgStr (s : option string)
| ArgVal (v : option value)
| ArgArray (size : nat) (arr : option array).

(** A callback is caller code.  It sees the caller's memory and may call
    [optparse_shift] and [optparse_unshift] any number of times, deciding
    by what they return; it ends by leaving the memory it has produced. *)
Inductive cb_prog :=
| CbRet (m : mem)
| CbShift (k : option string → cb_prog)
| CbUnshift (k : option string → cb_prog).

(** [struct optparse_opt], without the fields used only by the help
    screen.  [short_name] is NUL ([zero]) when absent. *)
Record optparse_opt := {
  short_name : ascii;
  long_name : option string;
  arg_name : option string;
  arg_data_type : optparse_data_type;
  arg_delim : option string;
  flag : option nat;
  flag_type : optparse_flag_type;
  arg_storage : option nat;
  arg_storage_size : option nat;
  function : option (cb_arg → mem → cb_prog);
  function_type : optparse_function_type;
  group : Z
}.

(** [struct optparse_cmd], without the help texts.  The sentinel-terminated
    arrays are lists; a NULL array is [None]. *)
#[warnings="-register-all"]
Inductive optparse_cmd := Optparse_cmd {
  name : string;
  options : option (list optparse_opt);
  subcommands : option (list optparse_cmd);
  cmd_function : option (nat → list (option string) → mem → cb_prog)
}.

(** The state the parser works on: the file-scope variables [args],
    [args_index] and [active_cmd], the function-static table
    [exclusive_opts] of [check_mutual_exclusivity], the caller's [*argc],
    and the caller's memory.  [args] and [*argv] are one and the same array
    throughout ([args = *argv]), so the state holds it once: a read of
    [args[i]] and a write to [argv[i]] address the same cell. *)
Record pstate := {
  args : option (list (option string));
  args_index : nat;
  argc : nat;
  active_cmd : option optparse_cmd;
  exclusive_opts : gmap Z optparse_opt;
  memory : mem
}.

Definition set_args (a : option (list (option string))) (st : pstate) : pstate :=
  {| args := a; args_index := args_index st; argc := argc st;
     active_cmd := active_cmd st; exclusive_opts := exclusive_opts st;
     memory := memory st |}.

Definition set_args_index (i : nat) (st : pstate) : pstate :=
  {| args := args st; args_index := i; argc := argc st;
     active_cmd := active_cmd st; exclusive_opts := exclusive_opts st;
     memory := memory st |}.

Definition set_argc (n : nat) (st : pstate) : pstate :=
  {| args := args st; args_index := args_index st; argc := n;
     active_cmd := active_cmd st; exclusive_opts := exclusive_opts st;
     memory := memory st |}.

Definition set_active_cmd (c : option optparse_cmd) (st : pstate) : pstate :=
  {| args := args st; args_index := args_index st; argc := argc st;
     active_cmd := c; exclusive_opts := exclusive_opts st;
     memory := memory st |}.

Definition set_exclusive_opts (t : gmap Z optparse_opt) (st : pstate) : pstate :=
  {| args := args st; args_index := args_index st; argc := argc st;
     active_cmd := active_cmd st; exclusive_opts := t;
     memory := memory st |}.

Definition set_memory (m : mem) (st : pstate) : pstate :=
  {| args := args st; args_index := args_index st; argc := argc st;
     active_cmd := active_cmd st; exclusive_opts := exclusive_opts st;
     memory := m |}.

(** The state of a process that has not parsed anything yet. *)
Definition initial_pstate (m : mem) : pstate :=
  {| args := None; args_index := 0; argc := 0; active_cmd := None;
     exclusive_opts := ∅; memory := m |}.

Definition empty_mem : mem :=
  {| mem_flags := ∅; mem_storage := ∅; mem_sizes := ∅ |}.

(** [args[i]]: a read outside the array, or through a NULL [args], is
    undefined. *)
Definition arg_at (i : nat) (st : pstate) : outcome (option string) :=
  match args st with
  | Some a => match a !! i with Some t => Ok t | None => Undefined end
  | None => Undefined
  end.

(** [argv[i] = t], a write into the caller's vector. *)
Definition argv_write (i : nat) (t : option string) (st : pstate) : outcome pstate :=
  match args st with
  | Some a =>
      if decide (i < length a)%nat then Ok (set_args (Some (<[i:=t]> a)) st)
      else Undefined
  | None => Undefined
  end.

(* ===================================================================== *)
(** * 7. The public cursor primitives and the callbacks *)
(* ===================================================================== *)

(** [optparse_shift]. *)
Definition optparse_shift (st : pstate) : outcome (option string * pstate) :=
  match args st with
  | None => Ok (None, st)
  | Some _ =>
      cur ← arg_at (args_index st) st;
      match cur with
      | None => Ok (None, st)
      | Some _ =>
          let st' := set_args_index (S (args_index st)) st in
          t ← arg_at (args_index st') st';
          Ok (t, st')
      end
  end.

(** [optparse_unshift]. *)
Definition optparse_unshift (st : pstate) : outcome (option string * pstate) :=
  match args st with
  | None => Ok (None, st)
  | Some _ =>
      match args_index st with
      | S i =>
          let st' := set_args_index i st in
          t ← arg_at i st';
          Ok (t, st')
      | O => Ok (None, st)
      end
  end.

(** Running caller code against the cursor of the parser. *)
Fixpoint run_cb (p : cb_prog) (st : pstate) : outcome pstate :=
  match p with
  | CbRet m => Ok (set_memory m st)
  | CbShift k => '(t, st') ← optparse_shift st; run_cb (k t) st'
  | CbUnshift k => '(t, st') ← optparse_unshift st; run_cb (k t) st'
  end.

(* ===================================================================== *)
(** * 8. The option executor [execute_option] *)
(* ===================================================================== *)

Definition INT_MIN : Z := - 2 ^ 31.
Definition INT_MAX : Z := 2 ^ 31 - 1.

(** The flag mutation; a flag that was never written reads as 0. *)
Definition set_flag (opt : optparse_opt) (st : pstate) : outcome pstate :=
  match flag opt with
  | None => Ok st
  | Some p =>
      let m := memory st in
      let old := default 0 (mem_flags m !! p) in
      let new :=
        match flag_type opt with
        | FLAG_TYPE_SET_TRUE => 1
        | FLAG_TYPE_SET_FALSE => 0
        | FLAG_TYPE_INCREMENT => old + 1
        | FLAG_TYPE_DECREMENT => old - 1
        end in
      if (INT_MIN <=? new) && (new <=? INT_MAX)
      then Ok (set_memory {| mem_flags := <[p:=new]> (mem_flags m);
                             mem_storage := mem_storage m;
                             mem_sizes := mem_sizes m |} st)
      else Undefined
  end.

Definition store_arg (p : nat) (c : storage_cell) (st : pstate) : pstate :=
  let m := memory st in
  set_memory {| mem_flags := mem_flags m;
                mem_storage := <[p:=c]> (mem_storage m);
                mem_sizes := mem_sizes m |} st.

Definition store_size (p : nat) (n : nat) (st : pstate) : pstate :=
  let m := memory st in
  set_memory {| mem_flags := mem_flags m;
                mem_storage := mem_storage m;
                mem_sizes := <[p:=n]> (mem_sizes m) |} st.

(** The locals of [execute_option] after the conversion step: [conv_arg]
    ([None] while it is indeterminate), [list_size], [list_array], and the
    text the buffer [arg] holds by then ([strtok] has cut a list). *)
Record converted := {
  conv_arg : option value;
  list_size : nat;
  list_array : option array;
  arg_text : option string
}.

Definition convert_arg (opt : optparse_opt) (arg : option string) : outcome converted :=
  match arg with
  | Some a =>
      match arg_delim opt with
      | Some d =>
          '(n, arr) ← strtoarr (Some a) (Some d) (arg_data_type opt);
          Ok {| conv_arg := None; list_size := n; list_array := arr;
                arg_text := Some (strtok_residue d a) |}
      | None =>
          if decide (arg_data_type opt = DATA_TYPE_NONE)
          then Ok {| conv_arg := None; list_size := 0; list_array := None;
                     arg_text := arg |}
          else
            let r := strtox (Some a) (arg_data_type opt) in
            if ret r =? 1 then Fatal (ArgumentNotValid a)
            else if ret r =? -1 then Fatal (ValueOutOfRange a)
            else Ok {| conv_arg := stored r; list_size := 0; list_array := None;
                       arg_text := arg |}
      end
  | None => Ok {| conv_arg := None; list_size := 0; list_array := None;
                  arg_text := None |}
  end.

(** Storing the converted option-argument.  The scalar case copies
    [get_data_type_size] bytes out of [conv_arg]: nothing when that is 0. *)
Definition store_converted (opt : optparse_opt) (arg : option string)
    (cv : converted) (st : pstate) : pstate :=
  match arg, arg_storage opt with
  | Some a, Some p =>
      match arg_delim opt with
      | Some _ => store_arg p (CellList (list_array cv)) st
      | None =>
          if decide (arg_data_type opt = DATA_TYPE_STR)
          then store_arg p (CellValue (VStr a)) st
          else if 0 <? get_data_type_size (arg_data_type opt) then
            match conv_arg cv with
            | Some v => store_arg p (CellValue v) st
            | None => st
            end
          else st
      end
  | _, _ => st
  end.

Definition store_list_size (opt : optparse_opt) (cv : converted) (st : pstate) : pstate :=
  match arg_delim opt, arg_storage_size opt with
  | Some _, Some p => store_size p (list_size cv) st
  | _, _ => st
  end.

(** The call of the option's function, by [function_type]. *)
Definition call_function (opt : optparse_opt) (arg : option string)
    (cv : converted) (st : pstate) : outcome pstate :=
  match function opt with
  | None => Ok st
  | Some f =>
      let call (a : cb_arg) := run_cb (f a (memory st)) st in
      (* oarg: the copy of the original text if one was made, else the buffer *)
      let oarg :=
        match arg_delim opt, function_type opt with
        | Some _, FUNCTION_TYPE_OARG => arg
        | _, _ => arg_text cv
        end in
      let type_void := call ArgVoid in
      let type_targ :=
        match arg_data_type opt with
        | DATA_TYPE_NONE => Ok st
        | DATA_TYPE_STR => call (ArgStr (arg_text cv))
        | _ => call (ArgVal (conv_arg cv))
        end in
      let type_targ_array :=
        match arg_data_type opt with
        | DATA_TYPE_NONE => Ok st
        | _ => call (ArgArray (list_size cv) (list_array cv))
        end in
      match function_type opt with
      | FUNCTION_TYPE_AUTO =>
          match arg_name opt with
          | Some _ =>
              match arg_delim opt with
              | Some _ => type_targ_array
              | None => type_targ
              end
          | None => type_void
          end
      | FUNCTION_TYPE_OARG => call (ArgStr oarg)
      | FUNCTION_TYPE_TARG => type_targ
      | FUNCTION_TYPE_OARG_ARRAY =>
          '(size, arr) ← strtoarr oarg (arg_delim opt) DATA_TYPE_STR;
          call (ArgArray size arr)
      | FUNCTION_TYPE_TARG_ARRAY => type_targ_array
      | FUNCTION_TYPE_VOID => type_void
      end
  end.

(** [execute_option]. *)
Definition execute_option (opt : optparse_opt) (arg : option string)
    (st : pstate) : outcome pstate :=
  st1 ← set_flag opt st;
  cv ← convert_arg opt arg;
  let st2 := store_converted opt arg cv st1 in
  let st3 := store_list_size opt cv st2 in
  call_function opt arg cv st3.

(* ===================================================================== *)
(** * 9. The option matchers *)
(* ===================================================================== *)

(** [bprint_option_name]: the name of an option as printed in the message
    about mutually exclusive options. *)
Definition bprint_option_name (opt : optparse_opt) : string :=
  let short :=
    if Ascii.eqb (short_name opt) zero then EmptyString
    else String "-" (String (short_name opt)
           (match long_name opt with Some _ => ", " | None => EmptyString end)) in
  match long_name opt with
  | Some l => short +:+ "--" +:+ l
  | None => short
  end.

(** Does the argument name ask for a detached argument
    ([opt->arg_name && opt->arg_name[0] != '[']) ? *)
Definition requires_arg (opt : optparse_opt) : bool :=
  match arg_name opt with
  | Some n => negb (Ascii.eqb (first_char n) "[")
  | None => false
  end.

(** [arg = args[++args_index]]. *)
Definition next_arg (st : pstate) : outcome (option string * pstate) :=
  let st' := set_args_index (S (args_index st)) st in
  t ← arg_at (args_index st') st';
  Ok (t, st').

(** Splits [name=value] at the first '='. *)
Fixpoint split_eq (s : string) : string * option string :=
  match s with
  | String c s' =>
      if Ascii.eqb c "=" then (EmptyString, Some s')
      else let '(n, a) := split_eq s' in (String c n, a)
  | EmptyString => (EmptyString, None)
  end.

Section Parser.

(** The constant of the absent header. *)
Variable OPTPARSE_MUTUALLY_EXCLUSIVE_GROUPS_MAX : Z.

(** [check_mutual_exclusivity]. *)
Definition check_mutual_exclusivity (opt : optparse_opt) (st : pstate) : outcome pstate :=
  if (0 <? group opt) && (group opt <? OPTPARSE_MUTUALLY_EXCLUSIVE_GROUPS_MAX) then
    match exclusive_opts st !! group opt with
    | Some first =>
        Fatal (MutuallyExclusive (bprint_option_name first) (bprint_option_name opt))
    | None => Ok (set_exclusive_opts (<[group opt := opt]> (exclusive_opts st)) st)
    end
  else Ok st.

(** The search loop of [execute_long_option] over the option array. *)
Fixpoint execute_long_option_loop (long_name' : string) (arg : option string)
    (opts : list optparse_opt) (st : pstate) : outcome pstate :=
  match opts with
  | [] => Fatal (UnknownLongOption long_name')
  | opt :: opts' =>
      if bool_decide (long_name opt = Some long_name') then
        st1 ← check_mutual_exclusivity opt st;
        '(arg', st2) ←
          match arg with
          | Some a =>
              match arg_name opt with
              | None => Fatal (UnwantedOptionArgument a)
              | Some _ => Ok (arg, st1)
              end
          | None =>
              if requires_arg opt then
                '(t, st2) ← next_arg st1;
                match t with
                | None => Fatal (LongOptionRequiresArgument long_name')
                | Some _ => Ok (t, st2)
                end
              else Ok (None, st1)
          end;
        execute_option opt arg' st2
      else execute_long_option_loop long_name' arg opts' st
  end.

(** [execute_long_option]; [long_name'] is the token without its two
    dashes. *)
Definition execute_long_option (long_name' : string)
    (options' : option (list optparse_opt)) (st : pstate) : outcome pstate :=
  match options' with
  | None => Fatal (UnknownLongOption long_name')
  | Some opts =>
      let '(n, arg) := split_eq long_name' in
      execute_long_option_loop n arg opts st
  end.

(** The search of [execute_short_option] for the first option named [c]. *)
Fixpoint find_short (c : ascii) (opts : list optparse_opt) : option optparse_opt :=
  match opts with
  | [] => None
  | opt :: opts' =>
      if Ascii.eqb c (short_name opt) then Some opt else find_short c opts'
  end.

(** The message at the label [unknown_option] of [execute_short_option]. *)
Definition unknown_short (c : ascii) (option_group : string) : optparse_err :=
  match option_group with
  | String _ (String _ (String _ _)) => UnknownShortOptionInSequence c option_group
  | _ => UnknownShortOption option_group
  end.

(** The scanning loop of [execute_short_option]; [c] is the text at the
    scanning pointer. *)
Fixpoint execute_short_option_loop (option_group : string)
    (opts : list optparse_opt) (c : string) (st : pstate) : outcome pstate :=
  match c with
  | EmptyString => Ok st
  | String ch rest =>
      let arg := match rest with EmptyString => None | _ => Some rest end in
      match find_short ch opts with
      | None => Fatal (unknown_short ch option_group)
      | Some opt =>
          st1 ← check_mutual_exclusivity opt st;
          '(arg', st2) ←
            match arg with
            | Some _ =>
                match arg_name opt with
                | None => Ok (None, st1)
                | Some _ => Ok (arg, st1)
                end
            | None =>
                if requires_arg opt then
                  '(t, st2) ← next_arg st1;
                  match t with
                  | None => Fatal (ShortOptionRequiresArgument ch)
                  | Some _ => Ok (t, st2)
                  end
                else Ok (None, st1)
            end;
          st3 ← execute_option opt arg' st2;
          match arg' with
          | Some _ => Ok st3
          | None => execute_short_option_loop option_group opts rest st3
          end
      end
  end.

(** [execute_short_option]. *)
Definition execute_short_option (option_group : string)
    (options' : option (list optparse_opt)) (st : pstate) : outcome pstate :=
  let c := match option_group with String _ r => r | EmptyString => EmptyString end in
  match options' with
  | None => Fatal (unknown_short (first_char c) option_group)
  | Some opts => execute_short_option_loop option_group opts c st
  end.

(* ===================================================================== *)
(** * 10. The command tree walker [parse] *)
(* ===================================================================== *)

(** The search of [parse] for the subcommand named by the token. *)
Fixpoint find_subcmd (tok : string) (subs : list optparse_cmd) : option optparse_cmd :=
  match subs with
  | [] => None
  | subcmd :: subs' =>
      if String.eqb tok (name subcmd) then Some subcmd else find_subcmd tok subs'
  end.

(** The do-while loop that moves the rest of the vector down behind the
    operands on subcommand descent. *)
Fixpoint remove_previous (fuel : nat) (st : pstate) : outcome pstate :=
  match fuel with
  | O => OutOfFuel
  | S fuel' =>
      '(t, st1) ← next_arg st;
      st2 ← argv_write (argc st1) t st1;
      let st3 := set_argc (S (argc st2)) st2 in
      cur ← arg_at (args_index st3) st3;
      match cur with
      | Some _ => remove_previous fuel' st3
      | None => Ok st3
      end
  end.

(** The first statements of [parse]. *)
Definition parse_init (cmd : optparse_cmd) (st : pstate) : pstate :=
  set_active_cmd (Some cmd) (set_argc 1 (set_args_index 1 st)).

(** The statements of [parse] behind its loop. *)
Definition parse_end (cmd : optparse_cmd) (st : pstate) : outcome pstate :=
  st1 ← argv_write (argc st) None st;
  match cmd_function cmd with
  | Some f =>
      let st2 := set_args_index 0 st1 in
      run_cb (f (argc st2) (default [] (args st2)) (memory st2)) st2
  | None => Ok st1
  end.

(** [if (args[args_index] != NULL) args_index++]. *)
Definition advance (st : pstate) : outcome pstate :=
  cur ← arg_at (args_index st) st;
  match cur with
  | Some _ => Ok (set_args_index (S (args_index st)) st)
  | None => Ok st
  end.

Definition starts_with_dash (t : string) : bool :=
  Ascii.eqb (first_char t) "-".

(** The loop of [parse], entered with the locals initialised.  On descent
    into a subcommand the source calls [parse] again and returns behind the
    call, so the statements behind the loop run once, in the innermost
    call, for the command the walk ends in.  The loop therefore yields that
    command and the state at its exit, and [parse] runs [parse_end] on
    them; the recursive call of [parse] is [parse_init] followed by the
    loop. *)
Fixpoint parse_loop (fuel : nat) (cmd : optparse_cmd) (ignore_options : bool)
    (st : pstate) : outcome (optparse_cmd * pstate) :=
  match fuel with
  | O => OutOfFuel
  | S fuel' =>
      cur ← arg_at (args_index st) st;
      match cur with
      | None => Ok (cmd, st)
      | Some tok =>
          if negb ignore_options && starts_with_dash tok then
            match tok with
            | String _ (String c1 rest) =>
                if Ascii.eqb c1 "-" then
                  match rest with
                  | EmptyString =>
                      st1 ← advance st; parse_loop fuel' cmd true st1
                  | _ =>
                      st1 ← execute_long_option rest (options cmd) st;
                      st2 ← advance st1; parse_loop fuel' cmd ignore_options st2
                  end
                else
                  st1 ← execute_short_option tok (options cmd) st;
                  st2 ← advance st1; parse_loop fuel' cmd ignore_options st2
            | _ =>
                st1 ← execute_short_option tok (options cmd) st;
                st2 ← advance st1; parse_loop fuel' cmd ignore_options st2
            end
          else
            match subcommands cmd with
            | Some subs =>
                match find_subcmd tok subs with
                | Some subcmd =>
                    st1 ← remove_previous fuel' st;
                    st2 ← argv_write (argc st1) None st1;
                    parse_loop fuel' subcmd false (parse_init subcmd st2)
                | None => Fatal (UnknownCommand tok)
                end
            | None =>
                st1 ← argv_write (argc st) cur st;
                let st2 := set_argc (S (argc st1)) st1 in
                st3 ← advance st2; parse_loop fuel' cmd ignore_options st3
            end
      end
  end.

(** [parse]. *)
Definition parse (fuel : nat) (cmd : optparse_cmd) (st : pstate) : outcome pstate :=
  '(leaf, st1) ← parse_loop fuel cmd false (parse_init cmd st);
  parse_end leaf st1.

(** [optparse_parse]: the caller hands over its vector, which becomes
    [args].  The checks of the debug build ([check_cmd]) and the variables
    of the help screen are left out. *)
Definition optparse_parse (fuel : nat) (cmd : option optparse_cmd)
    (argv : list (option string)) (st : pstate) : outcome pstate :=
  match cmd with
  | Some c => parse fuel c (set_args (Some argv) st)
  | None => Ok st
  end.

End Parser.

(* ===================================================================== *)
(** * 11. Notions used to state the properties *)
(* ===================================================================== *)

(** ** Integer numerals

    The numerals of the C grammar for a base argument of 0, as a syntax
    tree with its text and its value: white space, an optional sign, and
    decimal digits not starting with 0, or "0" and octal digits, or "0x" or
    "0X" and at least one hexadecimal digit. *)
Inductive radix := Decimal | Octal | Hexadecimal (upper_x : bool).

Record numeral := {
  n_space : string;
  n_sign : option bool;      (* [Some true] is '-', [Some false] is '+' *)
  n_radix : radix;
  n_digits : string
}.

Definition radix_base (r : radix) : Z :=
  match r with Decimal => 10 | Octal => 8 | Hexadecimal _ => 16 end.

Definition radix_prefix (r : radix) : string :=
  match r with
  | Decimal => EmptyString
  | Octal => "0"
  | Hexadecimal false => "0x"
  | Hexadecimal true => "0X"
  end.

Definition sign_text (s : option bool) : string :=
  match s with
  | None => EmptyString
  | Some false => "+"
  | Some true => "-"
  end.

Definition render (n : numeral) : string :=
  n_space n +:+ sign_text (n_sign n) +:+ radix_prefix (n_radix n) +:+ n_digits n.

Fixpoint all_chars (p : ascii → bool) (s : string) : bool :=
  match s with
  | String c s' => p c && all_chars p s'
  | EmptyString => true
  end.

Definition is_digit_of (base : Z) (c : ascii) : bool :=
  bool_decide (is_Some (Libc.digit_in base c)).

(** The digits of a well-formed numeral, behind the prefix of its radix. *)
Definition digits_wf (rx : radix) (ds : string) : bool :=
  all_chars (is_digit_of (radix_base rx)) ds
  && match rx with
     | Decimal =>
         match ds with
         | String c _ => negb (Ascii.eqb c "0")
         | EmptyString => false
         end
     | Octal => true
     | Hexadecimal _ => negb (String.eqb ds EmptyString)
     end.

Definition numeral_wf (n : numeral) : bool :=
  all_chars Libc.isspace (n_space n) && digits_wf (n_radix n) (n_digits n).

(** Positional value of a digit string. *)
Fixpoint digits_value (base acc : Z) (s : string) : Z :=
  match s with
  | String c s' => digits_value base (acc * base + default 0 (Libc.digit_val c)) s'
  | EmptyString => acc
  end.

Definition magnitude (n : numeral) : Z :=
  digits_value (radix_base (n_radix n)) 0 (n_digits n).

Definition is_negative (n : numeral) : bool :=
  match n_sign n with Some true => true | _ => false end.

Definition numeral_value (n : numeral) : Z :=
  if is_negative n then - magnitude n else magnitude n.

(** The integer type tags, with signedness and width in bits. *)
Definition int_kind (data_type : optparse_data_type) : option (bool * Z) :=
  match data_type with
  | DATA_TYPE_SHRT => Some (true, 16)
  | DATA_TYPE_USHRT => Some (false, 16)
  | DATA_TYPE_INT => Some (true, 32)
  | DATA_TYPE_UINT => Some (false, 32)
  | DATA_TYPE_LONG => Some (true, 64)
  | DATA_TYPE_ULONG => Some (false, 64)
  | DATA_TYPE_LLONG => Some (true, 64)
  | DATA_TYPE_ULLONG => Some (false, 64)
  | DATA_TYPE_INT8 => Some (true, 8)
  | DATA_TYPE_UINT8 => Some (false, 8)
  | DATA_TYPE_INT16 => Some (true, 16)
  | DATA_TYPE_UINT16 => Some (false, 16)
  | DATA_TYPE_INT32 => Some (true, 32)
  | DATA_TYPE_UINT32 => Some (false, 32)
  | DATA_TYPE_INT64 => Some (true, 64)
  | DATA_TYPE_UINT64 => Some (false, 64)
  | _ => None
  end.

Definition is_integer_type (data_type : optparse_data_type) : bool :=
  bool_decide (is_Some (int_kind data_type)).

Definition is_signed_type (data_type : optparse_data_type) : bool :=
  match int_kind data_type with Some (true, _) => true | _ => false end.

(** The least and greatest value of an integer type. *)
Definition type_min (data_type : optparse_data_type) : Z :=
  match int_kind data_type with
  | Some (true, bits) => - 2 ^ (bits - 1)
  | _ => 0
  end.

Definition type_max (data_type : optparse_data_type) : Z :=
  match int_kind data_type with
  | Some (true, bits) => 2 ^ (bits - 1) - 1
  | Some (false, bits) => 2 ^ bits - 1
  | None => 0
  end.

Definition in_range (data_type : optparse_data_type) (v : Z) : Prop :=
  type_min data_type <= v <= type_max data_type.

(** The range of the integer type of signedness [sg] and width [bits]. *)
Definition kind_range (sg : bool) (bits v : Z) : Prop :=
  if sg then - 2 ^ (bits - 1) <= v <= 2 ^ (bits - 1) - 1
  else 0 <= v <= 2 ^ bits - 1.

(** All integer cases of [strtox] in one formula. *)
Definition int_conv (sg : bool) (bits : Z) (s : string) : conv :=
  let '(x, endptr, e) :=
    if sg then conv_signed (Libc.strto_signed 64 s) bits
    else conv_unsigned (Libc.strto_unsigned 64 s) bits in
  strtox_return s x endptr e.

(** The eight boolean spellings and what they mean. *)
Definition bool_spellings : list (string * bool) :=
  [("true", true); ("false", false); ("enabled", true); ("disabled", false);
   ("yes", true); ("no", false); ("on", true); ("off", false)].

(** ** List splitting

    The splitter as the specification words it: the text is cut at every
    delimiter character, the empty items are skipped, and the converter is
    applied to the remaining items from left to right, stopping at the
    first item it rejects. *)
Fixpoint fields (delim s : string) : list string :=
  match s with
  | EmptyString => [EmptyString]
  | String c s' =>
      if Libc.is_delim delim c then EmptyString :: fields delim s'
      else match fields delim s' with
           | f :: fs => String c f :: fs
           | [] => [String c EmptyString]
           end
  end.

Definition nonempty (s : string) : bool := negb (String.eqb s EmptyString).

Definition items (delim s : string) : list string :=
  List.filter nonempty (fields delim s).

Fixpoint convert_items (data_type : optparse_data_type) (index : nat)
    (its : list string) : outcome array :=
  match its with
  | [] => Ok []
  | it :: its' =>
      let r := strtox (Some it) data_type in
      if ret r =? 0 then
        rest ← convert_items data_type (S index) its';
        Ok (match stored r with
            | Some v => (Z.of_nat index * get_data_type_size data_type, v) :: rest
            | None => rest
            end)
      else if ret r =? 1 then Fatal (ListItemNotValid it)
      else Fatal (ListItemOutOfRange it)
  end.

Definition split_spec (str delim : option string)
    (data_type : optparse_data_type) : outcome (nat * option array) :=
  match str, delim with
  | Some s, Some d =>
      arr ← convert_items data_type 0%nat (items d s);
      Ok (length (items d s), Some arr)
  | _, _ => Ok (0%nat, None)
  end.

(** An item the converter accepts for the given type. *)
Definition converts (data_type : optparse_data_type) (it : string) : Prop :=
  ret (strtox (Some it) data_type) = 0.

(** ** Callbacks that do not move the cursor backwards

    [optparse_unshift] is meant to undo a preceding [optparse_shift].  A
    callback keeps to that when the scan index it leaves is never below the
    one it was called at. *)
Definition cb_forward (p : cb_prog) : Prop :=
  ∀ st st', run_cb p st = Ok st' → (args_index st ≤ args_index st')%nat.

Definition opt_forward (opt : optparse_opt) : Prop :=
  ∀ f a m, function opt = Some f → cb_forward (f a m).

#[warnings="-register-all"]
Inductive cmd_forward : optparse_cmd → Prop :=
| cmd_forward_intro cmd :
    (∀ opts, options cmd = Some opts → Forall opt_forward opts) →
    (∀ subs, subcommands cmd = Some subs → Forall cmd_forward subs) →
    cmd_forward cmd.

(** A caller's vector as [main] receives it: the program name, the
    tokens, the terminating NULL. *)
Definition argv_of (prog : string) (toks : list string) : list (option string) :=
  Some prog :: (Some <$> toks) ++ [None].

(** What one step of option processing leaves alone: the vector, [*argc]
    and the active command; the table of exclusive options only grows. *)
Definition frame (st st' : pstate) : Prop :=
  args st' = args st ∧ argc st' = argc st ∧ active_cmd st' = active_cmd st
  ∧ exclusive_opts st ⊆ exclusive_opts st'.

(** The end of the vector as seen from the scan index: a NULL at [nul],
    behind it nothing or another NULL. *)
Definition vec_end (a : list (option string)) (nul : nat) : Prop :=
  a !! nul = Some None ∧ (a !! S nul = None ∨ a !! S nul = Some None).

(** ** The invariant of the walk

    At the head of the loop of [parse] the vector consists of the program
    name and the operands kept so far ([argc] cells), a gap of cells already
    read, the tokens still to be read from the scan index on, the
    terminating NULL, and the cells behind it; the operands kept and the
    tokens to be read are, in this order, a subsequence of the tokens the
    caller passed. *)
Definition walk_inv (prog : string) (toks : list string) (st : pstate) : Prop :=
  ∃ (ops : list string) (gap : list (option string)) (pending : list string)
    (junk : list (option string)),
    args st = Some ((Some <$> prog :: ops) ++ gap ++ (Some <$> pending) ++ None :: junk)
    ∧ argc st = S (length ops)
    ∧ args_index st = (S (length ops) + length gap)%nat
    ∧ (junk = [] ∨ ∃ junk', junk = None :: junk')
    ∧ (ops ++ pending) `sublist_of` toks.

(** What holds of the vector along the walk whatever the callbacks do: it
    keeps its length and its first cell (the program name), [*argc] is at
    least 1, and the cells below [*argc] are not NULL. *)
Definition kept (prog : string) (n : nat) (st : pstate) : Prop :=
  ∃ a, args st = Some a ∧ a !! 0%nat = Some (Some prog) ∧ length a = n
       ∧ (1 ≤ argc st)%nat
       ∧ ∀ j, (j < argc st)%nat → ∃ t, a !! j = Some (Some t).

(** The first option of the array with the given long name, as the search
    loop of [execute_long_option] finds it. *)
Fixpoint find_long (n : string) (opts : list optparse_opt) : option optparse_opt :=
  match opts with
  | [] => None
  | opt :: opts' =>
      if bool_decide (long_name opt = Some n) then Some opt else find_long n opts'
  end.

(** ** Sample descriptors for the worked examples *)

(** An option that only names a flag to mutate. *)
Definition flag_opt (c : ascii) (l : option string) (p : nat)
    (ft : optparse_flag_type) (g : Z) : optparse_opt :=
  {| short_name := c; long_name := l; arg_name := None;
     arg_data_type := DATA_TYPE_NONE; arg_delim := None;
     flag := Some p; flag_type := ft;
     arg_storage := None; arg_storage_size := None;
     function := None; function_type := FUNCTION_TYPE_AUTO; group := g |}.

(** An option that stores its argument. *)
Definition arg_opt (c : ascii) (l : option string) (an : string)
    (ty : optparse_data_type) (p : nat) : optparse_opt :=
  {| short_name := c; long_name := l; arg_name := Some an;
     arg_data_type := ty; arg_delim := None;
     flag := None; flag_type := FLAG_TYPE_SET_TRUE;
     arg_storage := Some p; arg_storage_size := None;
     function := None; function_type := FUNCTION_TYPE_AUTO; group := 0 |}.

(** An option that only calls a function. *)
Definition call_opt (c : ascii) (f : cb_arg → mem → cb_prog) : optparse_opt :=
  {| short_name := c; long_name := None; arg_name := None;
     arg_data_type := DATA_TYPE_NONE; arg_delim := None;
     flag := None; flag_type := FLAG_TYPE_SET_TRUE;
     arg_storage := None; arg_storage_size := None;
     function := Some f; function_type := FUNCTION_TYPE_VOID; group := 0 |}.

(** -a (flag at address 0), -b VALUE (string stored at address 1),
    -v/--verbose (counter at address 2). *)
Definition sample_options : list optparse_opt :=
  [flag_opt "a" None 0 FLAG_TYPE_SET_TRUE 0;
   arg_opt "b" None "VALUE" DATA_TYPE_STR 1;
   flag_opt "v" (Some "verbose") 2 FLAG_TYPE_INCREMENT 0].

Definition sample_cmd : optparse_cmd :=
  {| name := "prog"; options := Some sample_options; subcommands := None;
     cmd_function := None |}.

(** Two options of the mutual-exclusion group 1. *)
Definition exclusive_cmd : optparse_cmd :=
  {| name := "prog";
     options := Some [flag_opt "a" (Some "aa") 0 FLAG_TYPE_SET_TRUE 1;
                      flag_opt "b" (Some "bb") 1 FLAG_TYPE_SET_TRUE 1];
     subcommands := None; cmd_function := None |}.

(** A root command with the subcommand "remote", which has the
    subcommand "add"; "add" has the option -a. *)
Definition add_cmd : optparse_cmd :=
  {| name := "add";
     options := Some [flag_opt "a" None 0 FLAG_TYPE_SET_TRUE 0];
     subcommands := None; cmd_function := None |}.

Definition remote_cmd : optparse_cmd :=
  {| name := "remote"; options := None; subcommands := Some [add_cmd];
     cmd_function := None |}.

Definition git_cmd : optparse_cmd :=
  {| name := "prog"; options := None; subcommands := Some [remote_cmd];
     cmd_function := None |}.

(** A callback that, the first time it runs, calls [optparse_unshift]
    twice and notes in the flag at address 9 that it has run. *)
Definition rewind_once (_ : cb_arg) (m : mem) : cb_prog :=
  match mem_flags m !! 9%nat with
  | Some _ => CbRet m
  | None =>
      CbUnshift (λ _, CbUnshift (λ _,
        CbRet {| mem_flags := <[9%nat:=1]> (mem_flags m);
                 mem_storage := mem_storage m; mem_sizes := mem_sizes m |}))
  end.

Definition rewind_cmd : optparse_cmd :=
  {| name := "prog";
     options := Some [flag_opt "y" None 0 FLAG_TYPE_INCREMENT 0;
                      call_opt "x" rewind_once];
     subcommands := None; cmd_function := None |}.

(** A text without the character '='. *)
Definition no_eq (n : string) : bool :=
  all_chars (λ c, negb (Ascii.eqb c "=")) n.

(** The sample command with an operand callback that calls
    [optparse_shift] once and stores what it returns at address 7. *)
Definition first_operand_cb (_ : nat) (_ : list (option string)) (m : mem) : cb_prog :=
  CbShift (λ t,
    CbRet {| mem_flags := mem_flags m;
             mem_storage :=
               match t with
               | Some s => <[7%nat:=CellValue (VStr s)]> (mem_storage m)
               | None => mem_storage m
               end;
             mem_sizes := mem_sizes m |}).

Definition echo_cmd : optparse_cmd :=
  {| name := "prog"; options := Some sample_options; subcommands := None;
     cmd_function := Some first_operand_cb |}.

(* ===================================================================== *)
(** * 11a. The help screen, the command chains and the debug checks *)
(* ===================================================================== *)

(** The functions of the source that the walker does not call: the word
    wrapper [blockprint] and the buffer printer [bprintf] of the help
    screen, the option table of [print_options], the depth and name
    chain of a command ([initialize_subcommand_parents], [build_cmd_array]),
    the command chain reader [read_cmd_chain] behind
    [optparse_print_help_subcmd], the assertions of [check_cmd], and the
    size of the temporary array of [strtoarr].

    The texts of the help screen are lists of characters; the terminating
    NUL of the C string is the end of the list.  What is written to the
    stream is the value of the function.  The [int] arithmetic of these
    functions is taken not to overflow (the operands are column numbers).
    OPTPARSE_HELP_WORD_WRAP and OPTPARSE_HIDDEN_OPTIONS are switched on; the
    other constants of the help screen are parameters. *)

Definition text := list ascii.

(** The characters of a string. *)
Definition text_of (s : string) : text := String.list_ascii_of_string s.

Definition newline : ascii := "010"%char.
Definition space : ascii := " "%char.

(** [fprintf(stream, "%*s", indent, "")]: a negative field width is taken
    as a left-justified field of the opposite width, so the call pads to
    the absolute value. *)
Definition pad (indent : Z) : text := replicate (Z.abs_nat indent) space.

(** ** [blockprint] *)

(** How the scan of one line ended: behind a newline character (with the
    count [n] of characters up to and including it), at the terminating NUL,
    or by leaving the loop with [n] beyond [width]. *)
Inductive line_scan :=
| ScanNewline (n : nat)
| ScanEnd
| ScanWrap (n : nat).

(** The loop [while (n <= width)]; [s] is the text at [str + n]. *)
Fixpoint scan_line (s : text) (n : nat) (width : Z) : line_scan :=
  if (Z.of_nat n <=? width)%Z then
    match s with
    | c :: s' =>
        if Ascii.eqb c newline then ScanNewline (S n)
        else scan_line s' (S n) width
    | [] => ScanEnd
    end
  else ScanWrap n.

(** [while (n > 0 && str[n] != ' ') n--;] *)
Fixpoint back_to_space (str : text) (n : nat) : nat :=
  match n with
  | O => O
  | S n' =>
      if bool_decide (str !! n = Some space) then n else back_to_space str n'
  end.

(** [while (n > 0 && str[n - 1] == ' ') n--;] *)
Fixpoint back_over_spaces (str : text) (n : nat) : nat :=
  match n with
  | O => O
  | S n' =>
      if bool_decide (str !! n' = Some space) then back_over_spaces str n' else n
  end.

(** [if (str[0] == ' ') str++;] on the pointer held as the characters
    before it (nearest first) and the text at it. *)
Definition skip_space (before : list ascii) (str : text) : list ascii * text :=
  match str with
  | c :: str' => if Ascii.eqb c space then (c :: before, str') else (before, str)
  | [] => (before, str)
  end.

(** The loop [while (1)] of [blockprint].  The pointer [str] is held as
    the characters of the buffer before it ([before], nearest first) and the
    text at it.  The value is what the loop writes from here on. *)
Fixpoint blockprint_loop (fuel : nat) (first_line_indent indent end' : Z)
    (first_line_printed : bool) (before : list ascii) (str : text)
  : outcome text :=
  match fuel with
  | O => OutOfFuel
  | S fuel' =>
      let indentation := if first_line_printed then pad indent else [] in
      let width :=
        if first_line_printed then (end' - indent)%Z
        else if (end' <? first_line_indent)%Z then 0%Z
             else (end' - first_line_indent)%Z in
      let next := blockprint_loop fuel' first_line_indent indent end' true in
      match scan_line str 0 width with
      | ScanNewline n =>
          rest ← next (rev (take n str) ++ before) (drop n str);
          Ok (indentation ++ take n str ++ rest)
      | ScanEnd => Ok (indentation ++ str ++ [newline])
      | ScanWrap n =>
          let n1 := (Z.of_nat n - 1)%Z in
          if (n1 <? 0)%Z then
            (* a negative precision prints the whole text; [str += n]
               moves the pointer one character back, which is undefined at
               the start of the buffer *)
            match before with
            | [] => Undefined
            | c :: before' =>
                let '(before2, str2) := skip_space before' (c :: str) in
                rest ← next before2 str2;
                Ok (indentation ++ str ++ [newline] ++ rest)
            end
          else
            let n2 := back_over_spaces str (back_to_space str (Z.to_nat n1)) in
            let n3 := if decide (n2 = 0%nat) then Z.to_nat width else n2 in
            let '(before2, str2) :=
              skip_space (rev (take n3 str) ++ before) (drop n3 str) in
            rest ← next before2 str2;
            Ok (indentation ++ take n3 str ++ [newline] ++ rest)
      end
  end.

(** [blockprint] (with OPTPARSE_HELP_WORD_WRAP): what is written to the
    stream for the text [str], printed from column [first_line_indent] on,
    later lines indented by [indent], lines ending at column [end']. *)
Definition blockprint (fuel : nat) (str : option text)
    (first_line_indent indent end' : Z) : outcome text :=
  match str with
  | None | Some [] => Ok [newline]
  | Some s => blockprint_loop fuel first_line_indent indent end' false [] s
  end.

(** ** [bprintf] and the divider of [print_options] *)

(** The members of [struct optparse_opt] that only the help screen reads. *)
Record opt_help := { hidden : bool; description : option string }.

Section Help.

(** The constants of the absent header. *)
Variable OPTPARSE_PRINT_BUFFER_SIZE : Z.
Variable OPTPARSE_HELP_INDENTATION_WIDTH : Z.
Variable OPTPARSE_HELP_MAX_DIVIDER_WIDTH : Z.
Variable OPTPARSE_HELP_UNIQUE_COLUMN_FOR_LONG_OPTIONS : bool.

(** [bprintf] for a format and arguments that expand to the text [s]:
    [vsnprintf] writes behind the text of the buffer, at most
    [OPTPARSE_PRINT_BUFFER_SIZE - len - 1] characters and the NUL, and
    returns the length of [s].  A buffer without a NUL inside its
    [OPTPARSE_PRINT_BUFFER_SIZE] bytes makes [strlen] read outside it. *)
Definition bprintf (buffer : text) (s : text) : outcome (Z * text) :=
  let len := Z.of_nat (length buffer) in
  if (len <? OPTPARSE_PRINT_BUFFER_SIZE)%Z then
    Ok (Z.of_nat (length s),
        buffer ++ take (Z.to_nat (OPTPARSE_PRINT_BUFFER_SIZE - len - 1)) s)
  else Undefined.

Definition strlen (s : string) : Z := Z.of_nat (String.length s).

(** The first pass of [print_options]: the width of an option's names
    ([len] at the comment "Snap divider to options"). *)
Definition names_width (opt : optparse_opt) : Z :=
  let len := (OPTPARSE_HELP_INDENTATION_WIDTH * 2)%Z in
  let len :=
    if negb (Ascii.eqb (short_name opt) zero) then
      let len := (len + 2)%Z in
      match long_name opt with Some _ => (len + 2)%Z | None => len end
    else if OPTPARSE_HELP_UNIQUE_COLUMN_FOR_LONG_OPTIONS then (len + 4)%Z
    else len in
  match long_name opt with
  | Some l => (len + (2 + strlen l))%Z
  | None => len
  end.

(** ... and with the argument name ([len] at the comment "Snap divider to
    arguments"). *)
Definition names_arg_width (opt : optparse_opt) : Z :=
  let len := names_width opt in
  match arg_name opt with
  | Some a =>
      if Ascii.eqb (first_char a) "[" then
        match long_name opt with
        | Some _ => (len + (1 + strlen a))%Z
        | None => (len + strlen a)%Z
        end
      else (len + (1 + strlen a))%Z
  | None => len
  end.

(** The loop "Determine divider width" of [print_options]. *)
Fixpoint divider_loop (opts : list (optparse_opt * opt_help)) (divider_width : Z) : Z :=
  match opts with
  | [] => divider_width
  | (opt, h) :: opts' =>
      if hidden h then divider_loop opts' divider_width
      else
        let len := names_width opt in
        let divider_width :=
          if (divider_width <? len)%Z && (len <=? OPTPARSE_HELP_MAX_DIVIDER_WIDTH)%Z
          then len else divider_width in
        let len := names_arg_width opt in
        let divider_width :=
          if (divider_width <? len)%Z then len else divider_width in
        divider_loop opts' divider_width
  end.

(** [divider_width] of [print_options] when the second pass starts. *)
Definition print_options_divider_width (opts : list (optparse_opt * opt_help)) : Z :=
  let divider_width := divider_loop opts 0%Z in
  if (OPTPARSE_HELP_MAX_DIVIDER_WIDTH <? divider_width)%Z
  then OPTPARSE_HELP_MAX_DIVIDER_WIDTH else divider_width.

(** [fprintf(stream, "%*c", width, ' ')]: the character is padded to the
    field width, so at least the character itself is written. *)
Definition pad_char (width : Z) : text :=
  replicate (Z.to_nat (Z.max 1 (Z.abs width))) space.

(** The second pass of [print_options]: what is written for an option up
    to the second indentation, the characters that [len] counts before the
    spacing is adjusted. *)
Definition option_column (opt : optparse_opt) : text :=
  pad_char OPTPARSE_HELP_INDENTATION_WIDTH
  ++ (if negb (Ascii.eqb (short_name opt) zero) then
        text_of "-" ++ [short_name opt]
        ++ match long_name opt with Some _ => text_of ", " | None => [] end
      else if OPTPARSE_HELP_UNIQUE_COLUMN_FOR_LONG_OPTIONS then text_of "    "
      else [])
  ++ match long_name opt with
     | Some l => text_of "--" ++ text_of l
     | None => []
     end
  ++ match arg_name opt with
     | Some a =>
         if Ascii.eqb (first_char a) "[" then
           match long_name opt with
           | Some _ => text_of "[=" ++ tail (text_of a)
           | None => text_of a
           end
         else text_of " " ++ text_of a
     | None => []
     end
  ++ pad_char OPTPARSE_HELP_INDENTATION_WIDTH.

Variable OPTPARSE_HELP_MAX_LINE_WIDTH : Z.
Variable OPTPARSE_HELP_FLOATING_DESCRIPTIONS : bool.

(** The second pass of [print_options] for one shown option. *)
Definition print_option (fuel : nat) (divider_width : Z)
    (opt : optparse_opt) (h : opt_help) : outcome text :=
  let column := option_column opt in
  let len := Z.of_nat (length column) in
  let '(spacing, len) :=
    if (len <? divider_width)%Z
    then (pad_char (divider_width - len), (len + (divider_width - len))%Z)
    else ([], len) in
  match description h with
  | Some d =>
      if (divider_width <? len)%Z then
        if OPTPARSE_HELP_FLOATING_DESCRIPTIONS then
          out ← blockprint fuel (Some (text_of d)) len divider_width
                  OPTPARSE_HELP_MAX_LINE_WIDTH;
          Ok (column ++ spacing ++ out)
        else
          out ← blockprint fuel (Some (text_of d)) divider_width divider_width
                  OPTPARSE_HELP_MAX_LINE_WIDTH;
          Ok (column ++ spacing ++ [newline] ++ pad_char divider_width ++ out)
      else
        out ← blockprint fuel (Some (text_of d)) divider_width divider_width
                OPTPARSE_HELP_MAX_LINE_WIDTH;
        Ok (column ++ spacing ++ out)
  | None => Ok (column ++ spacing ++ [newline])
  end.

(** The loop "Print options" of [print_options]. *)
Fixpoint print_options_rows (fuel : nat) (divider_width : Z)
    (opts : list (optparse_opt * opt_help)) : outcome text :=
  match opts with
  | [] => Ok []
  | (opt, h) :: opts' =>
      if hidden h then print_options_rows fuel divider_width opts'
      else
        row ← print_option fuel divider_width opt h;
        rest ← print_options_rows fuel divider_width opts';
        Ok (row ++ rest)
  end.

(** [print_options]: what is written to the stream. *)
Definition print_options (fuel : nat) (opts : list (optparse_opt * opt_help))
  : outcome text :=
  print_options_rows fuel (print_options_divider_width opts) opts.

End Help.

(** ** The depth of the command tree and the name chain of a command *)

(** [initialize_subcommand_parents]: the value returned.  The parent
    pointers it sets are taken up by [cmd_chain] below. *)
Fixpoint initialize_subcommand_parents (cmd : optparse_cmd) (depth : Z) : Z :=
  match subcommands cmd with
  | Some subs =>
      fold_left
        (λ max_depth subcmd,
           let ret := initialize_subcommand_parents subcmd (depth + 1)%Z in
           if (max_depth <? ret)%Z then ret else max_depth)
        subs 0%Z
  | None => depth
  end.

(** The commands from [cmd] down along [path], the positions taken in the
    subcommand arrays.  In a tree whose subcommand arrays are not shared
    between commands, [initialize_subcommand_parents] leaves the [_parent]
    pointer of each command of the chain at the command before it, and that
    of the root NULL. *)
Fixpoint cmd_chain (cmd : optparse_cmd) (path : list nat) : option (list optparse_cmd) :=
  match path with
  | [] => Some [cmd]
  | i :: path' =>
      subs ← subcommands cmd;
      subcmd ← subs !! i;
      rest ← cmd_chain subcmd path';
      Some (cmd :: rest)
  end.

(** The do-while loop of [build_cmd_array], entered at a command named
    [cmd_name] whose parents, nearest first, are named [parents];
    [temp_array] has [subcmd_depth + 1] cells. *)
Fixpoint build_cmd_array_up (cmd_name : string) (parents : list string)
    (temp_array : list (option string)) (i : nat)
  : outcome (list (option string) * nat) :=
  if decide (i < length temp_array)%nat then
    let temp_array := <[i:=Some cmd_name]> temp_array in
    match parents with
    | [] => Ok (temp_array, S i)
    | p :: parents' => build_cmd_array_up p parents' temp_array (S i)
    end
  else Undefined.

(** The loop "Reverse" with the closing [array[i] = NULL]; [k] is
    [size - i]. *)
Fixpoint build_cmd_array_down (k size : nat)
    (temp_array array : list (option string)) : outcome (list (option string)) :=
  match k with
  | O =>
      if decide (size < length array)%nat then Ok (<[size:=None]> array)
      else Undefined
  | S k' =>
      let i := (size - k)%nat in
      match temp_array !! (size - 1 - i)%nat with
      | Some t =>
          if decide (i < length array)%nat
          then build_cmd_array_down k' size temp_array (<[i:=t]> array)
          else Undefined
      | None => Undefined
      end
  end.

(** [build_cmd_array]: the contents of [array] on return.  Both arrays
    have [subcmd_depth + 1] cells, which must be a positive number. *)
Definition build_cmd_array (subcmd_depth : Z) (cmd_name : string)
    (parents : list string) : outcome (list (option string)) :=
  if (0 <? subcmd_depth + 1)%Z then
    let cells := replicate (Z.to_nat (subcmd_depth + 1)) None in
    '(temp_array, size) ← build_cmd_array_up cmd_name parents cells 0;
    build_cmd_array_down size size temp_array cells
  else Undefined.

(** The name array that [print_usage] has [build_cmd_array] fill for the
    command at the end of [path], with [subcmd_depth] as its first call
    computes it. *)
Definition usage_cmd_array (main_cmd : optparse_cmd) (path : list nat)
  : outcome (list (option string)) :=
  match cmd_chain main_cmd path with
  | Some chain =>
      match rev (name <$> chain) with
      | cmd_name :: parents =>
          build_cmd_array (initialize_subcommand_parents main_cmd 1) cmd_name parents
      | [] => Undefined
      end
  | None => Undefined
  end.

(** ** [read_cmd_chain] and [check_cmd] *)

(** [read_cmd_chain]; the search for the subcommand named by the token is
    the loop modelled by [find_subcmd]. *)
Fixpoint read_cmd_chain (cmd : optparse_cmd) (argv : list (option string))
  : outcome optparse_cmd :=
  match argv with
  | Some tok :: argv' =>
      match subcommands cmd with
      | Some subs =>
          match find_subcmd tok subs with
          | Some subcmd => read_cmd_chain subcmd argv'
          | None => Fatal (UnknownCommand tok)
          end
      | None => Ok cmd
      end
  | None :: _ => Ok cmd
  | [] => Undefined
  end.

(** The command whose help [optparse_print_help_subcmd] prints. *)
Definition print_help_subcmd_target (main_cmd : optparse_cmd)
    (argv : list (option string)) : outcome optparse_cmd :=
  match argv with
  | _ :: (Some _ :: _) as argv' => read_cmd_chain main_cmd argv'
  | _ :: None :: _ => Ok main_cmd
  | _ => Undefined
  end.

(** The last character of a text, NUL for the empty text. *)
Fixpoint last_char (s : string) : ascii :=
  match s with
  | EmptyString => zero
  | String c EmptyString => c
  | String _ s' => last_char s'
  end.

(** The assertions of [check_cmd] on one option: [true] when all hold. *)
Definition check_opt (groups_max : Z) (opt : optparse_opt) : bool :=
  (negb (Ascii.eqb (short_name opt) zero) || bool_decide (is_Some (long_name opt)))
  && match arg_name opt with
     | Some a =>
         (Ascii.eqb (first_char a) "[" && Ascii.eqb (last_char a) "]")
         || negb (Ascii.eqb (first_char a) "[")
     | None => true
     end
  && match arg_storage_size opt with
     | Some _ =>
         bool_decide (is_Some (arg_delim opt)) && bool_decide (is_Some (arg_storage opt))
     | None => true
     end
  && match arg_delim opt with
     | Some _ =>
         match function_type opt with FUNCTION_TYPE_TARG => false | _ => true end
     | None =>
         match function_type opt with
         | FUNCTION_TYPE_TARG_ARRAY | FUNCTION_TYPE_OARG_ARRAY => false
         | _ => true
         end
     end
  && ((group opt =? 0)%Z || (group opt <? groups_max)%Z).

(** [check_cmd]: [true] when no assertion fails in the command or below
    it.  The name of a command is a text here, so the assertion that it is
    not NULL holds. *)
Fixpoint check_cmd (groups_max : Z) (cmd : optparse_cmd) : bool :=
  match options cmd with
  | Some opts => forallb (check_opt groups_max) opts
  | None => true
  end
  && match subcommands cmd with
     | Some subs => forallb (check_cmd groups_max) subs
     | None => true
     end.

(** ** The temporary array of [strtoarr] *)

(** The loop "Get temporary array size": [array_size] is raised once for
    every character of the text that is among the delimiters. *)
Fixpoint strtoarr_array_size (delim s : string) (array_size : nat) : nat :=
  match s with
  | EmptyString => array_size
  | String c s' =>
      strtoarr_array_size delim s'
        (if Libc.is_delim delim c then S array_size else array_size)
  end.

(** ** Notions used to state the properties of the help screen *)

(** [fits room w out]: the line that [out] continues has room for [room]
    more characters, and every later line of [out] has at most [w]
    characters. *)
Fixpoint fits (room w : nat) (out : text) : bool :=
  match out with
  | [] => true
  | c :: out' =>
      if Ascii.eqb c newline then fits w w out'
      else match room with
           | O => false
           | S room' => fits room' w out'
           end
  end.

(** No subcommand array of the command tree is empty. *)
Fixpoint nonempty_arrays (cmd : optparse_cmd) : bool :=
  match subcommands cmd with
  | Some [] => false
  | Some subs => forallb nonempty_arrays subs
  | None => true
  end.

(** The number of commands of a command tree. *)
Fixpoint cmd_size (cmd : optparse_cmd) : nat :=
  S (match subcommands cmd with
     | Some subs => fold_left (λ n subcmd, (n + cmd_size subcmd)%nat) subs 0%nat
     | None => 0%nat
     end).

(** [opt] is an option of a command of the tree under [main_cmd]. *)
Definition option_of (main_cmd : optparse_cmd) (opt : optparse_opt) : Prop :=
  ∃ path chain cmd opts,
    cmd_chain main_cmd path = Some chain ∧ cmd ∈ chain
    ∧ options cmd = Some opts ∧ opt ∈ opts.

(** The option with another function behind its function pointer. *)
Definition with_function (opt : optparse_opt) (f : cb_arg → mem → cb_prog)
  : optparse_opt :=
  {| short_name := short_name opt; long_name := long_name opt;
     arg_name := arg_name opt; arg_data_type := arg_data_type opt;
     arg_delim := arg_delim opt; flag := flag opt; flag_type := flag_type opt;
     arg_storage := arg_storage opt; arg_storage_size := arg_storage_size opt;
     function := Some f; function_type := function_type opt;
     group := group opt |}.

(** The vector at the head of the loop of [parse], cell by cell: the
    program name, the operands kept, the cells already read, the tokens
    still to be read from the scan index on, the terminating NULL and the
    cells behind it. *)
Definition walk_shape (prog : string) (ops : list string)
    (gap : list (option string)) (pending : list string)
    (junk : list (option string)) (st : pstate) : Prop :=
  args st = Some ((Some <$> prog :: ops) ++ gap ++ (Some <$> pending) ++ None :: junk)
  ∧ argc st = S (length ops)
  ∧ args_index st = (S (length ops) + length gap)%nat
  ∧ (junk = [] ∨ ∃ junk', junk = None :: junk').

(** A token that the loop of [parse] does not take for an option. *)
Definition plain (tok : string) : bool := negb (starts_with_dash tok).

(** The text made of [k] copies of a character. *)
Fixpoint copies (k : nat) (c : ascii) : string :=
  match k with
  | O => EmptyString
  | S k' => String c (copies k' c)
  end.

(** The options of an array that the help screen shows. *)
Definition shown (opts : list (optparse_opt * opt_help)) : list optparse_opt :=
  fst <$> List.filter (λ p, negb (hidden (snd p))) opts.

(** The characters that show: all but the space and the newline. *)
Definition visible (c : ascii) : bool :=
  negb (Ascii.eqb c space) && negb (Ascii.eqb c newline).

(** The room on the first line of [blockprint]. *)
Definition first_line_room (first_line_indent end' : Z) : nat :=
  if (end' <? first_line_indent)%Z then 0%nat
  else Z.to_nat (end' - first_line_indent).

(** The width that the loop of [blockprint] gives the line it is about to
    write. *)
Definition line_width (first_line_indent indent end' : Z)
    (first_line_printed : bool) : Z :=
  if first_line_printed then (end' - indent)%Z
  else if (end' <? first_line_indent)%Z then 0%Z
       else (end' - first_line_indent)%Z.

(** The body of the loop of [initialize_subcommand_parents]. *)
Definition deeper (depth : Z) (max_depth : Z) (subcmd : optparse_cmd) : Z :=
  let ret := initialize_subcommand_parents subcmd (depth + 1) in
  if (max_depth <? ret)%Z then ret else max_depth.

(** A run that ends within its fuel: by returning, by a fatal error or by
    leaving the behaviour that C defines. *)
Definition returns {A} (m : outcome A) : Prop := m ≠ OutOfFuel.

(** The longest description of the options that the help screen shows. *)
Definition longest_description (opts : list (optparse_opt * opt_help)) : nat :=
  foldr Nat.max 0%nat
    ((λ p, match description (snd p) with
           | Some d => String.length d
           | None => 0%nat
           end) <$> List.filter (λ p, negb (hidden (snd p))) opts).

(* ===================================================================== *)
(** * 12. Properties of the type converter *)
(* ===================================================================== *)

(** ** Characters *)

Lemma code_range c : 0 <= Libc.code c < 256.
Proof.
  unfold Libc.code. pose proof (nat_ascii_bounded c). lia.
Qed.

Lemma code_eq c (n : nat) : Libc.code c = Z.of_nat n → c = ascii_of_nat n.
Proof.
  unfold Libc.code. intros H. apply Nat2Z.inj in H.
  rewrite <- H. symmetry. apply ascii_nat_embedding.
Qed.

Lemma digit_val_code c d :
  Libc.digit_val c = Some d →
  (48 <= Libc.code c <= 57 ∧ d = Libc.code c - 48)
  ∨ (97 <= Libc.code c <= 122 ∧ d = Libc.code c - 87)
  ∨ (65 <= Libc.code c <= 90 ∧ d = Libc.code c - 55).
Proof.
  unfold Libc.digit_val.
  repeat case_match; intros; simplify_eq; lia.
Qed.

Lemma digit_in_Some base c d :
  Libc.digit_in base c = Some d → Libc.digit_val c = Some d ∧ 0 <= d < base.
Proof.
  unfold Libc.digit_in. destruct (Libc.digit_val c) as [d'|] eqn:E; [|done].
  case_match eqn:Hlt; [|done]. intros [= <-]. split; [done|].
  apply digit_val_code in E. lia.
Qed.

Lemma is_digit_of_spec base c :
  is_digit_of base c = true → ∃ d, Libc.digit_in base c = Some d.
Proof.
  unfold is_digit_of. intros [d Hd]%bool_decide_eq_true. eauto.
Qed.

Lemma digit_not_space base c d :
  Libc.digit_in base c = Some d → Libc.isspace c = false.
Proof.
  intros [H _]%digit_in_Some. apply digit_val_code in H.
  unfold Libc.isspace. lia.
Qed.

Lemma digit_not_sign base c d :
  Libc.digit_in base c = Some d →
  (Libc.code c =? 45) = false ∧ (Libc.code c =? 43) = false.
Proof.
  intros [H _]%digit_in_Some. apply digit_val_code in H. lia.
Qed.

(** ** Scanning the text of a numeral *)

Lemma skip_spaces_app ws t :
  all_chars Libc.isspace ws = true →
  Libc.skip_spaces t = t →
  Libc.skip_spaces (ws +:+ t) = t.
Proof.
  induction ws as [|c ws IH]; simpl; [done|].
  intros [Hc Hws]%andb_prop Ht. rewrite Hc. auto.
Qed.

Lemma skip_spaces_digit base c d r :
  Libc.digit_in base c = Some d → Libc.skip_spaces (String c r) = String c r.
Proof. intros H. simpl. by rewrite (digit_not_space _ _ _ H). Qed.

Lemma scan_sign_digit base c d r :
  Libc.digit_in base c = Some d → Libc.scan_sign (String c r) = (false, String c r).
Proof.
  intros H. destruct (digit_not_sign _ _ _ H) as [H1 H2].
  simpl. by rewrite H1, H2.
Qed.

Lemma scan_digits_all base acc ds :
  all_chars (is_digit_of base) ds = true →
  Libc.scan_digits base acc ds = (digits_value base acc ds, EmptyString).
Proof.
  revert acc. induction ds as [|c ds IH]; simpl; intros acc; [done|].
  intros [Hc Hds]%andb_prop.
  apply is_digit_of_spec in Hc as [d Hd]. rewrite Hd.
  apply digit_in_Some in Hd as [-> _]. simpl. auto.
Qed.

Lemma scan_digits_complete base acc s m :
  Libc.scan_digits base acc s = (m, EmptyString) →
  all_chars (is_digit_of base) s = true ∧ m = digits_value base acc s.
Proof.
  revert acc. induction s as [|c s IH]; simpl; intros acc.
  - by intros [= <-].
  - destruct (Libc.digit_in base c) as [d|] eqn:Hd; [|done].
    intros [H1 H2]%IH. split.
    + unfold is_digit_of at 1. rewrite Hd. rewrite bool_decide_eq_true_2 by eauto. done.
    + apply digit_in_Some in Hd as [-> _]. done.
Qed.

Lemma digit_in_mono b1 b2 c d :
  b1 <= b2 → Libc.digit_in b1 c = Some d → Libc.digit_in b2 c = Some d.
Proof.
  intros Hb H. pose proof (digit_in_Some _ _ _ H) as [Hv Hr].
  unfold Libc.digit_in. rewrite Hv.
  destruct (d <? b2) eqn:E; [done|lia].
Qed.

Lemma is_x_not_digit base c d :
  base <= 16 → Libc.digit_in base c = Some d → Libc.is_x c = false.
Proof.
  intros Hb [H Hr]%digit_in_Some. apply digit_val_code in H.
  unfold Libc.is_x. lia.
Qed.

Lemma code_zero_char c : (Libc.code c =? 48) = Ascii.eqb c "0".
Proof.
  destruct (Ascii.eqb_spec c "0") as [->|Hne]; [done|].
  apply Z.eqb_neq. intros H. apply (code_eq c 48) in H. done.
Qed.

Lemma scan_magnitude_body rx ds :
  digits_wf rx ds = true →
  Libc.scan_magnitude (radix_prefix rx +:+ ds)
  = Some (digits_value (radix_base rx) 0 ds, EmptyString).
Proof.
  unfold digits_wf. intros [Hall Hrx]%andb_prop.
  unfold Libc.scan_magnitude.
  destruct rx as [| |up]; cbn [radix_prefix radix_base String.append] in *.
  - (* decimal *)
    destruct ds as [|c ds]; [done|]. simpl in Hall.
    apply andb_prop in Hall as [Hc Hds].
    apply is_digit_of_spec in Hc as [d Hd].
    change (EmptyString +:+ String c ds) with (String c ds).
    assert (Libc.scan_base (String c ds) = (10, String c ds)) as ->.
    { unfold Libc.scan_base. rewrite code_zero_char.
      apply negb_true_iff in Hrx. rewrite Hrx. simpl.
      destruct ds as [|? [|? ?]]; done. }
    rewrite Hd. f_equal. simpl. rewrite Hd.
    rewrite scan_digits_all by done.
    apply digit_in_Some in Hd as [-> _]. done.
  - (* octal *)
    change ("0" +:+ ds) with (String "0" ds).
    assert (Libc.scan_base (String "0" ds) = (8, String "0" ds)) as ->.
    { unfold Libc.scan_base. destruct ds as [|x [|h r]]; [done..|].
      simpl in Hall. apply andb_prop in Hall as [Hx _].
      apply is_digit_of_spec in Hx as [d Hd].
      rewrite (is_x_not_digit 8 x d) by (done || lia). done. }
    change (Libc.digit_in 8 "0") with (Some 0). f_equal. simpl.
    change (Libc.digit_in 8 "0") with (Some 0).
    rewrite scan_digits_all by done. done.
  - (* hexadecimal *)
    destruct ds as [|h r]; [done|]. simpl in Hall.
    apply andb_prop in Hall as [Hh Hr].
    pose proof Hh as [d Hd]%is_digit_of_spec.
    assert (Libc.scan_base ((if up then "0X" else "0x") +:+ String h r)
            = (16, String h r)) as Hb.
    { unfold is_digit_of in Hh. destruct up; simpl; rewrite Hh; done. }
    destruct up; simpl in Hb |- *; rewrite Hb; rewrite Hd; f_equal; simpl;
      rewrite Hd; rewrite scan_digits_all by done;
      apply digit_in_Some in Hd as [-> _]; done.
Qed.

Lemma body_first_char rx ds :
  digits_wf rx ds = true →
  ∃ c r d, radix_prefix rx +:+ ds = String c r ∧ Libc.digit_in 16 c = Some d.
Proof.
  unfold digits_wf. intros [Hall Hrx]%andb_prop.
  destruct rx as [| |[|]]; cbn [radix_prefix radix_base] in *.
  - destruct ds as [|c ds]; [done|]. simpl in Hall.
    apply andb_prop in Hall as [[d Hd]%is_digit_of_spec _].
    exists c, ds, d. split; [done|]. eapply digit_in_mono; [|done]. lia.
  - exists "0"%char, ds, 0. done.
  - by exists "0"%char, ("X" +:+ ds), 0.
  - by exists "0"%char, ("x" +:+ ds), 0.
Qed.

Lemma scan_integer_render n :
  numeral_wf n = true →
  Libc.scan_integer (render n) = Some (is_negative n, magnitude n, EmptyString).
Proof.
  destruct n as [ws sg rx ds]. unfold numeral_wf, render, is_negative, magnitude.
  cbn [n_space n_sign n_radix n_digits].
  intros [Hws Hds]%andb_prop.
  destruct (body_first_char _ _ Hds) as (c & r & d & Hbody & Hc).
  pose proof (scan_magnitude_body _ _ Hds) as Hmag.
  unfold Libc.scan_integer.
  assert (Libc.skip_spaces (ws +:+ sign_text sg +:+ radix_prefix rx +:+ ds)
          = sign_text sg +:+ radix_prefix rx +:+ ds) as ->.
  { apply skip_spaces_app; [done|].
    destruct sg as [[|]|]; [done..|].
    change (EmptyString +:+ ?x) with x. rewrite Hbody.
    by eapply skip_spaces_digit. }
  destruct sg as [[|]|].
  - change (Libc.scan_sign _) with (true, radix_prefix rx +:+ ds).
    cbv beta iota. by rewrite Hmag.
  - change (Libc.scan_sign _) with (false, radix_prefix rx +:+ ds).
    cbv beta iota. by rewrite Hmag.
  - change (sign_text None +:+ ?x) with x.
    rewrite Hbody, (scan_sign_digit _ _ _ _ Hc), <- Hbody.
    cbv beta iota. by rewrite Hmag.
Qed.

Lemma skip_spaces_split s :
  ∃ ws, s = ws +:+ Libc.skip_spaces s ∧ all_chars Libc.isspace ws = true.
Proof.
  induction s as [|c s (ws & IH1 & IH2)]; simpl.
  - by exists EmptyString.
  - destruct (Libc.isspace c) eqn:E.
    + exists (String c ws). split.
      * change (String c s = String c (ws +:+ Libc.skip_spaces s)).
        by rewrite <- IH1.
      * simpl. by rewrite E, IH2.
    + by exists EmptyString.
Qed.

Lemma scan_sign_split s1 neg s2 :
  Libc.scan_sign s1 = (neg, s2) →
  ∃ sg, s1 = sign_text sg +:+ s2 ∧ neg = match sg with Some true => true | _ => false end.
Proof.
  unfold Libc.scan_sign. destruct s1 as [|c r].
  - intros [= <- <-]. by exists None.
  - destruct (Libc.code c =? 45) eqn:E1; [|destruct (Libc.code c =? 43) eqn:E2].
    + intros [= <- <-]. exists (Some true).
      apply Z.eqb_eq in E1. by rewrite (code_eq c 45 E1).
    + intros [= <- <-]. exists (Some false).
      apply Z.eqb_eq in E2. by rewrite (code_eq c 43 E2).
    + intros [= <- <-]. by exists None.
Qed.

Lemma is_x_char x : Libc.is_x x = true → x = "x"%char ∨ x = "X"%char.
Proof.
  unfold Libc.is_x. intros [H|H]%orb_prop; apply Z.eqb_eq in H.
  - left. by apply (code_eq x 120).
  - right. by apply (code_eq x 88).
Qed.

Lemma scan_magnitude_complete s2 m :
  Libc.scan_magnitude s2 = Some (m, EmptyString) →
  ∃ rx ds, s2 = radix_prefix rx +:+ ds ∧ digits_wf rx ds = true
           ∧ m = digits_value (radix_base rx) 0 ds.
Proof.
  unfold Libc.scan_magnitude.
  destruct (Libc.scan_base s2) as [base s3] eqn:Hb.
  destruct s3 as [|c s3]; [done|].
  destruct (Libc.digit_in base c) as [d|] eqn:Hd; [|done].
  intros Hscan.
  assert (Libc.scan_digits base 0 (String c s3) = (m, EmptyString)) as Hscan'
    by congruence.
  clear Hscan. apply scan_digits_complete in Hscan' as [Hall ->].
  assert (Hcases :
    (∃ x, base = 16 ∧ s2 = String "0" (String x (String c s3)) ∧ Libc.is_x x = true)
    ∨ (base = 8 ∧ s2 = String c s3 ∧ c = "0"%char)
    ∨ (base = 10 ∧ s2 = String c s3 ∧ Ascii.eqb c "0" = false)).
  { unfold Libc.scan_base in Hb.
    destruct s2 as [|z [|x [|h r]]]; rewrite ?code_zero_char in Hb; simplify_eq.
    - destruct (Ascii.eqb z "0") eqn:Ez; simplify_eq;
        [right; left; split_and!; try done; by apply Ascii.eqb_eq
        |right; right; done].
    - destruct (Ascii.eqb z "0") eqn:Ez; simplify_eq;
        [right; left; split_and!; try done; by apply Ascii.eqb_eq
        |right; right; done].
    - destruct (Ascii.eqb z "0") eqn:Ez; simpl in Hb.
      + apply Ascii.eqb_eq in Ez as ->.
        destruct (Libc.is_x x) eqn:Hx; simpl in Hb;
          [destruct (bool_decide (is_Some (Libc.digit_in 16 h)))|];
          simplify_eq; eauto 10.
      + simplify_eq. right; right. done. }
  destruct Hcases as [(x & -> & -> & Hx)|[(-> & -> & ->)|(-> & -> & Hz)]].
  - apply is_x_char in Hx as [->| ->].
    + exists (Hexadecimal false), (String c s3). split_and!; [done| |done].
      unfold digits_wf; cbn [radix_base]. by rewrite Hall.
    + exists (Hexadecimal true), (String c s3). split_and!; [done| |done].
      unfold digits_wf; cbn [radix_base]. by rewrite Hall.
  - exists Octal, s3. split_and!; [done| |done].
    unfold digits_wf; cbn [radix_base].
    simpl in Hall. by rewrite Hall.
  - exists Decimal, (String c s3). split_and!; [done| |done].
    unfold digits_wf; cbn [radix_base]. rewrite Hall. simpl. by rewrite Hz.
Qed.

Lemma scan_integer_complete s neg m :
  Libc.scan_integer s = Some (neg, m, EmptyString) →
  ∃ n, numeral_wf n = true ∧ render n = s ∧ is_negative n = neg ∧ magnitude n = m.
Proof.
  unfold Libc.scan_integer.
  destruct (Libc.scan_sign (Libc.skip_spaces s)) as [neg' s2] eqn:Hsign.
  destruct (Libc.scan_magnitude s2) as [[m' rest]|] eqn:Hmag; [|done].
  intros [= -> -> ->].
  apply scan_magnitude_complete in Hmag as (rx & ds & -> & Hwf & ->).
  apply scan_sign_split in Hsign as (sg & Hs1 & ->).
  destruct (skip_spaces_split s) as (ws & Hs & Hws).
  exists {| n_space := ws; n_sign := sg; n_radix := rx; n_digits := ds |}.
  unfold numeral_wf, render, is_negative, magnitude; simpl.
  rewrite Hws, Hwf. split_and!; [done| |done..].
  rewrite <- Hs1. done.
Qed.

(** ** Integer conversions *)

Lemma digits_value_nonneg base acc s :
  0 <= base → 0 <= acc → 0 <= digits_value base acc s.
Proof.
  intros Hb. revert acc. induction s as [|c s IH]; simpl; intros acc Hacc; [done|].
  apply IH. destruct (Libc.digit_val c) as [d|] eqn:E; simpl; [|nia].
  apply digit_val_code in E. nia.
Qed.

Lemma scan_digits_nonneg base acc s :
  0 <= base → 0 <= acc → 0 <= (Libc.scan_digits base acc s).1.
Proof.
  intros Hb. revert acc. induction s as [|c s IH]; simpl; intros acc Hacc; [done|].
  destruct (Libc.digit_in base c) as [d|] eqn:E; [|done].
  apply IH. apply digit_in_Some in E. nia.
Qed.

Lemma scan_integer_nonneg s neg m rest :
  Libc.scan_integer s = Some (neg, m, rest) → 0 <= m.
Proof.
  unfold Libc.scan_integer, Libc.scan_magnitude.
  destruct (Libc.scan_sign _) as [neg' s2].
  destruct (Libc.scan_base s2) as [base s3] eqn:Hb.
  assert (0 <= base).
  { unfold Libc.scan_base in Hb. repeat case_match; simplify_eq; lia. }
  destruct s3 as [|c s3]; [done|].
  destruct (Libc.digit_in base c); [|done].
  destruct (Libc.scan_digits base 0 (String c s3)) as [m' rest'] eqn:Hs.
  intros [= -> -> ->].
  pose proof (scan_digits_nonneg base 0 (String c s3)) as Hn.
  rewrite Hs in Hn. apply Hn; lia.
Qed.

Lemma strto_signed_range s :
  - 2 ^ 63 <= Libc.st_val (Libc.strto_signed 64 s) <= 2 ^ 63 - 1.
Proof.
  unfold Libc.strto_signed.
  destruct (Libc.scan_integer s) as [[[neg m] rest]|]; [|simpl; lia].
  change (64 - 1) with 63.
  repeat case_match; simpl; lia.
Qed.

Lemma strto_unsigned_range s :
  0 <= Libc.st_val (Libc.strto_unsigned 64 s) <= 2 ^ 64 - 1.
Proof.
  unfold Libc.strto_unsigned.
  destruct (Libc.scan_integer s) as [[[neg m] rest]|] eqn:E; [|simpl; lia].
  apply scan_integer_nonneg in E.
  repeat case_match; simpl; try lia.
  pose proof (Z.mod_pos_bound (2 ^ 64 - m) (2 ^ 64)). lia.
Qed.

Lemma cast_signed_id bits v :
  0 < bits → - 2 ^ (bits - 1) <= v <= 2 ^ (bits - 1) - 1 →
  Libc.cast_signed bits v = v.
Proof.
  intros Hb Hv. unfold Libc.cast_signed.
  assert (2 ^ bits = 2 * 2 ^ (bits - 1)) as ->.
  { rewrite <- Z.pow_succ_r by lia. f_equal. lia. }
  pose proof (Z.pow_pos_nonneg 2 (bits - 1)) as Hp.
  set (P := 2 ^ (bits - 1)) in *.
  destruct (decide (0 <= v)).
  - rewrite Z.mod_small by lia. case_match; lia.
  - assert (v mod (2 * P) = v + 2 * P) as ->.
    { symmetry. apply (Z.mod_unique_pos _ _ (-1)); lia. }
    case_match; lia.
Qed.

Lemma cast_unsigned_id bits v :
  0 <= v <= 2 ^ bits - 1 → Libc.cast_unsigned bits v = v.
Proof. intros Hv. unfold Libc.cast_unsigned. apply Z.mod_small. lia. Qed.

Lemma range_check_signed (e : bool) v lo hi :
  lo <= v <= hi → e || (v <? lo) || (hi <? v) = e.
Proof.
  intros Hv. rewrite (proj2 (Z.ltb_ge v lo)), (proj2 (Z.ltb_ge hi v)) by lia.
  by rewrite !orb_false_r.
Qed.

Lemma range_check_unsigned (e : bool) v hi :
  v <= hi → e || (hi <? v) = e.
Proof.
  intros Hv. rewrite (proj2 (Z.ltb_ge hi v)) by lia. by rewrite orb_false_r.
Qed.

Lemma strtox_int_kind data_type sg bits s :
  int_kind data_type = Some (sg, bits) →
  strtox (Some s) data_type = int_conv sg bits s.
Proof.
  intros Hk. unfold strtox, int_conv.
  destruct data_type; simpl in Hk; simplify_eq; try reflexivity; unfold strtox_body;
    unfold Libc.strtol, Libc.strtoul, Libc.strtoll, Libc.strtoull.
  - (* long *)
    pose proof (strto_signed_range s) as Hr. unfold conv_signed.
    rewrite cast_signed_id by (change (64 - 1) with 63; lia).
    change (64 - 1) with 63. by rewrite range_check_signed by lia.
  - pose proof (strto_unsigned_range s) as Hr. unfold conv_unsigned.
    rewrite cast_unsigned_id by lia. by rewrite range_check_unsigned by lia.
  - pose proof (strto_signed_range s) as Hr. unfold conv_signed.
    rewrite cast_signed_id by (change (64 - 1) with 63; lia).
    change (64 - 1) with 63. by rewrite range_check_signed by lia.
  - pose proof (strto_unsigned_range s) as Hr. unfold conv_unsigned.
    rewrite cast_unsigned_id by lia. by rewrite range_check_unsigned by lia.
Qed.

Lemma int_kind_bits data_type sg bits :
  int_kind data_type = Some (sg, bits) → 0 < bits <= 64.
Proof. destruct data_type; simpl; intros; simplify_eq; lia. Qed.

Lemma render_nonempty n : numeral_wf n = true → render n ≠ EmptyString.
Proof.
  intros Hwf Hr. pose proof (scan_integer_render n Hwf) as Hs.
  rewrite Hr in Hs. done.
Qed.

Lemma strtox_return_end s x e :
  s ≠ EmptyString →
  strtox_return s x (Some EmptyString) e
  = {| ret := if e then -1 else 0; stored := x; erange := e |}.
Proof.
  intros Hs. unfold strtox_return.
  destruct s; [done|]. done.
Qed.

Lemma strto_signed_render n :
  numeral_wf n = true →
  Libc.strto_signed 64 (render n)
  = if numeral_value n <? - 2 ^ 63
    then {| Libc.st_val := - 2 ^ 63; Libc.st_end := EmptyString; Libc.st_erange := true |}
    else if 2 ^ 63 - 1 <? numeral_value n
    then {| Libc.st_val := 2 ^ 63 - 1; Libc.st_end := EmptyString; Libc.st_erange := true |}
    else {| Libc.st_val := numeral_value n; Libc.st_end := EmptyString;
            Libc.st_erange := false |}.
Proof.
  intros Hwf. unfold Libc.strto_signed. by rewrite scan_integer_render.
Qed.

Lemma strto_unsigned_render n :
  numeral_wf n = true →
  Libc.strto_unsigned 64 (render n)
  = if 2 ^ 64 - 1 <? magnitude n
    then {| Libc.st_val := 2 ^ 64 - 1; Libc.st_end := EmptyString; Libc.st_erange := true |}
    else {| Libc.st_val := if is_negative n then (2 ^ 64 - magnitude n) mod 2 ^ 64
                           else magnitude n;
            Libc.st_end := EmptyString; Libc.st_erange := false |}.
Proof.
  intros Hwf. unfold Libc.strto_unsigned. by rewrite scan_integer_render.
Qed.

Lemma magnitude_nonneg n : 0 <= magnitude n.
Proof.
  unfold magnitude. apply digits_value_nonneg; [|lia].
  destruct (n_radix n); simpl; lia.
Qed.

Lemma pow_bits_bound bits :
  0 < bits <= 64 →
  0 < 2 ^ (bits - 1) <= 2 ^ 63 ∧ 2 ^ bits = 2 * 2 ^ (bits - 1) ∧ 2 ^ 64 = 2 * 2 ^ 63.
Proof.
  intros Hb. split_and!.
  - apply Z.pow_pos_nonneg; lia.
  - apply Z.pow_le_mono_r; lia.
  - rewrite <- Z.pow_succ_r by lia. f_equal. lia.
  - done.
Qed.

Lemma int_conv_in_range sg bits n :
  0 < bits <= 64 → numeral_wf n = true → kind_range sg bits (numeral_value n) →
  int_conv sg bits (render n)
  = {| ret := 0; stored := Some (VInt (numeral_value n)); erange := false |}.
Proof.
  intros Hb Hwf Hr. unfold int_conv.
  destruct (pow_bits_bound bits Hb) as ([HP1 HP2] & HP3 & HP4).
  pose proof (magnitude_nonneg n) as Hm.
  destruct sg; simpl in Hr.
  - unfold conv_signed. rewrite strto_signed_render by done.
    rewrite (proj2 (Z.ltb_ge _ _)) by lia.
    rewrite (proj2 (Z.ltb_ge _ _)) by lia.
    cbn [Libc.st_val Libc.st_end Libc.st_erange].
    rewrite cast_signed_id by lia.
    rewrite range_check_signed by lia.
    by rewrite strtox_return_end by by apply render_nonempty.
  - unfold conv_unsigned. rewrite strto_unsigned_render by done.
    assert (numeral_value n = magnitude n ∧
            (if is_negative n then (2 ^ 64 - magnitude n) mod 2 ^ 64 else magnitude n)
            = magnitude n) as [Hv ->].
    { unfold numeral_value in *. destruct (is_negative n); [|done].
      assert (magnitude n = 0) as -> by lia. done. }
    rewrite Hv in *.
    rewrite (proj2 (Z.ltb_ge _ _)) by lia.
    cbn [Libc.st_val Libc.st_end Libc.st_erange].
    rewrite cast_unsigned_id by lia.
    rewrite range_check_unsigned by lia.
    by rewrite strtox_return_end by by apply render_nonempty.
Qed.

Lemma int_conv_out_of_range sg bits n :
  0 < bits <= 64 → numeral_wf n = true → ¬ kind_range sg bits (numeral_value n) →
  sg = true ∨ is_negative n = false →
  ret (int_conv sg bits (render n)) = -1.
Proof.
  intros Hb Hwf Hr Hsg. unfold int_conv.
  destruct (pow_bits_bound bits Hb) as ([HP1 HP2] & HP3 & HP4).
  pose proof (magnitude_nonneg n) as Hm.
  destruct sg; simpl in Hr.
  - unfold conv_signed. rewrite strto_signed_render by done.
    assert (∀ r, Libc.st_end r = EmptyString →
              Libc.st_erange r || (Libc.st_val r <? - 2 ^ (bits - 1))
              || (2 ^ (bits - 1) - 1 <? Libc.st_val r) = true →
              ret (strtox_return (render n)
                     (Some (VInt (Libc.cast_signed bits (Libc.st_val r))))
                     (Some (Libc.st_end r))
                     (Libc.st_erange r || (Libc.st_val r <? - 2 ^ (bits - 1))
                      || (2 ^ (bits - 1) - 1 <? Libc.st_val r))) = -1) as Hgen.
    { intros r -> ->. by rewrite strtox_return_end by by apply render_nonempty. }
    apply Hgen; repeat case_match; simpl; try done.
    apply orb_true_iff.
    destruct (Z.ltb_spec (numeral_value n) (- 2 ^ (bits - 1))); [by left|right].
    apply Z.ltb_lt. lia.
  - destruct Hsg as [?|Hneg]; [done|].
    unfold conv_unsigned. rewrite strto_unsigned_render by done.
    unfold numeral_value in Hr. rewrite Hneg in Hr |- *.
    destruct (Z.ltb_spec (2 ^ 64 - 1) (magnitude n));
      cbn [Libc.st_val Libc.st_end Libc.st_erange].
    + by rewrite strtox_return_end by by apply render_nonempty.
    + rewrite (proj2 (Z.ltb_lt _ _)) by lia.
      by rewrite strtox_return_end by by apply render_nonempty.
Qed.

Lemma int_conv_not_numeral sg bits s :
  (∀ n, numeral_wf n = true → render n ≠ s) →
  ret (int_conv sg bits s) = 1.
Proof.
  intros Hnot.
  assert (∀ x e, ret (strtox_return s x (Some s) e) = 1) as Hsame.
  { intros. unfold strtox_return. by rewrite String.eqb_refl. }
  assert (∀ x e rest, rest ≠ EmptyString →
            ret (strtox_return s x (Some rest) e) = 1) as Hrest.
  { intros x e rest Hne. unfold strtox_return.
    destruct (String.eqb_spec rest EmptyString) as [?|_]; [done|].
    by rewrite orb_true_r. }
  assert (∀ neg m rest, Libc.scan_integer s = Some (neg, m, rest) →
            rest ≠ EmptyString) as Hscan.
  { intros neg m rest Hs ->.
    apply scan_integer_complete in Hs as (n & Hwf & Hr & _). by eapply Hnot. }
  unfold int_conv, conv_signed, conv_unsigned, Libc.strto_signed, Libc.strto_unsigned.
  destruct (Libc.scan_integer s) as [[[neg m] rest]|] eqn:E.
  - specialize (Hscan _ _ _ eq_refl).
    destruct sg; repeat case_match; simplify_eq; cbn [Libc.st_end]; by apply Hrest.
  - destruct sg; cbn [Libc.st_end]; apply Hsame.
Qed.

Lemma in_range_kind data_type sg bits v :
  int_kind data_type = Some (sg, bits) →
  in_range data_type v ↔ kind_range sg bits v.
Proof.
  intros Hk. unfold in_range, type_min, type_max, kind_range. rewrite Hk.
  by destruct sg.
Qed.

(** C4 (as amended).  For every integer type tag: a well-formed numeral
    whose value lies in the range of the target type converts with return
    value 0 and exactly that value stored (round trip); a well-formed numeral
    whose value lies outside the range is reported as out of range (-1),
    for the signed tags and, for the unsigned tags, for numerals without a
    minus sign; a token that is not the text of any numeral is reported as
    not convertible (1). *)
Theorem strtox_integer_conversion (data_type : optparse_data_type) :
  is_integer_type data_type = true →
  (∀ n, numeral_wf n = true → in_range data_type (numeral_value n) →
        strtox (Some (render n)) data_type
        = {| ret := 0; stored := Some (VInt (numeral_value n)); erange := false |})
  ∧ (∀ n, numeral_wf n = true → ¬ in_range data_type (numeral_value n) →
          is_signed_type data_type = true ∨ is_negative n = false →
          ret (strtox (Some (render n)) data_type) = -1)
  ∧ (∀ s, (∀ n, numeral_wf n = true → render n ≠ s) →
          ret (strtox (Some s) data_type) = 1).
Proof.
  unfold is_integer_type. intros [[sg bits] Hk]%bool_decide_eq_true.
  pose proof (int_kind_bits _ _ _ Hk) as Hb.
  split_and!.
  - intros n Hwf Hr. rewrite (strtox_int_kind _ _ _ _ Hk).
    apply int_conv_in_range; [done..|]. by apply (in_range_kind _ _ _ _ Hk).
  - intros n Hwf Hr Hsg. rewrite (strtox_int_kind _ _ _ _ Hk).
    apply int_conv_out_of_range; [done..| |].
    + by rewrite <- (in_range_kind _ _ _ _ Hk).
    + destruct Hsg as [Hs|Hs]; [left|by right].
      unfold is_signed_type in Hs. rewrite Hk in Hs. by destruct sg.
  - intros s Hs. rewrite (strtox_int_kind _ _ _ _ Hk).
    by apply int_conv_not_numeral.
Qed.

Lemma strtox_integer_conversion_witness :
  is_integer_type DATA_TYPE_INT = true
  ∧ strtox (Some "-0x1F") DATA_TYPE_INT
    = {| ret := 0; stored := Some (VInt (-31)); erange := false |}
  ∧ ret (strtox (Some "2147483648") DATA_TYPE_INT) = -1.
Proof.
  pose proof (strtox_integer_conversion DATA_TYPE_INT eq_refl) as (Ha & Hb & _).
  split_and!.
  - reflexivity.
  - apply (Ha {| n_space := EmptyString; n_sign := Some true;
                 n_radix := Hexadecimal false; n_digits := "1F" |}).
    + reflexivity.
    + unfold in_range. vm_compute. split; discriminate.
  - apply (Hb {| n_space := EmptyString; n_sign := None;
                 n_radix := Decimal; n_digits := "2147483648" |}).
    + reflexivity.
    + unfold in_range. vm_compute. intros [_ H]. by apply H.
    + by left.
Defined.

(** C4, the claim as stated fails: the token "-1" denotes an integer
    outside the range of [unsigned long], and yet the conversion succeeds
    (and stores 2^64 - 1) instead of reporting the value as out of range. *)
Lemma strtox_unsigned_accepts_minus :
  ¬ (∀ data_type n,
       is_integer_type data_type = true → numeral_wf n = true →
       ¬ in_range data_type (numeral_value n) →
       ret (strtox (Some (render n)) data_type) = -1).
Proof.
  intros H.
  specialize (H DATA_TYPE_ULONG
                {| n_space := EmptyString; n_sign := Some true;
                   n_radix := Decimal; n_digits := "1" |} eq_refl eq_refl).
  assert (ret (strtox (Some "-1") DATA_TYPE_ULONG) = 0) as H0 by reflexivity.
  change (render _) with "-1" in H. rewrite H0 in H.
  assert (0 = -1) as Habs; [|done].
  apply H. unfold in_range. vm_compute. intros [H1 _]. by apply H1.
Qed.

(** What the minus sign does for an unsigned tag: the magnitude is negated
    modulo 2^64 before the range check. *)
Lemma strtox_unsigned_minus_one :
  strtox (Some "-1") DATA_TYPE_ULONG
  = {| ret := 0; stored := Some (VInt 18446744073709551615); erange := false |}
  ∧ strtox (Some "-18446744073709551615") DATA_TYPE_UINT8
    = {| ret := 0; stored := Some (VInt 1); erange := false |}.
Proof. split; reflexivity. Qed.

(** ** Boolean conversion *)

Lemma strtox_bool_spelling s b :
  (Libc.map_string Libc.tolower s, b) ∈ bool_spellings →
  strtox (Some s) DATA_TYPE_BOOL
  = {| ret := 0; stored := Some (VBool b); erange := false |}.
Proof.
  unfold bool_spellings. intros Hin.
  unfold strtox, strtox_body.
  repeat (apply elem_of_cons in Hin as [Hin|Hin];
          [injection Hin as -> ->; reflexivity|]).
  by apply elem_of_nil in Hin.
Qed.

(** The fall-back of the boolean case takes the return value of the
    nested integer conversion for the integer: a token that converts
    (return value 0) gives false whatever its value, a token that is not
    convertible (return value 1) gives true. *)
Lemma strtox_bool_other s :
  (∀ b, (Libc.map_string Libc.tolower s, b) ∉ bool_spellings) →
  let r := strtox (Some s) DATA_TYPE_INT in
  strtox (Some s) DATA_TYPE_BOOL
  = if (ret r =? 1) || (ret r =? 0)
    then strtox_return s (Some (VBool (negb (ret r =? 0)))) None (erange r)
    else strtox_return s (stored r) (Some s) (erange r).
Proof.
  intros Hno. cbv zeta.
  assert (∀ kw b, (kw, b) ∈ bool_spellings →
            String.eqb (Libc.map_string Libc.tolower s) kw = false) as Hkw.
  { intros kw b Hin. destruct (String.eqb_spec (Libc.map_string Libc.tolower s) kw)
      as [Heq|]; [|done]. subst kw. by apply Hno in Hin. }
  unfold strtox at 1. unfold strtox_body at 1.
  rewrite (Hkw "true" true), (Hkw "false" false), (Hkw "enabled" true),
    (Hkw "disabled" false), (Hkw "yes" true), (Hkw "no" false),
    (Hkw "on" true), (Hkw "off" false)
    by (unfold bool_spellings; set_solver).
  unfold strtox. by destruct (_ || _).
Qed.

(** C1.  The eight spellings convert as claimed, but the fall-back does
    not follow the claim: "1" and every other token that parses as an
    integer give false, and "maybe" converts successfully to true. *)
Theorem strtox_bool_fallback :
  strtox (Some "1") DATA_TYPE_BOOL
  = {| ret := 0; stored := Some (VBool false); erange := false |}
  ∧ strtox (Some "0") DATA_TYPE_BOOL
    = {| ret := 0; stored := Some (VBool false); erange := false |}
  ∧ strtox (Some "42") DATA_TYPE_BOOL
    = {| ret := 0; stored := Some (VBool false); erange := false |}
  ∧ strtox (Some "maybe") DATA_TYPE_BOOL
    = {| ret := 0; stored := Some (VBool true); erange := false |}
  ∧ strtox (Some "TRUE") DATA_TYPE_BOOL
    = {| ret := 0; stored := Some (VBool true); erange := false |}.
Proof. split_and!; reflexivity. Qed.

(** ** The empty token *)

(** C5 (as amended).  The empty token is not convertible for every integer
    type tag; for the string tag and the three character tags the
    conversion of the empty token succeeds. *)
Theorem strtox_empty_token (data_type : optparse_data_type) :
  (is_integer_type data_type = true →
   ret (strtox (Some EmptyString) data_type) = 1)
  ∧ (data_type ∈ [DATA_TYPE_STR; DATA_TYPE_CHAR; DATA_TYPE_SCHAR; DATA_TYPE_UCHAR] →
     ret (strtox (Some EmptyString) data_type) = 0).
Proof.
  split.
  - destruct data_type; first [done | reflexivity].
  - intros Hin. repeat (apply elem_of_cons in Hin as [->|Hin]; [reflexivity|]).
    by apply elem_of_nil in Hin.
Qed.

Lemma strtox_empty_token_witness :
  ret (strtox (Some EmptyString) DATA_TYPE_UINT16) = 1
  ∧ ret (strtox (Some EmptyString) DATA_TYPE_CHAR) = 0.
Proof.
  split.
  - apply (proj1 (strtox_empty_token DATA_TYPE_UINT16)). reflexivity.
  - apply (proj2 (strtox_empty_token DATA_TYPE_CHAR)).
    apply list_elem_of_further, list_elem_of_here.
Defined.

(** C5, the claim as stated fails: with the string tag the empty token is
    passed through and the conversion returns 0. *)
Lemma strtox_empty_string_succeeds :
  ¬ (∀ data_type, ret (strtox (Some EmptyString) data_type) ≠ 0).
Proof. intros H. by apply (H DATA_TYPE_STR). Qed.

(* ===================================================================== *)
(** * 13. Properties of the list splitter *)
(* ===================================================================== *)

(** ** Tokens of [strtok] and items of the specification *)

Lemma strtox_ret_cases str data_type :
  ret (strtox str data_type) = 0 ∨ ret (strtox str data_type) = 1
  ∨ ret (strtox str data_type) = -1.
Proof.
  destruct str as [s|]; [|auto].
  unfold strtox, strtox_body.
  destruct data_type; unfold strtox_return; simpl;
    repeat case_match; simplify_eq; simpl; auto.
Qed.

Lemma items_cons_delim delim c s :
  Libc.is_delim delim c = true → items delim (String c s) = items delim s.
Proof. intros H. unfold items. simpl. by rewrite H. Qed.

Lemma items_skip_delims delim s :
  items delim (Libc.skip_delims delim s) = items delim s.
Proof.
  induction s as [|c s IH]; simpl; [done|].
  destruct (Libc.is_delim delim c) eqn:E; [|done].
  by rewrite items_cons_delim.
Qed.

Lemma fields_nonnil delim s : fields delim s ≠ [].
Proof.
  induction s as [|c s IH]; simpl; [done|].
  destruct (Libc.is_delim delim c); [done|].
  by destruct (fields delim s).
Qed.

Lemma take_token_cons delim c s :
  Libc.take_token delim (String c s)
  = if Libc.is_delim delim c then (EmptyString, s)
    else let '(t, r) := Libc.take_token delim s in (String c t, r).
Proof. done. Qed.

Lemma items_cons_other delim c s :
  Libc.is_delim delim c = false →
  items delim (String c s)
  = match fields delim s with
    | f :: fs => String c f :: List.filter nonempty fs
    | [] => [String c EmptyString]
    end.
Proof.
  intros Hc. unfold items. cbn [fields]. rewrite Hc.
  by destruct (fields delim s).
Qed.

Lemma take_token_fields delim c s tok rest :
  Libc.is_delim delim c = false →
  Libc.take_token delim (String c s) = (tok, rest) →
  (∃ t, tok = String c t) ∧ items delim (String c s) = tok :: items delim rest
  ∧ (String.length rest < String.length (String c s))%nat.
Proof.
  revert c tok rest. induction s as [|c' s IH]; intros c tok rest Hc.
  - rewrite take_token_cons, Hc. simpl. intros [= <- <-].
    split_and!; [by eexists| |simpl; lia].
    by rewrite items_cons_other.
  - rewrite take_token_cons, Hc.
    destruct (Libc.is_delim delim c') eqn:Hc'.
    + rewrite take_token_cons, Hc'. intros [= <- <-].
      split_and!; [by eexists| |simpl; lia].
      rewrite items_cons_other by done. cbn [fields]. rewrite Hc'.
      unfold items. done.
    + destruct (Libc.take_token delim (String c' s)) as [t r] eqn:Ht.
      intros [= <- <-].
      destruct (IH c' t r Hc' Ht) as ((t' & ->) & Hitems & Hlen).
      split_and!; [by eexists| |simpl in *; lia].
      rewrite items_cons_other by done.
      rewrite items_cons_other in Hitems by done.
      cbn [fields]. rewrite Hc'.
      destruct (fields delim s) as [|f fs]; injection Hitems as <- <-; done.
Qed.

Lemma skip_delims_length delim s :
  (String.length (Libc.skip_delims delim s) <= String.length s)%nat.
Proof.
  induction s as [|c s IH]; simpl; [done|].
  destruct (Libc.is_delim delim c); simpl; lia.
Qed.

Lemma skip_delims_head delim s c r :
  Libc.skip_delims delim s = String c r → Libc.is_delim delim c = false.
Proof.
  induction s as [|c' s IH]; simpl; [done|].
  destruct (Libc.is_delim delim c') eqn:E; [done|]. by intros [= <- <-].
Qed.

Lemma strtok_None delim saved :
  Libc.strtok delim saved = None → items delim saved = [].
Proof.
  unfold Libc.strtok. intros H. rewrite <- items_skip_delims.
  by destruct (Libc.skip_delims delim saved).
Qed.

Lemma strtok_Some delim saved tok saved' :
  Libc.strtok delim saved = Some (tok, saved') →
  tok ≠ EmptyString ∧ items delim saved = tok :: items delim saved'
  ∧ (String.length saved' < String.length saved)%nat.
Proof.
  unfold Libc.strtok. intros H.
  pose proof (skip_delims_length delim saved) as Hlen.
  rewrite <- (items_skip_delims delim saved).
  destruct (Libc.skip_delims delim saved) as [|c r] eqn:Hs; [done|].
  apply skip_delims_head in Hs. injection H as H.
  destruct (take_token_fields _ _ _ _ _ Hs H) as ((t & ->) & ? & ?).
  split_and!; [done..|lia].
Qed.

(** ** The conversion loop against the specification *)

Lemma strtoarr_loop_spec fuel delim saved data_type n arr :
  (String.length saved < fuel)%nat →
  strtoarr_loop fuel delim saved data_type n arr
  = (rest ← convert_items data_type n (items delim saved);
     Ok ((n + length (items delim saved))%nat, arr ++ rest)).
Proof.
  revert saved n arr. induction fuel as [|fuel IH]; intros saved n arr Hlen; [lia|].
  cbn [strtoarr_loop].
  destruct (Libc.strtok delim saved) as [[list_item saved']|] eqn:Htok.
  - apply strtok_Some in Htok as (Hne & -> & Hlt).
    cbn [convert_items].
    destruct (strtox_ret_cases (Some list_item) data_type) as [Hr|[Hr|Hr]];
      rewrite Hr; simpl; [|done..].
    rewrite IH by lia.
    destruct (convert_items data_type (S n) (items delim saved')) as [rest| | |];
      simpl; [|done..].
    destruct (stored _); simpl; rewrite <- ?app_assoc; simpl;
      do 2 f_equal; lia.
  - apply strtok_None in Htok as ->. simpl.
    rewrite app_nil_r. do 2 f_equal. lia.
Qed.

Lemma strtoarr_split_spec str delim data_type :
  strtoarr str delim data_type = split_spec str delim data_type.
Proof.
  destruct str as [s|], delim as [d|]; try done.
  unfold strtoarr, split_spec.
  rewrite strtoarr_loop_spec by lia.
  destruct (convert_items _ _ _); done.
Qed.

Lemma strtox_stored s data_type :
  data_type ≠ DATA_TYPE_NONE → is_Some (stored (strtox (Some s) data_type)).
Proof.
  intros Hne. unfold strtox, strtox_body.
  destruct data_type; try done;
    unfold strtox_return, conv_signed, conv_unsigned, conv_char;
    cbn [stored]; repeat case_match; simplify_eq; cbn [stored]; eauto.
Qed.

Lemma convert_items_ok data_type i its :
  data_type ≠ DATA_TYPE_NONE → Forall (converts data_type) its →
  ∃ arr, convert_items data_type i its = Ok arr
    ∧ Forall2 (λ it cell, stored (strtox (Some it) data_type) = Some cell.2) its arr
    ∧ arr.*1 = (λ k, Z.of_nat k * get_data_type_size data_type) <$> seq i (length its).
Proof.
  intros Hne Hall. revert i.
  induction Hall as [|it its Hit Hall IH]; intros i.
  - exists []. done.
  - destruct (IH (S i)) as (arr & Harr & Hvals & Hoffs).
    destruct (strtox_stored it data_type Hne) as [v Hv].
    exists ((Z.of_nat i * get_data_type_size data_type, v) :: arr).
    cbn [convert_items]. unfold converts in Hit. rewrite Hit, Harr, Hv. simpl.
    split_and!; [done|by constructor|].
    f_equal. exact Hoffs.
Qed.

Lemma convert_items_fail data_type i pre bad post :
  Forall (converts data_type) pre → ¬ converts data_type bad →
  convert_items data_type i (pre ++ bad :: post)
  = Fatal (if ret (strtox (Some bad) data_type) =? 1
           then ListItemNotValid bad else ListItemOutOfRange bad).
Proof.
  intros Hall Hbad. revert i.
  induction Hall as [|it its Hit Hall IH]; intros i.
  - cbn [app convert_items]. unfold converts in Hbad.
    destruct (ret (strtox (Some bad) data_type) =? 0) eqn:E; [lia|].
    by destruct (_ =? 1).
  - cbn [app convert_items]. unfold converts in Hit. rewrite Hit, IH. done.
Qed.



(* ===================================================================== *)
(** * 14. Properties of the option matchers and of the walker *)
(* ===================================================================== *)

(** ** Outcomes *)

(** Closed runs of the model are settled by evaluation, one conjunct
    after the other, so that a state found by the first is known to the
    next. *)
Ltac by_running :=
  repeat lazymatch goal with
         | |- _ ∧ _ => split; [vm_compute; reflexivity|]
         end;
  vm_compute; reflexivity.

Lemma bind_Ok {A B} (m : outcome A) (f : A → outcome B) b :
  m ≫= f = Ok b → ∃ a, m = Ok a ∧ f a = Ok b.
Proof. destruct m; simpl; intros; simplify_eq; eauto. Qed.

Tactic Notation "inv_bind" hyp(H) "as" simple_intropattern(a) ident(H1) :=
  apply bind_Ok in H as (a & H1 & H).

(** ** What the steps of the parser touch *)

Lemma frame_refl st : frame st st.
Proof. by unfold frame. Qed.

Lemma frame_trans st1 st2 st3 : frame st1 st2 → frame st2 st3 → frame st1 st3.
Proof.
  unfold frame. intros (?&?&?&?) (?&?&?&?).
  split_and!; [congruence..|]. by etrans.
Qed.

Lemma frame_set_args_index i st : frame st (set_args_index i st).
Proof. by unfold frame. Qed.

Lemma frame_set_memory m st : frame st (set_memory m st).
Proof. by unfold frame. Qed.

Create HintDb frame.
Local Hint Resolve frame_refl frame_set_args_index frame_set_memory : frame.

Lemma arg_at_Ok i st t :
  arg_at i st = Ok t → ∃ a, args st = Some a ∧ a !! i = Some t.
Proof.
  unfold arg_at. destruct (args st) as [a|]; [|done].
  destruct (a !! i) eqn:E; [|done]. intros [= ->]. eauto.
Qed.

Lemma optparse_shift_Ok st t st' :
  optparse_shift st = Ok (t, st') →
  (st' = st ∧ t = None)
  ∨ (st' = set_args_index (S (args_index st)) st
     ∧ ∃ a tok, args st = Some a ∧ a !! args_index st = Some (Some tok)
                ∧ a !! S (args_index st) = Some t).
Proof.
  unfold optparse_shift. destruct (args st) as [a|] eqn:Ha; [|intros [= <- <-]; auto].
  intros H. inv_bind H as cur Hc. apply arg_at_Ok in Hc as (a' & Ha' & Hcur).
  destruct cur as [tok|]; [|injection H as <- <-; auto].
  inv_bind H as nxt Hn. apply arg_at_Ok in Hn as (a'' & Ha'' & Hnext).
  injection H as <- <-. right. split; [done|].
  simpl in *. simplify_eq. eauto.
Qed.

Lemma optparse_unshift_Ok st t st' :
  optparse_unshift st = Ok (t, st') →
  st' = st ∨ ∃ i, args_index st = S i ∧ st' = set_args_index i st.
Proof.
  unfold optparse_unshift. destruct (args st); [|intros [= <- <-]; auto].
  destruct (args_index st) as [|i] eqn:Hi; [intros [= <- <-]; auto|].
  intros H. inv_bind H as x Hx. injection H as <- <-. eauto.
Qed.

Lemma run_cb_frame p st st' : run_cb p st = Ok st' → frame st st'.
Proof.
  revert st. induction p as [m|k IH|k IH]; simpl; intros st H.
  - injection H as <-. auto with frame.
  - inv_bind H as [t st1] H0.
    apply optparse_shift_Ok in H0 as [[-> _]|[-> _]]; [by eapply IH|].
    eapply frame_trans; [|by eapply IH]. auto with frame.
  - inv_bind H as [t st1] H0.
    apply optparse_unshift_Ok in H0 as [->|(i & _ & ->)]; [by eapply IH|].
    eapply frame_trans; [|by eapply IH]. auto with frame.
Qed.

Lemma set_flag_frame opt st st' : set_flag opt st = Ok st' → frame st st'.
Proof.
  unfold set_flag. destruct (flag opt); [|intros [= <-]; auto with frame].
  case_match; [|done]. intros [= <-]. auto with frame.
Qed.

Lemma set_flag_index opt st st' :
  set_flag opt st = Ok st' → args_index st' = args_index st.
Proof.
  unfold set_flag. destruct (flag opt); [|by intros [= <-]].
  case_match; [|done]. by intros [= <-].
Qed.

Lemma store_converted_frame opt arg cv st :
  frame st (store_converted opt arg cv st)
  ∧ args_index (store_converted opt arg cv st) = args_index st.
Proof.
  unfold store_converted, store_arg.
  repeat case_match; auto with frame.
Qed.

Lemma store_list_size_frame opt cv st :
  frame st (store_list_size opt cv st)
  ∧ args_index (store_list_size opt cv st) = args_index st.
Proof.
  unfold store_list_size, store_size. repeat case_match; auto with frame.
Qed.

(** [call_function] either leaves the state alone or runs the option's
    function once. *)
Lemma call_function_Ok opt arg cv st st' :
  call_function opt arg cv st = Ok st' →
  st' = st ∨ ∃ f a, function opt = Some f ∧ run_cb (f a (memory st)) st = Ok st'.
Proof.
  unfold call_function. destruct (function opt) as [f|]; [|intros [= <-]; auto].
  intros H.
  repeat case_match; simplify_eq; try (inv_bind H as [? ?] Hsplit);
    first [by left | right; by eauto].
Qed.

Lemma execute_option_Ok opt arg st st' :
  execute_option opt arg st = Ok st' →
  ∃ st0, frame st st0 ∧ args_index st0 = args_index st
    ∧ (st' = st0 ∨ ∃ f a, function opt = Some f ∧ run_cb (f a (memory st0)) st0 = Ok st').
Proof.
  unfold execute_option. intros H.
  inv_bind H as st1 Hflag. inv_bind H as cv Hcv.
  pose proof (set_flag_frame _ _ _ Hflag) as F1.
  pose proof (set_flag_index _ _ _ Hflag) as I1.
  destruct (store_converted_frame opt arg cv st1) as [F2 I2].
  destruct (store_list_size_frame opt cv (store_converted opt arg cv st1)) as [F3 I3].
  eexists. split_and!; [| |by eapply call_function_Ok].
  - eauto using frame_trans.
  - congruence.
Qed.

Lemma execute_option_frame opt arg st st' :
  execute_option opt arg st = Ok st' → frame st st'.
Proof.
  intros (st0 & F & _ & [->|(f & a & _ & Hcb)])%execute_option_Ok; [done|].
  eauto using frame_trans, run_cb_frame.
Qed.

Lemma check_mutual_exclusivity_frame gmax opt st st' :
  check_mutual_exclusivity gmax opt st = Ok st' →
  frame st st' ∧ args_index st' = args_index st ∧ memory st' = memory st.
Proof.
  unfold check_mutual_exclusivity. case_match; [|intros [= <-]; auto with frame].
  destruct (exclusive_opts st !! group opt) eqn:E; [done|].
  intros [= <-]. split; [|done]. unfold frame. simpl. split_and!; [done..|].
  by apply insert_subseteq.
Qed.

Lemma next_arg_Ok st t st' :
  next_arg st = Ok (t, st') →
  st' = set_args_index (S (args_index st)) st
  ∧ ∃ a, args st = Some a ∧ a !! S (args_index st) = Some t.
Proof.
  unfold next_arg. intros H. inv_bind H as x Hx.
  apply arg_at_Ok in Hx as (a & Ha & Hl). injection H as <- <-. eauto.
Qed.

Lemma advance_Ok st st' :
  advance st = Ok st' →
  ∃ a, args st = Some a ∧
    ((a !! args_index st = Some None ∧ st' = st)
     ∨ (∃ tok, a !! args_index st = Some (Some tok))
       ∧ st' = set_args_index (S (args_index st)) st).
Proof.
  unfold advance. intros H. inv_bind H as cur Hc.
  apply arg_at_Ok in Hc as (a & Ha & Hl). exists a. split; [done|].
  destruct cur; injection H as <-; eauto.
Qed.

(** ** Bounds on the scan index *)

Section Bounds.
Variable gmax : Z.
Variable a : list (option string).
Variable nul : nat.
Hypothesis Hend : vec_end a nul.

Lemma run_cb_bound p st st' :
  args st = Some a → (args_index st ≤ nul)%nat →
  run_cb p st = Ok st' → (args_index st' ≤ nul)%nat.
Proof.
  destruct Hend as [Hnul _].
  revert st. induction p as [m|k IH|k IH]; simpl; intros st Ha Hi H.
  - by injection H as <-.
  - inv_bind H as [t st1] H0.
    apply optparse_shift_Ok in H0 as [[-> _]|[-> (a' & tok & Ha' & Hcur & _)]].
    + by eapply IH.
    + refine (IH t (set_args_index _ st) Ha _ H). simpl. simplify_eq.
      destruct (decide (args_index st = nul)) as [Heq|]; [|lia].
      rewrite Heq in Hcur. congruence.
  - inv_bind H as [t st1] H0.
    apply optparse_unshift_Ok in H0 as [->|(i & Hi' & ->)]; [by eapply IH|].
    refine (IH t (set_args_index _ st) Ha _ H). simpl. lia.
Qed.

Lemma execute_option_bound opt arg st st' :
  opt_forward opt →
  args st = Some a → (args_index st ≤ nul)%nat →
  execute_option opt arg st = Ok st' →
  frame st st' ∧ (args_index st ≤ args_index st' ≤ nul)%nat.
Proof.
  intros Hfw Ha Hi H. split; [by eapply execute_option_frame|].
  apply execute_option_Ok in H as (st0 & F & I0 & [->|(f & x & Hf & Hcb)]); [lia|].
  destruct F as (Ha0 & _).
  pose proof (Hfw f x (memory st0) Hf st0 st' Hcb).
  pose proof (run_cb_bound _ st0 st' ltac:(congruence) ltac:(lia) Hcb). lia.
Qed.

Lemma next_arg_bound st t st' :
  args st = Some a → (args_index st ≤ nul)%nat →
  next_arg st = Ok (Some t, st') →
  (args_index st < nul)%nat ∧ st' = set_args_index (S (args_index st)) st
  ∧ a !! S (args_index st) = Some (Some t).
Proof.
  intros Ha Hi (-> & a' & Ha' & Hl)%next_arg_Ok. simplify_eq.
  split; [|done].
  destruct (decide (args_index st = nul)) as [Heq|]; [|lia].
  rewrite Heq in Hl. destruct Hend as [_ [?|?]]; congruence.
Qed.

Lemma execute_long_option_loop_bound n arg opts st st' :
  Forall opt_forward opts →
  args st = Some a → (args_index st ≤ nul)%nat →
  execute_long_option_loop gmax n arg opts st = Ok st' →
  frame st st' ∧ (args_index st ≤ args_index st' ≤ nul)%nat.
Proof.
  intros Hfw Ha Hi. induction Hfw as [|opt opts Hopt Hfw IH]; [done|].
  cbn [execute_long_option_loop]. case_match; [|done].
  intros Hrun. inv_bind Hrun as st1 Hme.
  apply check_mutual_exclusivity_frame in Hme as (F1 & I1 & _).
  inv_bind Hrun as [arg' st2] Harg.
  assert (frame st1 st2 ∧ (args_index st1 ≤ args_index st2 ≤ nul)%nat) as [F2 I2].
  { destruct arg as [x|].
    - destruct (arg_name opt); [|done]. injection Harg as <- <-.
      split; [auto with frame|lia].
    - destruct (requires_arg opt).
      + inv_bind Harg as [t st2'] Hn. destruct t as [t|]; [|done].
        injection Harg as <- <-.
        apply next_arg_bound in Hn as (? & -> & _);
          [|destruct F1; congruence|lia].
        split; [auto with frame|simpl; lia].
      + injection Harg as <- <-. split; [auto with frame|lia]. }
  apply execute_option_bound in Hrun as [F3 I3];
    [|done|destruct F1, F2; congruence|lia].
  split; [eauto using frame_trans|lia].
Qed.

Lemma execute_long_option_bound s opts st st' :
  (∀ l, opts = Some l → Forall opt_forward l) →
  args st = Some a → (args_index st ≤ nul)%nat →
  execute_long_option gmax s opts st = Ok st' →
  frame st st' ∧ (args_index st ≤ args_index st' ≤ nul)%nat.
Proof.
  intros Hfw Ha Hi. unfold execute_long_option.
  destruct opts as [l|]; [|done]. destruct (split_eq s) as [n arg].
  apply execute_long_option_loop_bound; auto.
Qed.

Lemma find_short_In c opts opt : find_short c opts = Some opt → opt ∈ opts.
Proof.
  induction opts as [|o opts IH]; simpl; [done|].
  case_match; [intros [= ->]; by left|]. intros Hf. right. auto.
Qed.

Lemma execute_short_option_loop_bound group opts c st st' :
  Forall opt_forward opts →
  args st = Some a → (args_index st ≤ nul)%nat →
  execute_short_option_loop gmax group opts c st = Ok st' →
  frame st st' ∧ (args_index st ≤ args_index st' ≤ nul)%nat.
Proof.
  intros Hfw. revert st. induction c as [|ch rest IH]; intros st Ha Hi.
  - simpl. intros [= <-]. split; [auto with frame|lia].
  - cbn [execute_short_option_loop].
    destruct (find_short ch opts) as [opt|] eqn:Hfind; [|done].
    assert (opt_forward opt) as Hopt.
    { eapply Forall_forall; [done|]. by eapply find_short_In. }
    intros Hrun. inv_bind Hrun as st1 Hme.
    apply check_mutual_exclusivity_frame in Hme as (F1 & I1 & _).
    inv_bind Hrun as [arg' st2] Harg.
    assert (frame st1 st2 ∧ (args_index st1 ≤ args_index st2 ≤ nul)%nat) as [F2 I2].
    { destruct rest as [|r1 r2].
      - destruct (requires_arg opt).
        + inv_bind Harg as [t st2'] Hn. destruct t as [t|]; [|done].
          injection Harg as <- <-.
          apply next_arg_bound in Hn as (? & -> & _);
            [|destruct F1; congruence|lia].
          split; [auto with frame|simpl; lia].
        + injection Harg as <- <-. split; [auto with frame|lia].
      - destruct (arg_name opt); injection Harg as <- <-;
          (split; [auto with frame|lia]). }
    inv_bind Hrun as st3 Hex.
    apply execute_option_bound in Hex as [F3 I3];
      [|done|destruct F1, F2; congruence|lia].
    destruct arg'.
    + injection Hrun as <-. split; [eauto using frame_trans|lia].
    + apply IH in Hrun as [F4 I4]; [|destruct F1, F2, F3; congruence|lia].
      split; [eauto using frame_trans|lia].
Qed.

Lemma execute_short_option_bound group opts st st' :
  (∀ l, opts = Some l → Forall opt_forward l) →
  args st = Some a → (args_index st ≤ nul)%nat →
  execute_short_option gmax group opts st = Ok st' →
  frame st st' ∧ (args_index st ≤ args_index st' ≤ nul)%nat.
Proof.
  intros Hfw Ha Hi. unfold execute_short_option.
  destruct opts as [l|]; [|done].
  apply execute_short_option_loop_bound; auto.
Qed.

(** The step of the walker behind an option token: the index ends beyond
    the token, at most at the terminating NULL. *)
Lemma advance_bound st0 st st' tok :
  a !! args_index st0 = Some (Some tok) →
  args st = Some a → (args_index st0 ≤ args_index st ≤ nul)%nat →
  advance st = Ok st' →
  frame st st' ∧ memory st' = memory st
  ∧ (args_index st0 < args_index st' ≤ nul)%nat.
Proof.
  intros Htok Ha Hi (a' & Ha' & Hadv)%advance_Ok. simplify_eq.
  destruct Hend as [Hnul _].
  destruct Hadv as [[Hcur ->]|[[t Hcur] ->]].
  - split; [auto with frame|split; [done|]].
    destruct (decide (args_index st0 = args_index st)) as [Heq|]; [|lia].
    rewrite Heq in Htok. congruence.
  - split; [auto with frame|split; [done|]]. simpl.
    destruct (decide (args_index st = nul)) as [Heq|]; [|lia].
    rewrite Heq in Hcur. congruence.
Qed.

End Bounds.

(** ** The invariant of the walk *)

Local Open Scope nat_scope.

Lemma lookup_split {A} (pre gap pend tl : list A) n :
  (pre ++ gap ++ pend ++ tl) !! (length pre + length gap + n) = (pend ++ tl) !! n.
Proof.
  rewrite lookup_app_r by lia. rewrite lookup_app_r by lia. f_equal. lia.
Qed.

Lemma lookup_inv_split (prog : string) ops (gap pend tl : list (option string)) n :
  ((Some <$> prog :: ops) ++ gap ++ pend ++ tl) !! (S (length ops) + length gap + n)
  = (pend ++ tl) !! n.
Proof.
  replace (S (length ops)) with (length (Some <$> prog :: ops))
    by (by rewrite length_fmap).
  apply lookup_split.
Qed.

(** What the invariant provides at the head of the loop. *)
Lemma walk_inv_elim prog toks st :
  walk_inv prog toks st →
  ∃ a nul, args st = Some a ∧ vec_end a nul ∧ args_index st ≤ nul
    ∧ 1 ≤ argc st ≤ args_index st
    ∧ (args_index st = nul → a !! args_index st = Some None)
    ∧ (args_index st < nul → ∃ tok, a !! args_index st = Some (Some tok))
    ∧ (∀ st2, args st2 = Some a → argc st2 = argc st →
              args_index st ≤ args_index st2 ≤ nul → walk_inv prog toks st2).
Proof.
  intros (ops & gap & pending & junk & Ha & Hc & Hi & Hj & Hsub).
  eexists _, (S (length ops) + length gap + length pending).
  split; [exact Ha|].
  assert (length (Some <$> prog :: ops) = S (length ops)) as HA
    by (by rewrite length_fmap).
  assert (∀ n, ((Some <$> prog :: ops) ++ gap ++ (Some <$> pending) ++ None :: junk)
               !! (S (length ops) + length gap + n)
               = ((Some <$> pending) ++ None :: junk) !! n) as Hlook.
  { intros n. rewrite <- HA. apply lookup_split. }
  split_and!.
  - split.
    + rewrite Hlook. rewrite lookup_app_r by (rewrite length_fmap; lia).
      rewrite length_fmap, Nat.sub_diag. done.
    + replace (S (S (length ops) + length gap + length pending))
        with (S (length ops) + length gap + S (length pending)) by lia.
      rewrite Hlook. rewrite lookup_app_r by (rewrite length_fmap; lia).
      rewrite length_fmap. replace (S (length pending) - length pending) with 1 by lia.
      destruct Hj as [->|[j ->]]; auto.
  - lia.
  - lia.
  - lia.
  - intros Heq. assert (pending = []) as -> by (destruct pending; simpl in *; [done|lia]).
    rewrite Hi. replace (S (length ops) + length gap)
      with (S (length ops) + length gap + 0) by lia.
    by rewrite Hlook.
  - intros Hlt. destruct pending as [|tok p2]; [simpl in *; lia|].
    exists tok. rewrite Hi. replace (S (length ops) + length gap)
      with (S (length ops) + length gap + 0) by lia.
    by rewrite Hlook.
  - intros st2 Ha2 Hc2 Hi2.
    set (m := args_index st2 - args_index st).
    exists ops, (gap ++ (Some <$> take m pending)), (drop m pending), junk.
    split_and!.
    + rewrite Ha2. f_equal. f_equal. rewrite <- !app_assoc. f_equal.
      rewrite app_assoc. rewrite <- fmap_app. by rewrite take_drop.
    + congruence.
    + rewrite length_app, length_fmap, length_take. lia.
    + done.
    + etrans; [|exact Hsub]. apply sublist_app; [done|apply sublist_drop].
Qed.

Lemma argv_write_Ok i t st st' :
  argv_write i t st = Ok st' →
  ∃ a, args st = Some a ∧ i < length a ∧ st' = set_args (Some (<[i:=t]> a)) st.
Proof.
  unfold argv_write. destruct (args st) as [a|]; [|done].
  case_decide; [|done]. intros [= <-]. eauto.
Qed.

(** Keeping an operand. *)
Lemma walk_inv_operand prog toks st cur st1 st3 :
  walk_inv prog toks st →
  arg_at (args_index st) st = Ok (Some cur) →
  argv_write (argc st) (Some cur) st = Ok st1 →
  advance (set_argc (S (argc st1)) st1) = Ok st3 →
  walk_inv prog toks st3
  ∧ memory st3 = memory st ∧ exclusive_opts st3 = exclusive_opts st
  ∧ active_cmd st3 = active_cmd st ∧ args_index st3 = S (args_index st).
Proof.
  intros (ops & gap & pending & junk & Ha & Hc & Hi & Hj & Hsub) Hcur Hw Hadv.
  apply arg_at_Ok in Hcur as (a & Ha' & Hl0).
  assert (a = (Some <$> prog :: ops) ++ gap ++ (Some <$> pending) ++ None :: junk)
    as Hsplit by congruence.
  pose proof Hl0 as Hl. rewrite Hsplit, Hi in Hl.
  replace (S (length ops) + length gap)
    with (S (length ops) + length gap + 0) in Hl by lia.
  rewrite lookup_inv_split in Hl.
  destruct pending as [|tok p2]; [done|]. injection Hl as ->.
  apply argv_write_Ok in Hw as (a2 & Ha2 & Hlen & ->).
  assert (a2 = a) as -> by congruence. clear Ha2.
  apply advance_Ok in Hadv as (a'' & Ha'' & Hadv). simpl in Ha''.
  injection Ha'' as <-. simpl in Hadv.
  assert (<[argc st:=Some cur]> a !! args_index st = Some (Some cur)) as Hcur'.
  { destruct (decide (argc st = args_index st)) as [Heq|Hne].
    - rewrite Heq. apply list_lookup_insert_eq. rewrite <- Heq. done.
    - by rewrite list_lookup_insert_ne. }
  destruct Hadv as [[Hn _]|[_ ->]]; [congruence|].
  split; [|done].
  exists (ops ++ [cur]), (tail (gap ++ [Some cur])), p2, junk.
  cbn [args argc args_index set_args set_argc set_args_index]. split_and!.
  - f_equal. rewrite Hsplit, Hc.
    replace (S (length ops)) with (length (Some <$> prog :: ops) + 0)
      by (rewrite length_fmap; simpl; lia).
    rewrite insert_app_r.
    assert ((Some <$> prog :: (ops ++ [cur]))
            = (Some <$> prog :: ops) ++ [Some cur]) as ->.
    { by rewrite !fmap_cons, fmap_app. }
    rewrite <- (app_assoc (Some <$> prog :: ops)). f_equal.
    destruct gap as [|g gs]; simpl; [done|].
    by rewrite <- app_assoc.
  - rewrite Hc, length_app. simpl. lia.
  - rewrite Hi, length_app. simpl.
    destruct gap; simpl; [lia|]. rewrite length_app. simpl. lia.
  - done.
  - by rewrite <- app_assoc.
Qed.

(** The loop that moves the rest of the vector down on descent. *)
Lemma remove_previous_Ok fuel :
  ∀ rest pre gap junk st st',
    gap ≠ [] →
    args st = Some (pre ++ gap ++ (Some <$> rest) ++ None :: junk) →
    argc st = length pre →
    S (args_index st) = length pre + length gap →
    remove_previous fuel st = Ok st' →
    ∃ gap',
      st' = set_argc (length pre + S (length rest))
              (set_args (Some (pre ++ (Some <$> rest) ++ None :: gap'))
                 (set_args_index (args_index st + S (length rest)) st))
      ∧ gap' ≠ [].
Proof.
  induction fuel as [|fuel IH]; intros rest pre gap junk st st' Hgap Ha Hc Hi H;
    [done|].
  cbn [remove_previous] in H.
  inv_bind H as [t st1] Hn. apply next_arg_Ok in Hn as (-> & a & Ha' & Hl).
  rewrite Ha in Ha'. injection Ha' as <-.
  rewrite Hi in Hl. replace (length pre + length gap)
    with (length pre + length gap + 0) in Hl by lia.
  rewrite lookup_split in Hl.
  inv_bind H as st2 Hw. apply argv_write_Ok in Hw as (a & Ha' & Hlen & ->).
  simpl in Ha'. rewrite Ha in Ha'. injection Ha' as <-. simpl in H.
  destruct gap as [|g gs]; [done|].
  assert (<[argc st:=t]> (pre ++ (g :: gs) ++ (Some <$> rest) ++ None :: junk)
          = (pre ++ [t]) ++ (gs ++ (Some <$> rest) ++ None :: junk)) as Hins.
  { rewrite Hc. replace (length pre) with (length pre + 0) at 1 by lia.
    rewrite insert_app_r. simpl. by rewrite <- app_assoc. }
  rewrite Hins in H.
  inv_bind H as cur Hcur. apply arg_at_Ok in Hcur as (a & Ha' & Hl').
  simpl in Ha', Hl'. injection Ha' as <-.
  assert (((pre ++ [t]) ++ gs ++ (Some <$> rest) ++ None :: junk)
            !! S (args_index st) = Some t) as Hl''.
  { replace (S (args_index st)) with (length (pre ++ [t]) + length gs + 0)
      by (rewrite length_app; simpl in *; lia).
    by rewrite lookup_split. }
  rewrite Hl'' in Hl'. injection Hl' as <-.
  destruct rest as [|tok rest]; simpl in Hl; injection Hl as <-.
  - injection H as <-. exists (gs ++ None :: junk). split; [|by destruct gs].
    unfold set_argc, set_args, set_args_index; simpl.
    f_equal; first [lia | by rewrite <- app_assoc].
  - apply (IH rest (pre ++ [Some tok]) (gs ++ [Some tok]) junk) in H
      as (gap' & -> & Hgap').
    + exists gap'. split; [|done].
      unfold set_argc, set_args, set_args_index; simpl.
      rewrite length_app. simpl.
      f_equal; first [lia | by rewrite <- app_assoc].
    + by destruct gs.
    + simpl. rewrite <- !app_assoc. done.
    + simpl. rewrite length_app. simpl. lia.
    + simpl. rewrite !length_app. simpl in *. lia.
Qed.

(** Descending into a subcommand. *)
Lemma insert_behind {A} (l1 l2 : list A) (x y : A) n :
  n = length l1 → l2 ≠ [] →
  <[S n:=y]> (l1 ++ x :: l2) = l1 ++ x :: y :: tail l2.
Proof.
  intros -> Hl2. replace (S (length l1)) with (length l1 + 1) by lia.
  rewrite insert_app_r. by destruct l2.
Qed.

Lemma walk_inv_descend prog toks fuel st cur st1 st2 subcmd :
  walk_inv prog toks st →
  arg_at (args_index st) st = Ok (Some cur) →
  remove_previous fuel st = Ok st1 →
  argv_write (argc st1) None st1 = Ok st2 →
  walk_inv prog toks (parse_init subcmd st2)
  ∧ memory st2 = memory st ∧ exclusive_opts st2 = exclusive_opts st.
Proof.
  intros (ops & gap & pending & junk & Ha & Hc & Hi & Hj & Hsub) Hcur Hrm Hw.
  apply arg_at_Ok in Hcur as (a & Ha' & Hl).
  assert (a = (Some <$> prog :: ops) ++ gap ++ (Some <$> pending) ++ None :: junk)
    as -> by congruence. clear Ha'.
  rewrite Hi in Hl.
  replace (S (length ops) + length gap)
    with (S (length ops) + length gap + 0) in Hl by lia.
  rewrite lookup_inv_split in Hl.
  destruct pending as [|tok p2]; [done|]. injection Hl as ->.
  assert (length (Some <$> prog :: ops) = S (length ops)) as HA
    by (by rewrite length_fmap).
  apply (remove_previous_Ok fuel p2 (Some <$> prog :: ops) (gap ++ [Some cur]) junk)
    in Hrm as (gap' & -> & Hgap').
  - apply argv_write_Ok in Hw as (a & Ha' & Hlen & ->).
    cbn [args argc set_args set_argc set_args_index] in Ha'.
    assert (a = (Some <$> prog :: ops) ++ (Some <$> p2) ++ None :: gap')
      as -> by congruence. clear Ha'.
    split; [|done].
    exists [], [], (ops ++ p2), (None :: tail gap').
    cbn [args argc args_index set_args set_argc set_args_index set_active_cmd
         parse_init length].
    split_and!.
    + f_equal.
      rewrite (app_assoc (Some <$> prog :: ops)).
      replace (length (Some <$> prog :: ops) + S (length p2))
        with (S (length ((Some <$> prog :: ops) ++ (Some <$> p2))))
        by (rewrite length_app, !length_fmap; simpl; lia).
      rewrite insert_behind by done.
      rewrite <- app_assoc. rewrite !fmap_cons, fmap_app. simpl.
      by rewrite <- app_assoc.
    + done.
    + done.
    + right. by eexists.
    + etrans; [|exact Hsub]. rewrite app_nil_l.
      apply sublist_app; [done|]. by apply sublist_cons.
  - by destruct gap.
  - rewrite Ha. rewrite <- !app_assoc. done.
  - by rewrite HA.
  - rewrite Hi, HA, length_app. simpl. lia.
Qed.

(** Passing over an option token (or the "--" token). *)
Lemma walk_inv_option prog toks st stA st2 tok :
  walk_inv prog toks st →
  arg_at (args_index st) st = Ok (Some tok) →
  (∀ a nul, args st = Some a → vec_end a nul → args_index st ≤ nul →
            frame st stA ∧ args_index st ≤ args_index stA ≤ nul) →
  advance stA = Ok st2 →
  walk_inv prog toks st2 ∧ args_index st < args_index st2.
Proof.
  intros Hinv Hcur Hstep Hadv.
  destruct (walk_inv_elim _ _ _ Hinv)
    as (a & nul & Ha & Hend & Hi & Hc & _ & _ & Hclose).
  apply arg_at_Ok in Hcur as (a' & Ha' & Hl).
  assert (a' = a) as -> by congruence.
  destruct (Hstep a nul Ha Hend Hi) as [(FA1 & FA2 & _) IA].
  destruct (advance_bound a nul Hend st stA st2 tok Hl ltac:(congruence) IA Hadv)
    as ((F1 & F2 & _) & _ & I2).
  split; [|lia]. apply Hclose; [congruence|congruence|lia].
Qed.

Lemma find_subcmd_In tok subs subcmd :
  find_subcmd tok subs = Some subcmd → subcmd ∈ subs.
Proof.
  induction subs as [|s subs IH]; simpl; [done|].
  case_match; [intros [= ->]; by left|]. intros Hf. right. auto.
Qed.

Lemma cmd_forward_options cmd :
  cmd_forward cmd → ∀ l, options cmd = Some l → Forall opt_forward l.
Proof. by intros [c Ho Hs]. Qed.

Lemma cmd_forward_subcmd cmd subs tok subcmd :
  cmd_forward cmd → subcommands cmd = Some subs →
  find_subcmd tok subs = Some subcmd → cmd_forward subcmd.
Proof.
  intros [c Ho Hs] Hsubs Hfind.
  eapply Forall_forall; [by apply Hs|]. by eapply find_subcmd_In.
Qed.

(** The walk keeps the invariant and ends at the terminating NULL. *)
Lemma parse_loop_inv gmax prog toks fuel :
  ∀ cmd ign st leaf st1,
    cmd_forward cmd → walk_inv prog toks st →
    parse_loop gmax fuel cmd ign st = Ok (leaf, st1) →
    walk_inv prog toks st1 ∧ arg_at (args_index st1) st1 = Ok None.
Proof.
  induction fuel as [|fuel IH]; intros cmd ign st leaf st1 Hfw Hinv Hrun; [done|].
  cbn [parse_loop] in Hrun.
  inv_bind Hrun as cur Hcur. destruct cur as [tok|];
    [|injection Hrun as <- <-; done].
  pose proof (cmd_forward_options _ Hfw) as Hopts.
  assert (∀ stA st2,
            execute_short_option gmax tok (options cmd) st = Ok stA →
            advance stA = Ok st2 → walk_inv prog toks st2) as Hshort.
  { intros stA st2 Hex Hadv.
    eapply walk_inv_option; [done..| |done].
    intros a nul Ha Hend Hi.
    by eapply execute_short_option_bound. }
  destruct (negb ign && starts_with_dash tok).
  - destruct tok as [|c0 [|c1 rest]].
    + inv_bind Hrun as stA Hex. inv_bind Hrun as st2 Hadv. eauto.
    + inv_bind Hrun as stA Hex. inv_bind Hrun as st2 Hadv. eauto.
    + destruct (Ascii.eqb c1 "-").
      * destruct rest as [|r0 rest].
        -- inv_bind Hrun as st2 Hadv.
           eapply IH; [done| |done].
           eapply walk_inv_option; [done..| |done].
           intros a nul Ha Hend Hi. split; [apply frame_refl|lia].
        -- inv_bind Hrun as stA Hex. inv_bind Hrun as st2 Hadv.
           eapply IH; [done| |done].
           eapply walk_inv_option; [done..| |done].
           intros a nul Ha Hend Hi.
           by eapply execute_long_option_bound.
      * inv_bind Hrun as stA Hex. inv_bind Hrun as st2 Hadv. eauto.
  - destruct (subcommands cmd) as [subs|] eqn:Hsubs.
    + destruct (find_subcmd tok subs) as [subcmd|] eqn:Hfind; [|done].
      inv_bind Hrun as stA Hrm. inv_bind Hrun as stB Hw.
      eapply IH; [by eapply cmd_forward_subcmd| |done].
      by eapply walk_inv_descend.
    + inv_bind Hrun as stA Hw. inv_bind Hrun as stB Hadv.
      eapply IH; [done| |done].
      by eapply walk_inv_operand.
Qed.

(** ** The argument vector on return *)

Lemma walk_inv_initial prog toks cmd st :
  walk_inv prog toks (parse_init cmd (set_args (Some (argv_of prog toks)) st)).
Proof.
  exists [], [], toks, []. unfold argv_of, parse_init. simpl.
  split_and!; auto.
Qed.

Lemma parse_end_frame cmd st st' :
  parse_end cmd st = Ok st' →
  ∃ a, args st = Some a ∧ argc st < length a
    ∧ args st' = Some (<[argc st:=None]> a) ∧ argc st' = argc st
    ∧ exclusive_opts st' = exclusive_opts st.
Proof.
  unfold parse_end. intros H. inv_bind H as st1 Hw.
  apply argv_write_Ok in Hw as (a & Ha & Hlen & ->).
  exists a. split_and!; [done..| | |].
  - destruct (cmd_function cmd) as [f|]; [|by injection H as <-].
    apply run_cb_frame in H as (-> & _). done.
  - destruct (cmd_function cmd) as [f|]; [|by injection H as <-].
    apply run_cb_frame in H as (_ & -> & _). done.
  - destruct (cmd_function cmd) as [f|]; [|by injection H as <-].
    pose proof (run_cb_frame _ _ _ H) as (_ & _ & _ & Hsub).
    (* the callback cannot touch the table *)
    clear -H. simpl in H.
    assert (∀ p s s', run_cb p s = Ok s' → exclusive_opts s' = exclusive_opts s) as Hcb.
    { induction p as [m|k IH|k IH]; simpl; intros s s' Hr.
      - by injection Hr as <-.
      - inv_bind Hr as [t s1] H0.
        apply optparse_shift_Ok in H0 as [[-> _]|[-> _]]; by rewrite (IH _ _ _ Hr).
      - inv_bind Hr as [t s1] H0.
        apply optparse_unshift_Ok in H0 as [->|(i & _ & ->)]; by rewrite (IH _ _ _ Hr). }
    by rewrite (Hcb _ _ _ H).
Qed.


(** ** What the whole walk leaves alone, whatever the callbacks do *)

Lemma next_arg_frame st t st' : next_arg st = Ok (t, st') → frame st st'.
Proof. intros (-> & _)%next_arg_Ok. auto with frame. Qed.

Lemma execute_long_option_frame gmax s opts st st' :
  execute_long_option gmax s opts st = Ok st' → frame st st'.
Proof.
  unfold execute_long_option. destruct opts as [l|]; [|done].
  destruct (split_eq s) as [n arg].
  induction l as [|opt l IH]; [done|].
  cbn [execute_long_option_loop]. case_match; [|done].
  intros Hrun. inv_bind Hrun as st1 Hme.
  apply check_mutual_exclusivity_frame in Hme as (F1 & _).
  inv_bind Hrun as [arg' st2] Harg.
  assert (frame st1 st2) as F2.
  { destruct arg as [x|].
    - destruct (arg_name opt); [|done]. injection Harg as <- <-. auto with frame.
    - destruct (requires_arg opt).
      + inv_bind Harg as [t st2'] Hn. destruct t as [t|]; [|done].
        injection Harg as <- <-. by eapply next_arg_frame.
      + injection Harg as <- <-. auto with frame. }
  apply execute_option_frame in Hrun. eauto using frame_trans.
Qed.

Lemma execute_short_option_frame gmax group opts st st' :
  execute_short_option gmax group opts st = Ok st' → frame st st'.
Proof.
  unfold execute_short_option. destruct opts as [l|]; [|done].
  generalize (match group with String _ r => r | EmptyString => EmptyString end).
  intros c. revert st. induction c as [|ch rest IH]; intros st.
  - simpl. intros [= <-]. auto with frame.
  - cbn [execute_short_option_loop].
    destruct (find_short ch l) as [opt|]; [|done].
    intros Hrun. inv_bind Hrun as st1 Hme.
    apply check_mutual_exclusivity_frame in Hme as (F1 & _).
    inv_bind Hrun as [arg' st2] Harg.
    assert (frame st1 st2) as F2.
    { destruct rest as [|r1 r2].
      - destruct (requires_arg opt).
        + inv_bind Harg as [t st2'] Hn. destruct t as [t|]; [|done].
          injection Harg as <- <-. by eapply next_arg_frame.
        + injection Harg as <- <-. auto with frame.
      - destruct (arg_name opt); injection Harg as <- <-; auto with frame. }
    inv_bind Hrun as st3 Hex. apply execute_option_frame in Hex.
    destruct arg'.
    + injection Hrun as <-. eauto using frame_trans.
    + apply IH in Hrun. eauto using frame_trans.
Qed.

Lemma advance_frame st st' : advance st = Ok st' → frame st st'.
Proof.
  intros (a & _ & [[_ ->]|[_ ->]])%advance_Ok; auto with frame.
Qed.

(** The table of exclusive options only grows along the walk. *)
Lemma argv_write_table i t st st' :
  argv_write i t st = Ok st' →
  exclusive_opts st' = exclusive_opts st ∧ argc st' = argc st
  ∧ args_index st' = args_index st ∧ memory st' = memory st.
Proof. by intros (a & _ & _ & ->)%argv_write_Ok. Qed.

Lemma remove_previous_table fuel :
  ∀ st st', remove_previous fuel st = Ok st' →
    exclusive_opts st' = exclusive_opts st ∧ memory st' = memory st.
Proof.
  induction fuel as [|fuel IH]; intros st st' H; [done|].
  cbn [remove_previous] in H.
  inv_bind H as [t st1] Hn. apply next_arg_Ok in Hn as (-> & _).
  inv_bind H as st2 Hw. apply argv_write_table in Hw as (He & _ & _ & Hm).
  inv_bind H as cur Hcur. destruct cur.
  - apply IH in H as [-> ->]. simpl. by rewrite He, Hm.
  - injection H as <-. simpl. by rewrite He, Hm.
Qed.

Lemma parse_loop_table gmax fuel :
  ∀ cmd ign st leaf st1,
    parse_loop gmax fuel cmd ign st = Ok (leaf, st1) →
    exclusive_opts st ⊆ exclusive_opts st1.
Proof.
  induction fuel as [|fuel IH]; intros cmd ign st leaf st1 Hrun; [done|].
  cbn [parse_loop] in Hrun.
  inv_bind Hrun as cur Hcur. destruct cur as [tok|];
    [|injection Hrun as <- <-; done].
  assert (∀ stA st2,
            frame st stA → advance stA = Ok st2 →
            parse_loop gmax fuel cmd ign st2 = Ok (leaf, st1) →
            exclusive_opts st ⊆ exclusive_opts st1) as Hstep.
  { intros stA st2 FA Hadv Hrec. apply advance_frame in Hadv.
    destruct (frame_trans _ _ _ FA Hadv) as (_ & _ & _ & He).
    apply IH in Hrec. by etrans. }
  destruct (negb ign && starts_with_dash tok).
  - destruct tok as [|c0 [|c1 rest]].
    + inv_bind Hrun as stA Hex. inv_bind Hrun as st2 Hadv.
      eauto using execute_short_option_frame.
    + inv_bind Hrun as stA Hex. inv_bind Hrun as st2 Hadv.
      eauto using execute_short_option_frame.
    + destruct (Ascii.eqb c1 "-").
      * destruct rest as [|r0 rest].
        -- inv_bind Hrun as st2 Hadv.
           apply advance_frame in Hadv as (_ & _ & _ & He).
           apply IH in Hrun. by etrans.
        -- inv_bind Hrun as stA Hex. inv_bind Hrun as st2 Hadv.
           eauto using execute_long_option_frame.
      * inv_bind Hrun as stA Hex. inv_bind Hrun as st2 Hadv.
        eauto using execute_short_option_frame.
  - destruct (subcommands cmd) as [subs|] eqn:Hsubs.
    + destruct (find_subcmd tok subs) as [subcmd|] eqn:Hfind; [|done].
      inv_bind Hrun as stA Hrm. inv_bind Hrun as stB Hw.
      apply remove_previous_table in Hrm as [HeA _].
      apply argv_write_table in Hw as (HeB & _).
      apply IH in Hrun. simpl in Hrun. by rewrite HeB, HeA in Hrun.
    + inv_bind Hrun as stA Hw. inv_bind Hrun as stB Hadv.
      apply argv_write_table in Hw as (HeA & _).
      apply advance_frame in Hadv as (_ & _ & _ & He). simpl in He.
      apply IH in Hrun. rewrite HeA in He. by etrans.
Qed.

(** The cells the walk never touches, whatever the callbacks do: the
    vector keeps its length and its first cell, and the cells below [*argc]
    are never NULL. *)
Lemma kept_frame prog n st st' : kept prog n st → frame st st' → kept prog n st'.
Proof.
  intros (a & Ha & H0 & Hn & Hc & Hnn) (Fa & Fc & _). exists a.
  rewrite Fc. split_and!; [congruence|done..].
Qed.

Lemma remove_previous_vec prog n fuel :
  ∀ st st' a,
    args st = Some a → a !! 0 = Some (Some prog) → length a = n → 1 ≤ argc st →
    remove_previous fuel st = Ok st' →
    ∃ a', args st' = Some a' ∧ a' !! 0 = Some (Some prog) ∧ length a' = n
          ∧ 1 ≤ argc st'.
Proof.
  induction fuel as [|fuel IH]; intros st st' a Ha H0 Hn Hc H; [done|].
  cbn [remove_previous] in H.
  inv_bind H as [t st1] Hnx. apply next_arg_Ok in Hnx as (-> & _).
  inv_bind H as st2 Hw. apply argv_write_Ok in Hw as (a2 & Ha2 & Hlen & ->).
  simpl in Ha2. assert (a2 = a) as -> by congruence.
  inv_bind H as cur Hcur. simpl in H.
  assert ((<[argc st:=t]> a) !! 0 = Some (Some prog)) as H0'
    by (rewrite list_lookup_insert_ne by (simpl; lia); done).
  destruct cur.
  - eapply IH in H; [done|simpl; done|done|by rewrite length_insert|simpl; lia].
  - injection H as <-. eexists. simpl. split_and!; [done..|by rewrite length_insert|lia].
Qed.

Lemma parse_loop_kept gmax prog n fuel :
  ∀ cmd ign st leaf st1,
    kept prog n st → parse_loop gmax fuel cmd ign st = Ok (leaf, st1) →
    kept prog n st1.
Proof.
  induction fuel as [|fuel IH]; intros cmd ign st leaf st1 Hk Hrun; [done|].
  cbn [parse_loop] in Hrun.
  inv_bind Hrun as cur Hcur. destruct cur as [tok|];
    [|injection Hrun as <- <-; done].
  assert (∀ stA st2,
            frame st stA → advance stA = Ok st2 →
            parse_loop gmax fuel cmd ign st2 = Ok (leaf, st1) →
            kept prog n st1) as Hstep.
  { intros stA st2 FA Hadv Hrec. apply advance_frame in Hadv.
    pose proof (frame_trans _ _ _ FA Hadv) as F.
    eapply IH; [|done]. by eapply kept_frame. }
  destruct (negb ign && starts_with_dash tok).
  - destruct tok as [|c0 [|c1 rest]].
    + inv_bind Hrun as stA Hex. inv_bind Hrun as st2 Hadv.
      eauto using execute_short_option_frame.
    + inv_bind Hrun as stA Hex. inv_bind Hrun as st2 Hadv.
      eauto using execute_short_option_frame.
    + destruct (Ascii.eqb c1 "-").
      * destruct rest as [|r0 rest].
        -- inv_bind Hrun as st2 Hadv.
           apply advance_frame in Hadv.
           eapply IH; [|done]. by eapply kept_frame.
        -- inv_bind Hrun as stA Hex. inv_bind Hrun as st2 Hadv.
           eauto using execute_long_option_frame.
      * inv_bind Hrun as stA Hex. inv_bind Hrun as st2 Hadv.
        eauto using execute_short_option_frame.
  - destruct Hk as (a & Ha & H0 & Hn & Hc & Hnn).
    destruct (subcommands cmd) as [subs|] eqn:Hsubs.
    + destruct (find_subcmd tok subs) as [subcmd|] eqn:Hfind; [|done].
      inv_bind Hrun as stA Hrm. inv_bind Hrun as stB Hw.
      eapply (remove_previous_vec prog n) in Hrm as (aA & HaA & H0A & HnA & HcA);
        [|done..].
      apply argv_write_Ok in Hw as (a2 & Ha2 & Hlen & ->).
      assert (a2 = aA) as -> by congruence.
      eapply IH; [|done].
      exists (<[argc stA:=None]> aA). simpl.
      assert ((<[argc stA:=None]> aA) !! 0 = Some (Some prog)) as H0'
        by (rewrite list_lookup_insert_ne by lia; done).
      split_and!; [done..|by rewrite length_insert|lia|].
      intros j Hj. assert (j = 0) as -> by lia. eauto.
    + inv_bind Hrun as stA Hw. inv_bind Hrun as stB Hadv.
      apply argv_write_Ok in Hw as (a2 & Ha2 & Hlen & ->).
      assert (a2 = a) as -> by congruence.
      apply advance_frame in Hadv.
      eapply IH; [|done]. eapply kept_frame; [|done].
      exists (<[argc st:=Some tok]> a). simpl.
      split_and!; [done| |by rewrite length_insert|lia|].
      * rewrite list_lookup_insert_ne by lia. done.
      * intros j Hj. destruct (decide (j = argc st)) as [->|Hne].
        -- rewrite list_lookup_insert_eq by done. eauto.
        -- rewrite list_lookup_insert_ne by done. apply Hnn. lia.
Qed.

(** C10.  When the walk over a vector that starts with the program name
    has ended in a command with an operand callback, the callback is
    started in a state whose scan index is 0 and whose vector is
    NULL-terminated at [argc]; the first [optparse_shift] in that state
    moves the index to 1 and returns [argv[1]], which is the first of the
    operands [argv[1..argc)] and NULL when there is none. *)
Theorem terminal_callback_shift gmax fuel cmd prog rest st leaf st1 f :
  rest ≠ [] →
  parse_loop gmax fuel cmd false
    (parse_init cmd (set_args (Some (Some prog :: rest)) st)) = Ok (leaf, st1) →
  cmd_function leaf = Some f →
  ∃ argv st0 t,
    optparse_parse gmax fuel (Some cmd) (Some prog :: rest) st
    = run_cb (f (argc st0) argv (memory st0)) st0
    ∧ args st0 = Some argv ∧ args_index st0 = 0 ∧ argc st0 = argc st1
    ∧ argv !! 0 = Some (Some prog) ∧ argv !! argc st0 = Some None
    ∧ argv !! 1 = Some t
    ∧ optparse_shift st0 = Ok (t, set_args_index 1 st0)
    ∧ (∀ k, run_cb (CbShift k) st0 = run_cb (k t) (set_args_index 1 st0)).
Proof.
  intros Hrest Hwalk Hf.
  pose proof Hwalk as Hk.
  apply (parse_loop_kept gmax prog (S (length rest))) in Hk.
  2:{ exists (Some prog :: rest). simpl. split_and!; [done..|].
      intros j Hj. assert (j = 0) as -> by lia. eauto. }
  destruct Hk as (a & Ha & H0 & Hn & Hc & Hnn).
  assert (argc st1 < length a) as Hlt.
  { (* the walk has ended at a NULL, which lies behind the operands *)
    assert (∃ i, i < length a ∧ a !! i = Some None ∧ args_index st1 = i)
      as (i & Hi & Hnul & _).
    { clear -Hwalk Ha.
      assert (∀ fuel cmd ign st leaf st1,
                parse_loop gmax fuel cmd ign st = Ok (leaf, st1) →
                arg_at (args_index st1) st1 = Ok None) as Hexit.
      { clear. induction fuel as [|fuel IH]; intros cmd ign st leaf st1 Hrun; [done|].
        cbn [parse_loop] in Hrun.
        inv_bind Hrun as cur Hcur. destruct cur as [tok|];
          [|by injection Hrun as <- <-].
        repeat case_match; simplify_eq;
          repeat (let x := fresh "x" in let Hx := fresh "Hx" in
                  inv_bind Hrun as x Hx); eauto. }
      apply Hexit in Hwalk. apply arg_at_Ok in Hwalk as (a' & Ha' & Hl).
      assert (a' = a) as -> by congruence.
      exists (args_index st1). split_and!; [|done..].
      apply lookup_lt_is_Some. eauto. }
    destruct (decide (i < argc st1)) as [Hlt|]; [|lia].
    destruct (Hnn i Hlt) as [t Ht]. congruence. }
  set (argv := <[argc st1:=None]> a).
  set (st0 := set_args_index 0 (set_args (Some argv) st1)).
  assert (is_Some (argv !! 1)) as [t Ht].
  { apply lookup_lt_is_Some. unfold argv. rewrite length_insert, Hn.
    destruct rest; [done|]. simpl. lia. }
  assert (argv !! 0 = Some (Some prog)) as Hargv0.
  { unfold argv. rewrite list_lookup_insert_ne by lia. done. }
  assert (optparse_shift st0 = Ok (t, set_args_index 1 st0)) as Hshift.
  { unfold optparse_shift, arg_at. simpl. rewrite Hargv0. simpl. by rewrite Ht. }
  exists argv, st0, t. split_and!; try done.
  - unfold optparse_parse, parse. rewrite Hwalk. simpl.
    unfold parse_end, argv_write. rewrite Ha.
    rewrite decide_True by done. simpl. by rewrite Hf.
  - unfold argv. by apply list_lookup_insert_eq.
  - intros k. simpl. by rewrite Hshift.
Qed.

(** ** The table of mutually exclusive options *)

Lemma optparse_parse_table gmax fuel cmd argv st st' :
  optparse_parse gmax fuel cmd argv st = Ok st' →
  exclusive_opts st ⊆ exclusive_opts st'.
Proof.
  unfold optparse_parse. destruct cmd as [c|]; [|by intros [= <-]].
  unfold parse. intros H. inv_bind H as [leaf st1] Hwalk.
  apply parse_loop_table in Hwalk. simpl in Hwalk.
  apply parse_end_frame in H as (_ & _ & _ & _ & _ & He).
  by rewrite He.
Qed.




(** ** Behind the stand-alone "--" *)

(** One turn of the loop of a command without subcommands in
    ignore-options mode: the token is kept as an operand. *)
Lemma operand_turn gmax fuel cmd prog st ops gap tok p2 junk :
  subcommands cmd = None →
  args st = Some ((Some <$> prog :: ops) ++ gap ++ (Some <$> tok :: p2) ++ None :: junk) →
  argc st = S (length ops) →
  args_index st = S (length ops) + length gap →
  ∃ st3,
    parse_loop gmax (S fuel) cmd true st = parse_loop gmax fuel cmd true st3
    ∧ args st3 = Some ((Some <$> prog :: (ops ++ [tok])) ++ tail (gap ++ [Some tok])
                       ++ (Some <$> p2) ++ None :: junk)
    ∧ argc st3 = S (length (ops ++ [tok]))
    ∧ args_index st3 = S (length (ops ++ [tok])) + length (tail (gap ++ [Some tok]))
    ∧ memory st3 = memory st ∧ exclusive_opts st3 = exclusive_opts st
    ∧ active_cmd st3 = active_cmd st.
Proof.
  intros Hleaf Ha Hc Hi.
  set (a := (Some <$> prog :: ops) ++ gap ++ (Some <$> tok :: p2) ++ None :: junk) in *.
  assert (a !! args_index st = Some (Some tok)) as Hcur.
  { unfold a. rewrite Hi.
    replace (S (length ops) + length gap)
      with (S (length ops) + length gap + 0) by lia.
    by rewrite lookup_inv_split. }
  assert (argc st < length a) as Hlt.
  { unfold a. rewrite Hc, !length_app, length_fmap. simpl. lia. }
  assert (<[argc st:=Some tok]> a !! args_index st = Some (Some tok)) as Hcur'.
  { destruct (decide (argc st = args_index st)) as [Heq|Hne].
    - rewrite Heq. apply list_lookup_insert_eq. by rewrite <- Heq.
    - by rewrite list_lookup_insert_ne. }
  exists (set_args_index (S (args_index st))
            (set_argc (S (argc st)) (set_args (Some (<[argc st:=Some tok]> a)) st))).
  split_and!; try done.
  - cbn [parse_loop]. unfold arg_at at 1. rewrite Ha, Hcur. simpl.
    rewrite Hleaf. unfold argv_write. rewrite Ha. rewrite decide_True by done.
    simpl. unfold advance, arg_at. simpl. rewrite Hcur'. done.
  - cbn [args set_args set_args_index set_argc]. f_equal. unfold a. rewrite Hc.
    replace (S (length ops)) with (length (Some <$> prog :: ops) + 0)
      by (rewrite length_fmap; simpl; lia).
    rewrite insert_app_r.
    assert ((Some <$> prog :: (ops ++ [tok]))
            = (Some <$> prog :: ops) ++ [Some tok]) as ->.
    { by rewrite !fmap_cons, fmap_app. }
    rewrite <- (app_assoc (Some <$> prog :: ops)). f_equal.
    destruct gap as [|g gs]; simpl; [done|].
    by rewrite <- app_assoc.
  - cbn [argc set_args set_args_index set_argc]. rewrite Hc, length_app. simpl. lia.
  - cbn [args_index set_args set_args_index set_argc]. rewrite Hi, length_app. simpl.
    destruct gap; simpl; [lia|]. rewrite length_app. simpl. lia.
Qed.




(** ** Short option clusters *)

Lemma bind_ret {A} (m : outcome A) : (m ≫= λ x, Ok x) = m.
Proof. by destruct m. Qed.

(** C6.  At a character of a cluster that names the option [opt], and
    once the check of mutual exclusivity has passed: an option without
    argument is executed and the scan goes on in the text behind it; an
    option with an argument takes the text behind it, when there is some,
    as its value, and the scan of the token stops; an option that requires
    an argument and has no text behind it takes the next token of the
    argument vector, and fails fatally when that is the terminating NULL.
    With the options -a (flag), -b VALUE and -v/--verbose (counter), the
    command line -abVALUE --verbose -v sets the flag of -a, stores "VALUE"
    for -b and leaves the counter at 2. *)
Theorem short_option_cluster gmax :
  (∀ group opts ch rest opt st st1,
     find_short ch opts = Some opt →
     check_mutual_exclusivity gmax opt st = Ok st1 →
     (arg_name opt = None →
      execute_short_option_loop gmax group opts (String ch rest) st
      = (st2 ← execute_option opt None st1;
         execute_short_option_loop gmax group opts rest st2))
     ∧ (is_Some (arg_name opt) → rest ≠ EmptyString →
        execute_short_option_loop gmax group opts (String ch rest) st
        = execute_option opt (Some rest) st1)
     ∧ (requires_arg opt = true → rest = EmptyString →
        ∀ tok, arg_at (S (args_index st1)) st1 = Ok (Some tok) →
        execute_short_option_loop gmax group opts (String ch rest) st
        = execute_option opt (Some tok) (set_args_index (S (args_index st1)) st1))
     ∧ (requires_arg opt = true → rest = EmptyString →
        arg_at (S (args_index st1)) st1 = Ok None →
        execute_short_option_loop gmax group opts (String ch rest) st
        = Fatal (ShortOptionRequiresArgument ch)))
  ∧ (∃ st',
       optparse_parse gmax 20 (Some sample_cmd)
         (argv_of "prog" ["-abVALUE"; "--verbose"; "-v"]) (initial_pstate empty_mem)
       = Ok st'
       ∧ mem_flags (memory st') !! 0 = Some 1%Z
       ∧ mem_storage (memory st') !! 1 = Some (CellValue (VStr "VALUE"))
       ∧ mem_flags (memory st') !! 2 = Some 2%Z
       ∧ argc st' = 1).
Proof.
  split.
  - intros group opts ch rest opt st st1 Hfind Hme. split_and!.
    + intros Hname. cbn [execute_short_option_loop]. rewrite Hfind, Hme. simpl.
      unfold requires_arg. rewrite Hname. by destruct rest.
    + intros [an Hname] Hrest. cbn [execute_short_option_loop].
      rewrite Hfind, Hme. simpl. rewrite Hname.
      destruct rest; [done|]. simpl. apply bind_ret.
    + intros Hreq -> tok Hnext. cbn [execute_short_option_loop].
      rewrite Hfind, Hme. simpl. rewrite Hreq. unfold next_arg. simpl.
      change (arg_at ?i (set_args_index _ st1)) with (arg_at i st1).
      rewrite Hnext. simpl. first [apply bind_ret|reflexivity].
    + intros Hreq -> Hnext. cbn [execute_short_option_loop].
      rewrite Hfind, Hme. simpl. rewrite Hreq. unfold next_arg. simpl.
      change (arg_at ?i (set_args_index _ st1)) with (arg_at i st1).
      by rewrite Hnext.
  - eexists. by_running.
Qed.

Lemma short_option_cluster_witness :
  let st := parse_init sample_cmd
              (set_args (Some (argv_of "prog" ["-ab"; "VALUE"])) (initial_pstate empty_mem)) in
  ∃ st', execute_short_option_loop 8 "-ab" sample_options "b" st = Ok st'
         ∧ mem_storage (memory st') !! 1 = Some (CellValue (VStr "VALUE"))
         ∧ args_index st' = 2.
Proof.
  intros st.
  destruct (short_option_cluster 8) as [Hgen _].
  destruct (Hgen "-ab" sample_options "b"%char EmptyString
              (arg_opt "b" None "VALUE" DATA_TYPE_STR 1) st st eq_refl eq_refl)
    as (_ & _ & Hnext & _).
  rewrite (Hnext eq_refl eq_refl "VALUE" eq_refl).
  eexists. by_running.
Defined.

(** ** Long options *)

Lemma split_eq_attached n v :
  no_eq n = true → split_eq (n +:+ String "=" v) = (n, Some v).
Proof.
  unfold no_eq. induction n as [|c n IH]; [done|].
  cbn [all_chars]. intros [Hc Hn]%andb_prop.
  change (String c n +:+ String "=" v) with (String c (n +:+ String "=" v)).
  cbn [split_eq]. apply negb_true_iff in Hc. rewrite Hc. by rewrite IH.
Qed.

Lemma split_eq_plain n : no_eq n = true → split_eq n = (n, None).
Proof.
  unfold no_eq. induction n as [|c n IH]; [done|].
  cbn [all_chars split_eq]. intros [Hc Hn]%andb_prop.
  apply negb_true_iff in Hc. rewrite Hc. by rewrite IH.
Qed.

Lemma find_long_None n opts :
  find_long n opts = None ↔ ∀ opt, opt ∈ opts → long_name opt ≠ Some n.
Proof.
  induction opts as [|o opts IH]; simpl.
  - split; [|done]. intros _ opt Hin. by apply elem_of_nil in Hin.
  - case_bool_decide as Hl.
    + split; [done|]. intros Hall. exfalso. apply (Hall o); [by left|done].
    + rewrite IH. split.
      * intros Hall opt [->|Hin]%elem_of_cons; auto.
      * intros Hall opt Hin. apply Hall. by right.
Qed.

Lemma execute_long_option_loop_find gmax n arg opts st :
  execute_long_option_loop gmax n arg opts st
  = match find_long n opts with
    | None => Fatal (UnknownLongOption n)
    | Some opt => execute_long_option_loop gmax n arg [opt] st
    end.
Proof.
  induction opts as [|o opts IH]; [done|].
  cbn [execute_long_option_loop find_long].
  case_bool_decide as Hl; [|done].
  cbn [execute_long_option_loop]. by rewrite bool_decide_eq_true_2.
Qed.

(** C7.  For a long-option token split at its first '=' into a name and an
    attached value: if the option array is absent or no descriptor has that
    long name, the parse fails with the unknown-option error; for the
    first descriptor with that name, once the check of mutual exclusivity
    has passed: an attached value with a descriptor that takes no argument
    fails with the unwanted-option-argument error; without an attached value
    a descriptor that requires an argument takes the next token of the
    argument vector as the value, and fails with the requires-an-argument
    error when that is the terminating NULL. *)
Theorem long_option_errors gmax :
  (∀ tok st, execute_long_option gmax tok None st = Fatal (UnknownLongOption tok))
  ∧ (∀ tok n arg opts st,
       split_eq tok = (n, arg) →
       (∀ opt, opt ∈ opts → long_name opt ≠ Some n) →
       execute_long_option gmax tok (Some opts) st = Fatal (UnknownLongOption n))
  ∧ (∀ tok n arg opts opt st st1,
       split_eq tok = (n, arg) → find_long n opts = Some opt →
       check_mutual_exclusivity gmax opt st = Ok st1 →
       (∀ v, arg = Some v → arg_name opt = None →
             execute_long_option gmax tok (Some opts) st
             = Fatal (UnwantedOptionArgument v))
       ∧ (arg = None → requires_arg opt = true →
          ∀ t, arg_at (S (args_index st1)) st1 = Ok (Some t) →
          execute_long_option gmax tok (Some opts) st
          = execute_option opt (Some t) (set_args_index (S (args_index st1)) st1))
       ∧ (arg = None → requires_arg opt = true →
          arg_at (S (args_index st1)) st1 = Ok None →
          execute_long_option gmax tok (Some opts) st
          = Fatal (LongOptionRequiresArgument n)))
  ∧ (∀ n v, no_eq n = true → split_eq (n +:+ String "=" v) = (n, Some v))
  ∧ (∀ n, no_eq n = true → split_eq n = (n, None)).
Proof.
  split_and!.
  - done.
  - intros tok n arg opts st Hsplit Hnone. unfold execute_long_option.
    rewrite Hsplit, execute_long_option_loop_find.
    by rewrite (proj2 (find_long_None n opts) Hnone).
  - intros tok n arg opts opt st st1 Hsplit Hfind Hme.
    assert (long_name opt = Some n) as Hname.
    { clear -Hfind. induction opts as [|o opts IH]; [done|]. simpl in Hfind.
      case_bool_decide; [by injection Hfind as <-|auto]. }
    assert (execute_long_option gmax tok (Some opts) st
            = execute_long_option_loop gmax n arg [opt] st) as ->.
    { unfold execute_long_option.
      by rewrite Hsplit, execute_long_option_loop_find, Hfind. }
    cbn [execute_long_option_loop]. rewrite bool_decide_eq_true_2 by done.
    rewrite Hme. cbn [mbind outcome_bind]. split_and!.
    + intros v -> Han. by rewrite Han.
    + intros -> Hreq t Hnext. rewrite Hreq. unfold next_arg. simpl.
      change (arg_at ?i (set_args_index _ st1)) with (arg_at i st1).
      rewrite Hnext. simpl. first [apply bind_ret|reflexivity].
    + intros -> Hreq Hnext. rewrite Hreq. unfold next_arg. simpl.
      change (arg_at ?i (set_args_index _ st1)) with (arg_at i st1).
      by rewrite Hnext.
  - apply split_eq_attached.
  - apply split_eq_plain.
Qed.

Lemma long_option_errors_witness :
  let st := parse_init sample_cmd
              (set_args (Some (argv_of "prog" ["--verbose=1"])) (initial_pstate empty_mem)) in
  execute_long_option 8 "verbose=1" (Some sample_options) st
  = Fatal (UnwantedOptionArgument "1")
  ∧ execute_long_option 8 "color" (Some sample_options) st
    = Fatal (UnknownLongOption "color").
Proof.
  intros st. destruct (long_option_errors 8) as (_ & Hunknown & Hfound & _).
  split.
  - destruct (Hfound "verbose=1" "verbose" (Some "1") sample_options
                (flag_opt "v" (Some "verbose") 2 FLAG_TYPE_INCREMENT 0) st st
                eq_refl eq_refl eq_refl) as (Hunwanted & _).
    apply (Hunwanted "1" eq_refl eq_refl).
  - apply (Hunknown "color" "color" None sample_options st eq_refl).
    intros opt Hin. unfold sample_options in Hin.
    repeat (apply elem_of_cons in Hin as [->|Hin]; [discriminate|]).
    by apply elem_of_nil in Hin.
Defined.

(** ** Worked examples for the vector and the operand callback *)

Lemma flag_opt_forward c l p ft g : opt_forward (flag_opt c l p ft g).
Proof. intros f a m Hf. discriminate. Qed.

Lemma git_cmd_forward : cmd_forward git_cmd.
Proof.
  constructor; [done|]. intros subs [= <-]. constructor; [|done].
  constructor; [done|]. intros subs [= <-]. constructor; [|done].
  constructor; [|done]. intros opts [= <-].
  constructor; [apply flag_opt_forward|done].
Qed.


(** The route of the example: the walk ends in "add" with the operands
    "origin" and "http://x". *)
Lemma subcommand_route :
  ∃ st1,
    parse_loop 8 20 git_cmd false
      (parse_init git_cmd
         (set_args (Some (argv_of "prog" ["remote"; "add"; "origin"; "http://x"]))
            (initial_pstate empty_mem)))
    = Ok (add_cmd, st1)
    ∧ argc st1 = 3
    ∧ take 3 (default [] (args st1)) = [Some "prog"; Some "origin"; Some "http://x"].
Proof. eexists. by_running. Qed.


Lemma terminal_callback_shift_witness :
  ∃ argv st0 t,
    optparse_parse 8 20 (Some echo_cmd) (argv_of "prog" ["-a"; "x"; "y"])
      (initial_pstate empty_mem)
    = run_cb (first_operand_cb (argc st0) argv (memory st0)) st0
    ∧ args_index st0 = 0
    ∧ argv !! 1 = Some t
    ∧ optparse_shift st0 = Ok (t, set_args_index 1 st0).
Proof.
  edestruct (terminal_callback_shift 8 20 echo_cmd "prog"
               ((Some <$> ["-a"; "x"; "y"]) ++ [None]) (initial_pstate empty_mem))
    as (argv & st0 & t & Hrun & _ & Hi & _ & _ & _ & Ht & Hshift & _).
  - discriminate.
  - vm_compute; reflexivity.
  - reflexivity.
  - exists argv, st0, t. split_and!; [exact Hrun|exact Hi|exact Ht|exact Hshift].
Defined.

(** The run of the same example: the callback's [optparse_shift] has
    returned the first operand, "x". *)
Lemma terminal_callback_first_operand :
  ∃ st',
    optparse_parse 8 20 (Some echo_cmd) (argv_of "prog" ["-a"; "x"; "y"])
      (initial_pstate empty_mem) = Ok st'
    ∧ mem_storage (memory st') !! 7 = Some (CellValue (VStr "x"))
    ∧ args_index st' = 1.
Proof. eexists. by_running. Qed.

(* ===================================================================== *)
(** * 15. Properties of the word wrapper [blockprint] *)
(* ===================================================================== *)

(** What the scan of a line has seen when it ends. *)
Lemma scan_line_spec s : ∀ n w,
  match scan_line s n w with
  | ScanNewline m =>
      ∃ k, m = n + S k ∧ s !! k = Some newline ∧ (newline ∉ take k s)
           ∧ (Z.of_nat (n + k) ≤ w)%Z
  | ScanEnd => (newline ∉ s) ∧ (Z.of_nat (n + length s) ≤ w)%Z
  | ScanWrap m =>
      ∃ k, m = n + k ∧ k ≤ length s ∧ (newline ∉ take k s)
           ∧ (w < Z.of_nat m)%Z ∧ (Z.of_nat n ≤ w → Z.of_nat m = w + 1)%Z
           ∧ ((w < Z.of_nat n)%Z → k = 0)
  end.
Proof.
  induction s as [|c s IH]; intros n w; simpl.
  - destruct (Z.leb_spec (Z.of_nat n) w).
    + split; [by intros ?%elem_of_nil|]. simpl. lia.
    + exists 0. simpl. split_and!; try lia. by intros ?%elem_of_nil.
  - destruct (Z.leb_spec (Z.of_nat n) w).
    + destruct (Ascii.eqb_spec c newline) as [->|Hc].
      * exists 0. simpl. split_and!; try done; try lia. by intros ?%elem_of_nil.
      * specialize (IH (S n) w). destruct (scan_line s (S n) w).
        -- destruct IH as (k & -> & Hk & Hno & Hw).
           exists (S k). simpl. split_and!; try done; try lia.
           intros [?|?]%elem_of_cons; [congruence|done].
        -- destruct IH as [Hno Hw]. split; [|simpl; lia].
           intros [?|?]%elem_of_cons; [congruence|done].
        -- destruct IH as (k & -> & Hk & Hno & Hw & Hw1 & Hw0).
           exists (S k). simpl. split_and!; try lia.
           intros [?|?]%elem_of_cons; [congruence|done].
    + exists 0. simpl. split_and!; try lia. by intros ?%elem_of_nil.
Qed.

Lemma back_to_space_le str n : back_to_space str n ≤ n.
Proof. induction n; simpl; [done|]. case_bool_decide; lia. Qed.

Lemma back_over_spaces_le str n : back_over_spaces str n ≤ n.
Proof. induction n; simpl; [done|]. case_bool_decide; lia. Qed.

Lemma skip_space_length before str b2 s2 :
  skip_space before str = (b2, s2) → length s2 ≤ length str.
Proof.
  destruct str as [|c s]; simpl; [by intros [= <- <-]|].
  destruct (Ascii.eqb c space); intros [= <- <-]; simpl; lia.
Qed.

Lemma line_width_nonneg fli indent end' flp :
  (indent ≤ end')%Z → (0 ≤ line_width fli indent end' flp)%Z.
Proof.
  unfold line_width. destruct flp; [lia|].
  destruct (Z.ltb_spec end' fli); lia.
Qed.

Lemma blockprint_loop_terminates fli indent end' :
  (indent < end')%Z →
  ∀ fuel (flp : bool) before str,
    length str + (if flp then 0 else 1) < fuel →
    ∃ out, blockprint_loop fuel fli indent end' flp before str = Ok out.
Proof.
  intros Hw. induction fuel as [|fuel IH]; intros flp before str Hf; [lia|].
  cbn [blockprint_loop].
  change (if flp then (end' - indent)%Z
          else if (end' <? fli)%Z then 0%Z else (end' - fli)%Z)
    with (line_width fli indent end' flp).
  pose proof (line_width_nonneg fli indent end' flp ltac:(lia)) as Hnn.
  pose proof (scan_line_spec str 0 (line_width fli indent end' flp)) as Hs.
  destruct (scan_line str 0 _) as [n| |n].
  - destruct Hs as (k & -> & Hk & _).
    apply lookup_lt_Some in Hk.
    destruct (IH true (rev (take (0 + S k) str) ++ before) (drop (0 + S k) str))
      as [rest ->]; [rewrite length_drop; lia|].
    simpl. eauto.
  - eauto.
  - destruct Hs as (k & -> & Hk & _ & Hlt & Heq & _).
    specialize (Heq ltac:(lia)). simpl in Heq, Hlt.
    destruct (Z.ltb_spec (Z.of_nat (0 + k) - 1) 0); [simpl in *; lia|].
    set (n3 := if decide (_ = 0) then _ else _).
    destruct (skip_space _ _) as [b2 s2] eqn:Hsk.
    apply skip_space_length in Hsk. rewrite length_drop in Hsk.
    destruct (IH true b2 s2) as [rest ->]; [|simpl; eauto].
    destruct flp; [|lia].
    assert (1 ≤ n3); [|lia].
    unfold n3. case_decide as Hz; [unfold line_width; lia|lia].
Qed.

(** ** No line is longer than the block *)

Lemma fits_line room w l rest :
  newline ∉ l → length l ≤ room → fits w w rest = true →
  fits room w (l ++ newline :: rest) = true.
Proof.
  revert room. induction l as [|c l IH]; intros room Hno Hlen Hrest; simpl.
  - done.
  - destruct (Ascii.eqb_spec c newline) as [->|_].
    + exfalso. apply Hno. left.
    + simpl in Hlen. destruct room as [|room]; [lia|].
      apply IH; [|lia|done]. intros ?. apply Hno. by right.
Qed.

Lemma pad_no_newline indent : newline ∉ pad indent.
Proof. unfold pad. by intros [? _]%elem_of_replicate. Qed.

Lemma length_pad indent : length (pad indent) = Z.abs_nat indent.
Proof. unfold pad. by rewrite length_replicate. Qed.

Lemma not_elem_of_take {A} (x : A) n m (l : list A) :
  n ≤ m → x ∉ take m l → x ∉ take n l.
Proof.
  intros Hnm Hno Hin. apply Hno.
  rewrite <- (Nat.min_l n m Hnm), <- take_take in Hin.
  by apply (subseteq_take n (take m l)).
Qed.

Lemma blockprint_loop_fits fli indent end' :
  (0 ≤ indent ≤ end')%Z →
  ∀ fuel (flp : bool) before str out,
    blockprint_loop fuel fli indent end' flp before str = Ok out →
    fits (if flp then Z.to_nat end' else first_line_room fli end')
         (Z.to_nat end') out = true.
Proof.
  intros Hw. induction fuel as [|fuel IH]; intros flp before str out Hrun; [done|].
  cbn [blockprint_loop] in Hrun.
  change (if flp then (end' - indent)%Z
          else if (end' <? fli)%Z then 0%Z else (end' - fli)%Z)
    with (line_width fli indent end' flp) in Hrun.
  pose proof (line_width_nonneg fli indent end' flp ltac:(lia)) as Hnn.
  pose proof (scan_line_spec str 0 (line_width fli indent end' flp)) as Hs.
  set (room := if flp then Z.to_nat end' else first_line_room fli end').
  assert (length (if flp then pad indent else [])
          + Z.to_nat (line_width fli indent end' flp) ≤ room) as Hroom.
  { unfold room, line_width, first_line_room.
    destruct flp; [rewrite length_pad; lia|].
    destruct (Z.ltb_spec end' fli); simpl; lia. }
  clearbody room.
  assert (newline ∉ (if flp then pad indent else [])) as Hind.
  { destruct flp; [apply pad_no_newline|by intros ?%elem_of_nil]. }
  destruct (scan_line str 0 _) as [n| |n].
  - destruct Hs as (k & -> & Hk & Hno & Hle).
    inv_bind Hrun as rest Hrest. injection Hrun as <-.
    apply IH in Hrest. simpl in Hrest.
    rewrite (take_S_r _ _ _ Hk), <- !app_assoc. simpl.
    rewrite app_assoc. apply fits_line; [|rewrite length_app, length_take; unfold text in *; lia|done].
    intros [?|?]%elem_of_app; done.
  - destruct Hs as [Hno Hle]. injection Hrun as <-.
    rewrite app_assoc. apply fits_line; [|rewrite length_app; unfold text in *; lia|done].
    intros [?|?]%elem_of_app; done.
  - destruct Hs as (k & -> & Hk & Hno & Hlt & Heq & _).
    specialize (Heq ltac:(lia)). simpl in Heq, Hlt.
    destruct (Z.ltb_spec (Z.of_nat (0 + k) - 1) 0); [simpl in *; lia|].
    set (n3 := if decide (_ = 0) then _ else _) in Hrun.
    assert (n3 ≤ Z.to_nat (line_width fli indent end' flp)) as Hn3.
    { unfold n3. case_decide; [lia|].
      etrans; [apply back_over_spaces_le|].
      etrans; [apply back_to_space_le|]. simpl. lia. }
    destruct (skip_space _ _) as [b2 s2].
    inv_bind Hrun as rest Hrest. injection Hrun as <-.
    apply IH in Hrest. simpl in Hrest.
    rewrite app_assoc. apply fits_line; [|rewrite length_app, length_take; unfold text in *; lia|done].
    intros [?|?]%elem_of_app; [done|].
    eapply (not_elem_of_take _ n3 k); [simpl in *; lia|done..].
Qed.

(** ** No visible character is lost *)

Lemma filter_visible_pad indent : List.filter visible (pad indent) = [].
Proof. unfold pad. induction (Z.abs_nat indent); simpl; done. Qed.

Lemma skip_space_visible before str b2 s2 :
  skip_space before str = (b2, s2) →
  List.filter visible s2 = List.filter visible str.
Proof.
  destruct str as [|c s]; simpl; [by intros [= <- <-]|].
  destruct (Ascii.eqb_spec c space) as [->|]; intros [= <- <-]; done.
Qed.

Lemma filter_visible_take_drop n (str : text) :
  List.filter visible (take n str) ++ List.filter visible (drop n str)
  = List.filter visible str.
Proof. by rewrite <- List.filter_app, take_drop. Qed.

Lemma blockprint_loop_visible fli indent end' :
  (indent ≤ end')%Z →
  ∀ fuel (flp : bool) before str out,
    blockprint_loop fuel fli indent end' flp before str = Ok out →
    List.filter visible out = List.filter visible str.
Proof.
  intros Hw. induction fuel as [|fuel IH]; intros flp before str out Hrun; [done|].
  cbn [blockprint_loop] in Hrun.
  change (if flp then (end' - indent)%Z
          else if (end' <? fli)%Z then 0%Z else (end' - fli)%Z)
    with (line_width fli indent end' flp) in Hrun.
  pose proof (line_width_nonneg fli indent end' flp ltac:(lia)) as Hnn.
  pose proof (scan_line_spec str 0 (line_width fli indent end' flp)) as Hs.
  unfold text in *.
  assert (List.filter visible (if flp then pad indent else []) = []) as Hind.
  { destruct flp; [apply filter_visible_pad|done]. }
  destruct (scan_line str 0 _) as [n| |n].
  - inv_bind Hrun as rest Hrest. injection Hrun as <-.
    apply IH in Hrest.
    by rewrite !List.filter_app, Hind, Hrest, filter_visible_take_drop.
  - injection Hrun as <-. rewrite !List.filter_app, Hind. simpl.
    by rewrite app_nil_r.
  - destruct Hs as (k & -> & Hk & Hno & Hlt & Heq & _).
    specialize (Heq ltac:(lia)). simpl in Heq, Hlt.
    destruct (Z.ltb_spec (Z.of_nat (0 + k) - 1) 0); [simpl in *; lia|].
    set (n3 := if decide (_ = 0) then _ else _) in Hrun.
    destruct (skip_space _ _) as [b2 s2] eqn:Hsk.
    apply skip_space_visible in Hsk.
    inv_bind Hrun as rest Hrest. injection Hrun as <-.
    apply IH in Hrest.
    rewrite !List.filter_app, Hind. simpl. rewrite Hrest, Hsk.
    apply filter_visible_take_drop.
Qed.

(** ** A text that fits *)

Lemma scan_line_end s : ∀ n w,
  newline ∉ s → (Z.of_nat (n + length s) ≤ w)%Z → scan_line s n w = ScanEnd.
Proof.
  induction s as [|c s IH]; intros n w Hno Hle; simpl in *.
  - destruct (Z.leb_spec (Z.of_nat n) w); [done|lia].
  - destruct (Z.leb_spec (Z.of_nat n) w); [|lia].
    destruct (Ascii.eqb_spec c newline) as [->|_].
    + exfalso. apply Hno. left.
    + apply IH; [|lia]. intros ?. apply Hno. by right.
Qed.

(** ** The properties of [blockprint] *)

(** X1.  [blockprint] returns whenever the block leaves room for at least
    one character per line ([indent < end]): the loop ends after at most
    one turn per character of the text and one more, whatever the text and
    the column the first line starts at. *)
Theorem blockprint_terminates str fli indent end' fuel :
  (indent < end')%Z → length (default [] str) + 1 < fuel →
  ∃ out, blockprint fuel str fli indent end' = Ok out.
Proof.
  intros Hw Hf. destruct str as [[|c s]|]; simpl; [by eauto| |by eauto].
  apply blockprint_loop_terminates; [done|]. simpl in *. lia.
Qed.

Lemma blockprint_terminates_witness :
  ∃ out, blockprint 50 (Some (text_of "the quick brown fox jumps")) 0 2 12
         = Ok out.
Proof. apply blockprint_terminates; [lia|simpl; lia]. Defined.

Lemma back_to_space_visible str n :
  forallb visible str = true → back_to_space str n = 0.
Proof.
  intros Hv. induction n as [|n IH]; simpl; [done|].
  case_bool_decide as Hsp; [|done].
  apply list_elem_of_lookup_2 in Hsp.
  rewrite forallb_forall in Hv. apply list_elem_of_In, Hv in Hsp. done.
Qed.

Lemma scan_line_wrap s : ∀ n w,
  forallb visible s = true → (Z.of_nat n ≤ w + 1)%Z →
  (w < Z.of_nat (n + length s))%Z →
  scan_line s n w = ScanWrap (Z.to_nat (w + 1)).
Proof.
  induction s as [|c s IH]; intros n w Hv Hn Hlen; simpl in *.
  - destruct (Z.leb_spec (Z.of_nat n) w); [lia|]. f_equal. lia.
  - apply andb_true_iff in Hv as [Hc Hv].
    destruct (Z.leb_spec (Z.of_nat n) w).
    + destruct (Ascii.eqb_spec c newline) as [->|_]; [done|].
      apply IH; [done|lia|lia].
    + f_equal. lia.
Qed.

Lemma scan_line_beyond s n w :
  (w < Z.of_nat n)%Z → scan_line s n w = ScanWrap n.
Proof. intros Hw. destruct s; simpl; destruct (Z.leb_spec (Z.of_nat n) w); done || lia. Qed.

Lemma blockprint_loop_stuck fli end' c s :
  visible c = true →
  ∀ fuel before, blockprint_loop fuel fli end' end' true before (c :: s) = OutOfFuel.
Proof.
  intros Hc. induction fuel as [|fuel IH]; intros before; [done|].
  cbn [blockprint_loop]. rewrite Z.sub_diag. cbn [scan_line].
  change (Z.of_nat 0 <=? 0)%Z with true. cbv iota.
  destruct (Ascii.eqb_spec c newline) as [->|_]; [done|].
  rewrite scan_line_beyond by lia.
  change (Z.of_nat 1 - 1 <? 0)%Z with false. cbv iota.
  change (Z.to_nat (Z.of_nat 1 - 1)) with 0.
  cbn [back_to_space back_over_spaces]. rewrite decide_True by done.
  change (Z.to_nat 0) with 0. cbn [take drop rev app skip_space].
  destruct (Ascii.eqb_spec c space) as [->|_]; [done|].
  by rewrite IH.
Qed.

(** X2.  [blockprint] does not return when the later lines have no width
    ([indent = end]) and the text, made of visible characters only, is
    longer than the first line: after the first line every turn of the loop
    writes an empty line and leaves the text where it is. *)
Theorem blockprint_zero_width_never_returns fuel str fli end' :
  forallb visible str = true → first_line_room fli end' < length str →
  blockprint fuel (Some str) fli end' end' = OutOfFuel.
Proof.
  intros Hv Hlen.
  assert (blockprint fuel (Some str) fli end' end'
          = blockprint_loop fuel fli end' end' false [] str) as ->.
  { destruct str; [simpl in Hlen; lia|done]. }
  destruct fuel as [|fuel]; [done|].
  cbn [blockprint_loop].
  set (w := if (end' <? fli)%Z then 0%Z else (end' - fli)%Z).
  assert (Z.to_nat w = first_line_room fli end' ∧ (0 ≤ w)%Z) as [Hw Hw0].
  { unfold w, first_line_room. destruct (Z.ltb_spec end' fli); split; lia. }
  rewrite (scan_line_wrap str 0 w) by (simpl; done || lia).
  replace (Z.of_nat (Z.to_nat (w + 1)) - 1)%Z with w by lia.
  destruct (Z.ltb_spec w 0); [lia|].
  rewrite back_to_space_visible by done. simpl.
  destruct (drop (Z.to_nat w) str) as [|c s] eqn:Hd.
  { apply (f_equal length) in Hd. rewrite length_drop in Hd. simpl in Hd. lia. }
  assert (visible c = true) as Hc.
  { rewrite forallb_forall in Hv. apply Hv, list_elem_of_In.
    rewrite <- (take_drop (Z.to_nat w) str), Hd.
    apply elem_of_app. right. left. }
  unfold skip_space.
  destruct (Ascii.eqb_spec c space) as [->|_]; [done|].
  by rewrite blockprint_loop_stuck.
Qed.

Lemma blockprint_zero_width_never_returns_witness :
  blockprint 1000 (Some (text_of "abcdefghijklmnop")) 0 12 12 = OutOfFuel.
Proof.
  apply blockprint_zero_width_never_returns; [reflexivity|].
  unfold first_line_room, text_of. simpl. lia.
Defined.

(** X3.  No line that [blockprint] writes ends behind the column [end]:
    for [0 <= indent <= end], what is written fits into the room left on
    the first line ([end - first_line_indent] characters, none when the
    first line has started behind [end]) and into [end] characters on every
    later line, indentation included. *)
Theorem blockprint_line_width fuel str fli indent end' out :
  (0 ≤ indent ≤ end')%Z →
  blockprint fuel str fli indent end' = Ok out →
  fits (first_line_room fli end') (Z.to_nat end') out = true.
Proof.
  intros Hw Hrun. destruct str as [[|c s]|]; simpl in Hrun;
    [by injection Hrun as <-| |by injection Hrun as <-].
  by apply (blockprint_loop_fits fli indent end' Hw) in Hrun.
Qed.

Lemma blockprint_line_width_witness :
  ∃ out, blockprint 50 (Some (text_of "the quick brown fox jumps")) 4 2 12
         = Ok out
         ∧ fits 8 12 out = true.
Proof.
  eexists. split; [vm_compute; reflexivity|].
  apply (blockprint_line_width 50
           (Some (text_of "the quick brown fox jumps")) 4 2 12);
    [lia|vm_compute; reflexivity].
Defined.

(** X4.  Word wrapping loses nothing that shows: for [indent <= end], the
    visible characters written (all but spaces and newlines) are those of
    the text, in the same order; only spaces and line breaks are added or
    dropped, also where a word longer than the line is cut. *)
Theorem blockprint_keeps_text fuel str fli indent end' out :
  (indent ≤ end')%Z →
  blockprint fuel (Some str) fli indent end' = Ok out →
  List.filter visible out = List.filter visible str.
Proof.
  intros Hw Hrun. destruct str as [|c s]; simpl in Hrun;
    [by injection Hrun as <-|].
  by apply (blockprint_loop_visible fli indent end' Hw) in Hrun.
Qed.

Lemma blockprint_keeps_text_witness :
  ∃ out, blockprint 50 (Some (text_of "ab   cdefghijklmnop q")) 0 2 7
         = Ok out
         ∧ List.filter visible out = text_of "abcdefghijklmnopq".
Proof.
  eexists. split; [vm_compute; reflexivity|].
  rewrite (blockprint_keeps_text 50
             (text_of "ab   cdefghijklmnop q") 0 2 7);
    [reflexivity|lia|vm_compute; reflexivity].
Defined.

(* ===================================================================== *)
(** * 16. Properties of the buffer printer and of the option table *)
(* ===================================================================== *)

(** X5.  [bprintf] never writes outside the buffer and never fails: the
    text of a buffer that is properly terminated stays shorter than
    OPTPARSE_PRINT_BUFFER_SIZE, what was in the buffer stays, what is added
    is the formatted text or, when that does not fit, the part of it that
    fills the buffer; the value returned is the length of the formatted text
    whether it was cut or not. *)
Theorem bprintf_bounded size buffer s :
  (Z.of_nat (length buffer) < size)%Z →
  ∃ buffer',
    bprintf size buffer s = Ok (Z.of_nat (length s), buffer')
    ∧ (Z.of_nat (length buffer') < size)%Z
    ∧ buffer `prefix_of` buffer' ∧ buffer' `prefix_of` buffer ++ s
    ∧ ((Z.of_nat (length buffer + length s) < size)%Z → buffer' = buffer ++ s)
    ∧ (buffer' ≠ buffer ++ s → Z.of_nat (length buffer') = (size - 1)%Z).
Proof.
  intros Hlen. unfold bprintf.
  destruct (Z.ltb_spec (Z.of_nat (length buffer)) size); [|lia].
  set (room := Z.to_nat (size - Z.of_nat (length buffer) - 1)).
  exists (buffer ++ take room s). split_and!.
  - done.
  - rewrite length_app, length_take. lia.
  - by apply prefix_app_r.
  - apply prefix_app, prefix_take.
  - intros Hfit. by rewrite take_ge by lia.
  - intros Hcut. rewrite length_app, length_take.
    destruct (decide (length s ≤ room)) as [Hle|Hgt]; [|lia].
    by rewrite take_ge in Hcut by done.
Qed.

Lemma bprintf_bounded_witness :
  ∃ buffer',
    bprintf 8 (text_of "Usage:") (text_of " prog") = Ok (5%Z, buffer')
    ∧ buffer' = text_of "Usage: ".
Proof.
  destruct (bprintf_bounded 8 (text_of "Usage:") (text_of " prog"))
    as (buffer' & Hrun & _); [simpl; lia|].
  exists buffer'. split; [exact Hrun|].
  vm_compute in Hrun. by injection Hrun as <-.
Defined.

Lemma strlen_nonneg s : (0 ≤ strlen s)%Z.
Proof. unfold strlen. lia. Qed.

Lemma names_width_le indentation unique opt :
  (names_width indentation unique opt ≤ names_arg_width indentation unique opt)%Z.
Proof.
  unfold names_arg_width. cbv zeta.
  destruct (arg_name opt) as [a|]; [|lia].
  pose proof (strlen_nonneg a).
  destruct (Ascii.eqb _ _); [destruct (long_name opt)|]; lia.
Qed.

Lemma shown_cons opt h opts :
  shown ((opt, h) :: opts) = if hidden h then shown opts else opt :: shown opts.
Proof. unfold shown. simpl. by destruct (hidden h). Qed.

Lemma divider_loop_max indentation max_divider unique opts : ∀ d,
  (0 ≤ d)%Z →
  divider_loop indentation max_divider unique opts d
  = Z.max d (foldr Z.max 0%Z (names_arg_width indentation unique <$> shown opts)).
Proof.
  induction opts as [|[opt h] opts IH]; intros d Hd.
  - simpl. lia.
  - cbn [divider_loop]. rewrite shown_cons.
    destruct (hidden h); [by apply IH|].
    pose proof (names_width_le indentation unique opt).
    rewrite fmap_cons. cbn [foldr].
    set (F := foldr Z.max 0%Z _) in *.
    set (nw := names_width indentation unique opt) in *.
    set (naw := names_arg_width indentation unique opt) in *.
    destruct (Z.ltb_spec d nw), (Z.leb_spec nw max_divider); cbn [andb];
      (rewrite IH; [|repeat case_match; lia]);
      match goal with
      | |- context [(?a <? ?b)%Z] => destruct (Z.ltb_spec a b)
      end; lia.
Qed.

Lemma foldr_max_nonneg l : (0 ≤ foldr Z.max 0 l)%Z.
Proof. induction l as [|x l IH]; simpl; lia. Qed.

(** X6.  The divider of the option table: the column that [print_options]
    computes for the descriptions is the width of the widest shown option
    with its argument name, cut at OPTPARSE_HELP_MAX_DIVIDER_WIDTH (and 0
    when nothing is shown).  The step that snaps the divider to the width
    of the names alone has no bearing on the result. *)
Theorem divider_width_closed_form indentation max_divider unique opts :
  print_options_divider_width indentation max_divider unique opts
  = Z.min max_divider
      (foldr Z.max 0%Z (names_arg_width indentation unique <$> shown opts)).
Proof.
  unfold print_options_divider_width. rewrite divider_loop_max by done.
  set (F := foldr Z.max 0%Z _).
  assert (0 ≤ F)%Z by apply foldr_max_nonneg.
  destruct (Z.ltb_spec max_divider (Z.max 0 F)); lia.
Qed.

(** ** The option table *)

Lemma length_text_of s : length (text_of s) = String.length s.
Proof. induction s; simpl; auto. Qed.

Lemma length_pad_char w :
  Z.of_nat (length (pad_char w)) = Z.max 1 (Z.abs w).
Proof. unfold pad_char. rewrite length_replicate. lia. Qed.

Lemma first_char_bracket a :
  Ascii.eqb (first_char a) "[" = true →
  S (length (tail (text_of a))) = String.length a.
Proof.
  destruct a as [|c a]; simpl; [done|]. intros _. by rewrite length_text_of.
Qed.

(** X7.  [print_options] measures the name column twice: the first pass
    adds the numbers up, the second counts what [fprintf] wrote.  The two
    agree up to the indentation: [fprintf] with ["%*c"] writes at least the
    character, so both passes agree exactly when the indentation width is
    at least 1, and the written column is 2 wider than the computed one
    when the indentation width is 0. *)
Theorem option_column_width indentation unique opt :
  Z.of_nat (length (option_column indentation unique opt))
  = (names_arg_width indentation unique opt
     + 2 * (Z.max 1 (Z.abs indentation) - indentation))%Z.
Proof.
  unfold option_column, names_arg_width, names_width, strlen.
  rewrite !length_app, !Nat2Z.inj_add, !length_pad_char.
  destruct (negb (Ascii.eqb (short_name opt) zero)), (long_name opt) as [l|],
    (arg_name opt) as [a|], unique;
    try (destruct (Ascii.eqb (first_char a) "[") eqn:Ha;
         [apply first_char_bracket in Ha|]);
    rewrite ?length_app, ?length_text_of; simpl; rewrite ?length_text_of; lia.
Qed.

Lemma blockprint_ends s fli indent end' fuel :
  (indent < end')%Z → String.length s + 1 < fuel →
  ∃ out, blockprint fuel (Some (text_of s)) fli indent end' = Ok out.
Proof.
  intros Hw Hf. unfold blockprint.
  destruct (text_of s) as [|c t] eqn:Hs; [by eauto|].
  apply blockprint_loop_terminates; [done|].
  rewrite <- Hs, length_text_of. lia.
Qed.

Lemma print_option_ends indentation unique max_line floating fuel d opt h :
  (d < max_line)%Z →
  match description h with Some t => String.length t + 1 < fuel | None => True end →
  ∃ out, print_option indentation unique max_line floating fuel d opt h = Ok out.
Proof.
  intros Hd Hf. unfold print_option.
  destruct (_ <? d)%Z; destruct (description h) as [t|]; [|by eauto| |by eauto].
  all: repeat match goal with
         | |- context [if ?b then _ else _] => destruct b
         end.
  all: match goal with
       | |- context [blockprint _ _ ?a ?b ?c] =>
           destruct (blockprint_ends t a b c fuel Hd Hf) as [out ->]
       end; simpl; eauto.
Qed.

Lemma print_options_rows_ends indentation unique max_line floating fuel d opts :
  (d < max_line)%Z → longest_description opts + 1 < fuel →
  ∃ out, print_options_rows indentation unique max_line floating fuel d opts
         = Ok out.
Proof.
  intros Hd. induction opts as [|[opt h] opts IH]; intros Hf; simpl; [by eauto|].
  unfold longest_description in Hf. simpl in Hf.
  destruct (hidden h); simpl in Hf; [by apply IH|].
  match type of Hf with
  | context [foldr ?f ?z ?l] => change (foldr f z l) with (longest_description opts) in Hf
  end.
  destruct (print_option_ends indentation unique max_line floating fuel d opt h)
    as [row ->]; [done|destruct (description h); [lia|done]|].
  destruct IH as [rest ->]; [lia|]. simpl. eauto.
Qed.

(** X8.  [print_options] returns when the divider is kept left of the last
    column (OPTPARSE_HELP_MAX_DIVIDER_WIDTH < OPTPARSE_HELP_MAX_LINE_WIDTH):
    whatever the names and the descriptions of the options, the divider that
    the first pass computes leaves every description at least one column,
    and the word wrapper ends on each of them. *)
Theorem print_options_returns indentation max_divider unique max_line floating
    fuel opts :
  (max_divider < max_line)%Z → longest_description opts + 1 < fuel →
  ∃ out, print_options indentation max_divider unique max_line floating fuel opts
         = Ok out.
Proof.
  intros Hm Hf. unfold print_options.
  apply print_options_rows_ends; [|done].
  unfold print_options_divider_width.
  destruct (Z.ltb_spec max_divider (divider_loop indentation max_divider unique opts 0));
    lia.
Qed.

Lemma print_options_returns_witness :
  ∃ out,
    print_options 2 32 true 80 true 40
      [(arg_opt "b" (Some "bytes") "N" DATA_TYPE_STR 1,
        {| hidden := false; description := Some "the number of bytes" |})]
    = Ok out.
Proof. apply print_options_returns; [lia|cbv; lia]. Defined.

(* ===================================================================== *)
(** * 17. Properties of the command tree: depth, name chains, checks *)
(* ===================================================================== *)

(** ** The depth of the tree *)

Lemma initialize_subcommand_parents_eq cmd depth :
  initialize_subcommand_parents cmd depth
  = match subcommands cmd with
    | Some subs => fold_left (deeper depth) subs 0%Z
    | None => depth
    end.
Proof. by destruct cmd. Qed.

Lemma fold_deeper_ge depth subs : ∀ m,
  (m ≤ fold_left (deeper depth) subs m)%Z
  ∧ ∀ subcmd, subcmd ∈ subs →
      (initialize_subcommand_parents subcmd (depth + 1)
       ≤ fold_left (deeper depth) subs m)%Z.
Proof.
  induction subs as [|s subs IH]; intros m; simpl.
  - split; [lia|]. by intros ? ?%elem_of_nil.
  - destruct (IH (deeper depth m s)) as [Hm Hsubs].
    assert (m ≤ deeper depth m s
            ∧ initialize_subcommand_parents s (depth + 1) ≤ deeper depth m s)%Z
      as [? ?].
    { unfold deeper.
      destruct (Z.ltb_spec m (initialize_subcommand_parents s (depth + 1))); lia. }
    split; [lia|].
    intros subcmd [->|Hin]%elem_of_cons; [lia|auto].
Qed.

Lemma fold_cmd_size_le subs : ∀ n,
  n ≤ fold_left (λ n subcmd, n + cmd_size subcmd) subs n.
Proof.
  induction subs as [|s subs IH]; intros n; simpl; [done|].
  specialize (IH (n + cmd_size s)). lia.
Qed.

Lemma fold_cmd_size_ge subs : ∀ n subcmd,
  subcmd ∈ subs →
  cmd_size subcmd ≤ fold_left (λ n subcmd, n + cmd_size subcmd) subs n.
Proof.
  induction subs as [|s subs IH]; intros n subcmd Hin;
    [by apply elem_of_nil in Hin|].
  simpl. apply elem_of_cons in Hin as [->|Hin].
  - pose proof (fold_cmd_size_le subs (n + cmd_size s)). lia.
  - by apply IH.
Qed.

Lemma cmd_size_subcmd cmd subs subcmd :
  subcommands cmd = Some subs → subcmd ∈ subs → cmd_size subcmd < cmd_size cmd.
Proof.
  intros Hs Hin. destruct cmd as [n o s f]. simpl in Hs. subst s.
  cbn [cmd_size subcommands].
  pose proof (fold_cmd_size_ge subs 0 subcmd Hin). lia.
Qed.

Lemma nonempty_arrays_subcmd cmd subs subcmd :
  nonempty_arrays cmd = true → subcommands cmd = Some subs → subcmd ∈ subs →
  subs ≠ [] ∧ nonempty_arrays subcmd = true.
Proof.
  intros Hne Hs Hin. destruct cmd as [n o s f]. simpl in Hs. subst s.
  cbn [nonempty_arrays subcommands] in Hne.
  destruct subs as [|s0 subs0]; [done|]. split; [done|].
  rewrite forallb_forall in Hne. by apply Hne, list_elem_of_In.
Qed.

(** In a tree without empty subcommand arrays the value computed is not
    below the depth the computation starts at. *)
Lemma initialize_subcommand_parents_ge n : ∀ cmd depth,
  cmd_size cmd < n → nonempty_arrays cmd = true →
  (depth ≤ initialize_subcommand_parents cmd depth)%Z.
Proof.
  induction n as [|n IH]; intros cmd depth Hn Hne; [lia|].
  rewrite initialize_subcommand_parents_eq.
  destruct (subcommands cmd) as [subs|] eqn:Hs; [|lia].
  destruct subs as [|s0 subs0].
  { destruct cmd as [? ? s ?]. simpl in Hs. subst s. done. }
  assert (s0 ∈ s0 :: subs0) as Hin by left.
  destruct (nonempty_arrays_subcmd _ _ _ Hne Hs Hin) as [_ Hne0].
  pose proof (cmd_size_subcmd _ _ _ Hs Hin) as Hsz.
  pose proof (IH s0 (depth + 1)%Z ltac:(lia) Hne0).
  destruct (fold_deeper_ge depth (s0 :: subs0) 0) as [_ Hge].
  specialize (Hge s0 Hin). lia.
Qed.

Lemma initialize_subcommand_parents_nonneg cmd depth :
  (0 ≤ depth)%Z → (0 ≤ initialize_subcommand_parents cmd depth)%Z.
Proof.
  intros Hd. rewrite initialize_subcommand_parents_eq.
  destruct (subcommands cmd) as [subs|]; [|done].
  by destruct (fold_deeper_ge depth subs 0).
Qed.

Lemma cmd_chain_cons cmd i path chain :
  cmd_chain cmd (i :: path) = Some chain →
  ∃ subs subcmd rest,
    subcommands cmd = Some subs ∧ subs !! i = Some subcmd
    ∧ cmd_chain subcmd path = Some rest ∧ chain = cmd :: rest.
Proof.
  cbn [cmd_chain]. intros H.
  destruct (subcommands cmd) as [subs|]; [|done]. simpl in H.
  destruct (subs !! i) as [subcmd|] eqn:Hi; [|done]. simpl in H.
  destruct (cmd_chain subcmd path) as [rest|] eqn:Hrest; [|done]. simpl in H.
  injection H as <-. by exists subs, subcmd, rest.
Qed.

Lemma cmd_chain_depth path : ∀ cmd depth chain,
  nonempty_arrays cmd = true → cmd_chain cmd path = Some chain →
  (depth + Z.of_nat (length chain) - 1 ≤ initialize_subcommand_parents cmd depth)%Z.
Proof.
  induction path as [|i path IH]; intros cmd depth chain Hne Hch.
  - injection Hch as <-. simpl.
    pose proof (initialize_subcommand_parents_ge (S (cmd_size cmd)) cmd depth
                  ltac:(lia) Hne). lia.
  - apply cmd_chain_cons in Hch as (subs & subcmd & rest & Hs & Hi & Hrest & ->).
    apply list_elem_of_lookup_2 in Hi.
    destruct (nonempty_arrays_subcmd _ _ _ Hne Hs Hi) as [_ Hne0].
    specialize (IH subcmd (depth + 1)%Z rest Hne0 Hrest).
    rewrite initialize_subcommand_parents_eq, Hs.
    destruct (fold_deeper_ge depth subs 0) as [_ Hge].
    specialize (Hge subcmd Hi). simpl. lia.
Qed.

(** ** The name chain *)

Lemma insert_at_length {A} (pre : list A) x y rest :
  <[length pre:=y]> (pre ++ x :: rest) = pre ++ y :: rest.
Proof.
  replace (length pre) with (length pre + 0) by lia.
  by rewrite insert_app_r.
Qed.

Lemma build_cmd_array_up_ok parents : ∀ cmd_name pre mid post,
  length mid = S (length parents) →
  build_cmd_array_up cmd_name parents (pre ++ mid ++ post) (length pre)
  = Ok (pre ++ (Some <$> cmd_name :: parents) ++ post,
        length pre + S (length parents)).
Proof.
  induction parents as [|p parents IH]; intros cmd_name pre mid post Hmid;
    destruct mid as [|m0 mid]; simpl in Hmid; try lia;
    cbn [build_cmd_array_up];
    (rewrite decide_True by (rewrite length_app; simpl; lia)).
  - destruct mid; [|done]. simpl.
    rewrite insert_at_length. do 2 f_equal. lia.
  - simpl. rewrite insert_at_length.
    replace (S (length pre)) with (length (pre ++ [Some cmd_name]))
      by (rewrite length_app; simpl; lia).
    replace (pre ++ Some cmd_name :: mid ++ post)
      with ((pre ++ [Some cmd_name]) ++ mid ++ post) by by rewrite <- app_assoc.
    rewrite IH by lia. rewrite <- !app_assoc, length_app. simpl.
    do 2 f_equal. lia.
Qed.

Lemma build_cmd_array_up_overflow parents : ∀ cmd_name cells i,
  length cells < i + S (length parents) →
  build_cmd_array_up cmd_name parents cells i = Undefined.
Proof.
  induction parents as [|p parents IH]; intros cmd_name cells i Hlen;
    cbn [build_cmd_array_up]; case_decide; try done.
  - simpl in Hlen. lia.
  - apply IH. rewrite length_insert. simpl in Hlen. lia.
Qed.

Lemma build_cmd_array_down_ok temp_array size k : ∀ done todo post,
  length done + k = size → length todo = k → k ≤ length temp_array →
  build_cmd_array_down k size temp_array (done ++ todo ++ post)
  = match post with
    | [] => Undefined
    | _ :: post' => Ok (done ++ rev (take k temp_array) ++ None :: post')
    end.
Proof.
  induction k as [|k IH]; intros done todo post Hd Ht Hk;
    cbn [build_cmd_array_down].
  - destruct todo; [|done]. simpl.
    destruct post as [|p0 post].
    + rewrite decide_False; [done|]. rewrite app_nil_r. lia.
    + rewrite decide_True by (rewrite length_app; simpl; lia).
      replace size with (length done) by lia.
      by rewrite insert_at_length.
  - destruct todo as [|t0 todo]; [done|]. simpl in Ht.
    replace (size - 1 - (size - S k)) with k by lia.
    destruct (lookup_lt_is_Some_2 temp_array k ltac:(lia)) as [t Hlook].
    rewrite Hlook.
    rewrite decide_True by (rewrite !length_app; simpl; lia).
    replace (size - S k) with (length done) by lia.
    change ((t0 :: todo) ++ post) with (t0 :: todo ++ post).
    rewrite insert_at_length.
    replace (done ++ t :: todo ++ post) with ((done ++ [t]) ++ todo ++ post)
      by by rewrite <- app_assoc.
    rewrite IH; [|rewrite length_app; simpl; lia|lia|lia].
    destruct post; [done|].
    rewrite (take_S_r _ _ _ Hlook), rev_app_distr, <- !app_assoc. done.
Qed.

Lemma fmap_rev {A B} (f : A → B) (l : list A) : f <$> rev l = rev (f <$> l).
Proof.
  induction l as [|x l IH]; [done|].
  simpl. by rewrite fmap_app, IH.
Qed.

Lemma build_cmd_array_ok subcmd_depth cmd_name parents :
  (Z.of_nat (S (length parents)) ≤ subcmd_depth)%Z →
  build_cmd_array subcmd_depth cmd_name parents
  = Ok ((Some <$> rev (cmd_name :: parents))
        ++ None :: replicate (Z.to_nat subcmd_depth - S (length parents)) None).
Proof.
  intros Hd. unfold build_cmd_array.
  destruct (Z.ltb_spec 0 (subcmd_depth + 1)); [|lia].
  set (size := S (length parents)).
  assert (replicate (Z.to_nat (subcmd_depth + 1)) (None : option string)
          = [] ++ replicate size None
               ++ replicate (S (Z.to_nat subcmd_depth - size)) None) as Hcells.
  { cbn [app]. rewrite <- replicate_add. f_equal. unfold size. lia. }
  rewrite Hcells at 1.
  rewrite (build_cmd_array_up_ok parents cmd_name [] (replicate size None))
    by by rewrite length_replicate.
  cbn [mbind outcome_bind app length Nat.add].
  rewrite Hcells.
  rewrite (build_cmd_array_down_ok _ size size [] (replicate size None));
    [|done|by rewrite length_replicate|rewrite length_app, length_fmap; simpl; lia].
  cbn [replicate app]. do 2 f_equal.
  rewrite take_app_length' by (rewrite length_fmap; done).
  by rewrite fmap_rev.
Qed.

Lemma build_cmd_array_overflow subcmd_depth cmd_name parents :
  (0 ≤ subcmd_depth < Z.of_nat (S (length parents)))%Z →
  build_cmd_array subcmd_depth cmd_name parents = Undefined.
Proof.
  intros Hd. unfold build_cmd_array.
  destruct (Z.ltb_spec 0 (subcmd_depth + 1)); [|done].
  destruct (decide (Z.to_nat (subcmd_depth + 1) = S (length parents))) as [Heq|Hne].
  - rewrite Heq.
    assert (replicate (S (length parents)) (None : option string)
            = [] ++ replicate (S (length parents)) None ++ []) as Hcells
      by by rewrite app_nil_r.
    rewrite Hcells at 1.
    rewrite (build_cmd_array_up_ok parents cmd_name []
               (replicate (S (length parents)) None))
      by by rewrite length_replicate.
    cbn [mbind outcome_bind app length Nat.add].
    rewrite Hcells.
    by rewrite (build_cmd_array_down_ok _ (S (length parents)) (S (length parents)) []
                  (replicate (S (length parents)) None));
      [|done|by rewrite length_replicate|rewrite app_nil_r, length_fmap; simpl; lia].
  - rewrite build_cmd_array_up_overflow; [done|].
    rewrite length_replicate. lia.
Qed.

Lemma cmd_chain_length path : ∀ cmd chain,
  cmd_chain cmd path = Some chain → length chain = S (length path).
Proof.
  induction path as [|i path IH]; intros cmd chain Hch.
  - by injection Hch as <-.
  - apply cmd_chain_cons in Hch as (subs & subcmd & rest & _ & _ & Hrest & ->).
    simpl. by rewrite (IH _ _ Hrest).
Qed.

(** X9.  The name array of the usage line is large enough for every
    command of a tree without empty subcommand arrays:
    [initialize_subcommand_parents], started at depth 1 in the main command,
    returns at least the number of commands on the way to any command, and
    [build_cmd_array] fills the array with the names of these commands from
    the main command down, followed by NULL. *)
Theorem usage_cmd_array_fits main_cmd path chain :
  nonempty_arrays main_cmd = true →
  cmd_chain main_cmd path = Some chain →
  (Z.of_nat (length chain) ≤ initialize_subcommand_parents main_cmd 1)%Z
  ∧ ∃ rest, usage_cmd_array main_cmd path
            = Ok ((Some <$> (name <$> chain)) ++ None :: rest).
Proof.
  intros Hne Hch.
  pose proof (cmd_chain_depth path main_cmd 1 chain Hne Hch) as Hdepth.
  split; [lia|].
  unfold usage_cmd_array. rewrite Hch.
  pose proof (cmd_chain_length _ _ _ Hch) as Hlen.
  destruct (rev (name <$> chain)) as [|cmd_name parents] eqn:Hrev.
  { apply (f_equal length) in Hrev. rewrite length_rev, length_fmap in Hrev.
    simpl in Hrev. lia. }
  assert (length parents = length path) as Hp.
  { apply (f_equal length) in Hrev. rewrite length_rev, length_fmap in Hrev.
    simpl in Hrev. lia. }
  rewrite build_cmd_array_ok by lia.
  eexists. do 2 f_equal. by rewrite <- Hrev, rev_involutive.
Qed.

Lemma usage_cmd_array_fits_witness :
  ∃ rest, usage_cmd_array git_cmd [0; 0]
          = Ok ([Some "prog"; Some "remote"; Some "add"; None] ++ rest).
Proof.
  destruct (usage_cmd_array_fits git_cmd [0; 0] [git_cmd; remote_cmd; add_cmd])
    as [_ [rest Hrun]]; [reflexivity..|].
  exists rest. exact Hrun.
Defined.

(** X10.  The depth is computed too small for a tree with an empty
    subcommand array: a command whose array is empty counts as depth 0,
    whatever depth it lies at; and whenever the value computed for the tree
    is below the number of commands on the way to a command,
    [build_cmd_array] writes outside the name array for that command.  The
    usage line of a main command with an empty subcommand array is such a
    case. *)
Theorem usage_cmd_array_overflow :
  (∀ cmd depth, subcommands cmd = Some [] →
                initialize_subcommand_parents cmd depth = 0%Z)
  ∧ (∀ main_cmd path chain,
       cmd_chain main_cmd path = Some chain →
       (initialize_subcommand_parents main_cmd 1 < Z.of_nat (length chain))%Z →
       usage_cmd_array main_cmd path = Undefined)
  ∧ (∀ main_cmd, subcommands main_cmd = Some [] →
                 usage_cmd_array main_cmd [] = Undefined).
Proof.
  assert (∀ main_cmd path chain,
       cmd_chain main_cmd path = Some chain →
       (initialize_subcommand_parents main_cmd 1 < Z.of_nat (length chain))%Z →
       usage_cmd_array main_cmd path = Undefined) as Hover.
  { intros main_cmd path chain Hch Hlt.
    unfold usage_cmd_array. rewrite Hch.
    destruct (rev (name <$> chain)) as [|cmd_name parents] eqn:Hrev; [done|].
    apply build_cmd_array_overflow.
    split; [by apply initialize_subcommand_parents_nonneg|].
    apply (f_equal length) in Hrev. rewrite length_rev, length_fmap in Hrev.
    simpl in Hrev. lia. }
  split_and!.
  - intros cmd depth Hs. by rewrite initialize_subcommand_parents_eq, Hs.
  - exact Hover.
  - intros main_cmd Hs. apply (Hover main_cmd [] [main_cmd]); [done|].
    rewrite initialize_subcommand_parents_eq, Hs. simpl. lia.
Qed.

Lemma usage_cmd_array_overflow_witness :
  usage_cmd_array
    {| name := "prog"; options := None; subcommands := Some [];
       cmd_function := None |} [] = Undefined.
Proof.
  destruct usage_cmd_array_overflow as (_ & _ & H). by apply H.
Defined.

(** ** The command chain reader *)

Lemma find_subcmd_Some tok subs subcmd :
  find_subcmd tok subs = Some subcmd →
  ∃ i, subs !! i = Some subcmd ∧ name subcmd = tok.
Proof.
  induction subs as [|s subs IH]; simpl; [done|].
  destruct (String.eqb_spec tok (name s)) as [->|_].
  - intros [= <-]. by exists 0.
  - intros (i & Hi & Hn)%IH. by exists (S i).
Qed.

Lemma cmd_chain_head cmd path chain :
  cmd_chain cmd path = Some chain → ∃ rest, chain = cmd :: rest.
Proof.
  destruct path as [|i path].
  - intros [= <-]. eauto.
  - intros (? & ? & rest & _ & _ & _ & ->)%cmd_chain_cons. eauto.
Qed.

(** X11.  The command that [read_cmd_chain] returns is reached from the
    command it starts at along a chain of subcommands whose names are, one
    by one, the leading tokens of the vector; the chain ends where the
    vector ends or at a command without subcommands, with the tokens behind
    left unread. *)
Theorem read_cmd_chain_resolves argv : ∀ cmd leaf,
  read_cmd_chain cmd argv = Ok leaf →
  ∃ path chain,
    cmd_chain cmd path = Some chain ∧ last chain = Some leaf
    ∧ (Some <$> (name <$> tail chain)) `prefix_of` argv
    ∧ (subcommands leaf = None ∨ argv !! length path = Some None).
Proof.
  induction argv as [|[tok|] argv IH]; intros cmd leaf Hrun; [done| |].
  - cbn [read_cmd_chain] in Hrun.
    destruct (subcommands cmd) as [subs|] eqn:Hs.
    + destruct (find_subcmd tok subs) as [subcmd|] eqn:Hfind; [|done].
      apply find_subcmd_Some in Hfind as (i & Hi & Hname).
      apply IH in Hrun as (path & chain & Hch & Hlast & Hpre & Hend).
      exists (i :: path), (cmd :: chain). split_and!.
      * cbn [cmd_chain]. rewrite Hs. simpl. rewrite Hi. simpl. by rewrite Hch.
      * by destruct (cmd_chain_head _ _ _ Hch) as [rest ->].
      * destruct (cmd_chain_head _ _ _ Hch) as [rest ->].
        simpl in *. rewrite Hname. by apply prefix_cons.
      * done.
    + injection Hrun as <-. exists [], [cmd]. split_and!; try done; [|by left].
      apply prefix_nil.
  - injection Hrun as <-. exists [], [cmd]. split_and!; try done; [|by right].
    apply prefix_nil.
Qed.

Lemma read_cmd_chain_resolves_witness :
  ∃ path chain,
    cmd_chain git_cmd path = Some chain ∧ last chain = Some add_cmd
    ∧ (Some <$> (name <$> tail chain))
        `prefix_of` [Some "remote"; Some "add"; Some "origin"; None]
    ∧ (subcommands add_cmd = None
       ∨ [Some "remote"; Some "add"; Some "origin"; None] !! length path = Some None).
Proof.
  apply (read_cmd_chain_resolves
           [Some "remote"; Some "add"; Some "origin"; None] git_cmd add_cmd).
  reflexivity.
Defined.

(** ** The checks of the debug build *)

Lemma check_cmd_eq groups_max cmd :
  check_cmd groups_max cmd
  = match options cmd with
    | Some opts => forallb (check_opt groups_max) opts
    | None => true
    end
    && match subcommands cmd with
       | Some subs => forallb (check_cmd groups_max) subs
       | None => true
       end.
Proof. by destruct cmd. Qed.

Lemma check_cmd_chain groups_max path : ∀ main_cmd chain cmd,
  check_cmd groups_max main_cmd = true →
  cmd_chain main_cmd path = Some chain → cmd ∈ chain →
  check_cmd groups_max cmd = true.
Proof.
  induction path as [|i path IH]; intros main_cmd chain cmd Hck Hch Hin.
  - injection Hch as <-. by apply list_elem_of_singleton in Hin as ->.
  - apply cmd_chain_cons in Hch as (subs & subcmd & rest & Hs & Hi & Hrest & ->).
    apply elem_of_cons in Hin as [->|Hin]; [done|].
    eapply IH; [|done..].
    rewrite check_cmd_eq, Hs in Hck. apply andb_true_iff in Hck as [_ Hck].
    rewrite forallb_forall in Hck.
    by apply Hck, list_elem_of_In, (list_elem_of_lookup_2 _ i).
Qed.

Lemma check_cmd_opt groups_max main_cmd opt :
  check_cmd groups_max main_cmd = true → option_of main_cmd opt →
  check_opt groups_max opt = true.
Proof.
  intros Hck (path & chain & cmd & opts & Hch & Hin & Hopts & Hopt).
  pose proof (check_cmd_chain _ _ _ _ _ Hck Hch Hin) as Hc.
  rewrite check_cmd_eq, Hopts in Hc. apply andb_true_iff in Hc as [Hc _].
  rewrite forallb_forall in Hc. by apply Hc, list_elem_of_In.
Qed.

(** X12.  What [check_cmd] secures for the groups of mutually exclusive
    options: in a command tree that passes it, every option with a positive
    group id is within the table, so running it either records it as the
    option seen in its group or is refused because the group is taken; an
    option with a negative group id passes [check_cmd] as well, and is never
    checked. *)
Theorem check_cmd_groups groups_max main_cmd opt :
  check_cmd groups_max main_cmd = true → option_of main_cmd opt →
  ((0 < group opt)%Z →
   ∀ st,
     match exclusive_opts st !! group opt with
     | None =>
         ∃ st', check_mutual_exclusivity groups_max opt st = Ok st'
                ∧ exclusive_opts st' !! group opt = Some opt
     | Some first =>
         check_mutual_exclusivity groups_max opt st
         = Fatal (MutuallyExclusive (bprint_option_name first) (bprint_option_name opt))
     end)
  ∧ ((group opt < 0)%Z →
     ∀ st, check_mutual_exclusivity groups_max opt st = Ok st).
Proof.
  intros Hck Hopt. pose proof (check_cmd_opt _ _ _ Hck Hopt) as Hc.
  unfold check_opt in Hc. rewrite !andb_true_iff in Hc.
  destruct Hc as [_ Hg]. apply orb_true_iff in Hg.
  split.
  - intros Hpos st. unfold check_mutual_exclusivity.
    assert (group opt < groups_max)%Z as Hlt by (destruct Hg; lia).
    destruct (Z.ltb_spec 0 (group opt)); [|lia].
    destruct (Z.ltb_spec (group opt) groups_max); [|lia]. simpl.
    destruct (exclusive_opts st !! group opt) as [first|]; [done|].
    eexists. split; [done|]. simpl. apply lookup_insert_eq.
  - intros Hneg st. unfold check_mutual_exclusivity.
    by destruct (Z.ltb_spec 0 (group opt)); [lia|].
Qed.

Lemma check_cmd_groups_witness :
  let b := flag_opt "b" (Some "bb") 1 FLAG_TYPE_SET_TRUE 1 in
  ∃ st', check_mutual_exclusivity 8 b (initial_pstate empty_mem) = Ok st'
         ∧ exclusive_opts st' !! 1%Z = Some b.
Proof.
  intros b.
  destruct (check_cmd_groups 8 exclusive_cmd b) as [Hpos _].
  - reflexivity.
  - exists [], [exclusive_cmd], exclusive_cmd. eexists.
    split_and!; [reflexivity|by left|reflexivity|]. right. left.
  - apply (Hpos ltac:(simpl; lia) (initial_pstate empty_mem)).
Defined.

(* ===================================================================== *)
(** * 18. Further properties of the splitter and of the option executor *)
(* ===================================================================== *)

(** ** The temporary array of [strtoarr] *)

Lemma strtoarr_array_size_fields delim s : ∀ n,
  strtoarr_array_size delim s n + 1 = n + length (fields delim s).
Proof.
  induction s as [|c s IH]; intros n; simpl; [lia|].
  rewrite IH. destruct (Libc.is_delim delim c); simpl; [lia|].
  pose proof (fields_nonnil delim s).
  destruct (fields delim s); [done|]. simpl. lia.
Qed.

Lemma length_items_le delim s :
  length (items delim s) ≤ strtoarr_array_size delim s 1.
Proof.
  pose proof (strtoarr_array_size_fields delim s 1).
  unfold items.
  pose proof (List.filter_length_le nonempty (fields delim s)). lia.
Qed.

Lemma convert_items_offsets data_type its : ∀ i arr,
  convert_items data_type i its = Ok arr →
  Forall (λ cell : Z * value,
            ∃ k, i ≤ k < i + length its
                 ∧ cell.1 = (Z.of_nat k * get_data_type_size data_type)%Z) arr.
Proof.
  induction its as [|it its IH]; intros i arr Hrun; cbn [convert_items] in Hrun.
  - by injection Hrun as <-.
  - set (r := strtox (Some it) data_type) in *.
    destruct (ret r =? 0)%Z; [|destruct (ret r =? 1)%Z; done].
    inv_bind Hrun as rest Hrest. injection Hrun as <-.
    apply IH in Hrest.
    assert (Forall (λ cell : Z * value,
              ∃ k, i ≤ k < i + length (it :: its)
                   ∧ cell.1 = (Z.of_nat k * get_data_type_size data_type)%Z) rest)
      as Hrest'.
    { eapply Forall_impl; [done|]. intros cell (k & Hk & Hc). exists k.
      simpl. split; [lia|done]. }
    destruct (stored r); [|done].
    apply Forall_cons. split; [|done]. exists i. simpl. split; [lia|done].
Qed.

Lemma get_data_type_size_nonneg data_type : (0 ≤ get_data_type_size data_type)%Z.
Proof. by destruct data_type. Qed.



(** ** Checked options and the values handed to their functions *)

Lemma convert_arg_value opt a cv :
  arg_delim opt = None → arg_data_type opt ≠ DATA_TYPE_NONE →
  convert_arg opt (Some a) = Ok cv → is_Some (conv_arg cv).
Proof.
  unfold convert_arg. intros -> Hne.
  rewrite decide_False by done.
  repeat case_match; try done. intros [= <-]. simpl.
  by apply strtox_stored.
Qed.

Lemma call_function_ext groups_max opt a cv st f g :
  check_opt groups_max opt = true →
  convert_arg opt (Some a) = Ok cv →
  (∀ x m, x ≠ ArgVal None → f x m = g x m) →
  call_function (with_function opt f) (Some a) cv st
  = call_function (with_function opt g) (Some a) cv st.
Proof.
  intros Hck Hcv Hfg.
  unfold check_opt in Hck. rewrite !andb_true_iff in Hck.
  destruct Hck as [[[[_ _] _] Hft] _].
  unfold call_function. cbn [function function_type arg_delim arg_name
    arg_data_type with_function].
  assert (∀ x, x ≠ ArgVal None →
               run_cb (f x (memory st)) st = run_cb (g x (memory st)) st) as Hcall.
  { intros x Hx. by rewrite Hfg. }
  assert (arg_delim opt = None → arg_data_type opt ≠ DATA_TYPE_NONE →
          ArgVal (conv_arg cv) ≠ ArgVal None) as Hval.
  { intros Hd Hne. destruct (convert_arg_value opt a cv Hd Hne Hcv) as [v ->].
    done. }
  destruct (function_type opt), (arg_delim opt) as [d|] eqn:Hd;
    try done; repeat case_match; try done;
    try (apply Hcall; done);
    try (apply Hcall, Hval; [done|congruence]).
  all: destruct (strtoarr _ _ _) as [[size arr]| | |]; simpl; try done.
  all: by apply Hcall.
Qed.

(** X14.  What [check_cmd] secures for the functions of the options: when
    an option of a command tree that passes it is run with an
    option-argument, its function is never handed an indeterminate value;
    the run is the same for any two functions that agree on all other
    arguments.  Without an option-argument (the optional argument left
    out) a function that takes the converted value is called all the same,
    with [conv_arg] never written. *)
Theorem checked_function_argument groups_max main_cmd opt :
  check_cmd groups_max main_cmd = true → option_of main_cmd opt →
  (∀ f g a st,
     (∀ x m, x ≠ ArgVal None → f x m = g x m) →
     execute_option (with_function opt f) (Some a) st
     = execute_option (with_function opt g) (Some a) st)
  ∧ (∀ f st,
       function_type opt = FUNCTION_TYPE_TARG →
       arg_data_type opt ≠ DATA_TYPE_NONE → arg_data_type opt ≠ DATA_TYPE_STR →
       execute_option (with_function opt f) None st
       = (st1 ← set_flag opt st; run_cb (f (ArgVal None) (memory st1)) st1)).
Proof.
  intros Hck Hopt. pose proof (check_cmd_opt _ _ _ Hck Hopt) as Hc.
  split.
  - intros f g a st Hfg. unfold execute_option.
    change (set_flag (with_function opt f) st) with (set_flag opt st).
    change (set_flag (with_function opt g) st) with (set_flag opt st).
    change (convert_arg (with_function opt f) (Some a))
      with (convert_arg opt (Some a)).
    change (convert_arg (with_function opt g) (Some a))
      with (convert_arg opt (Some a)).
    destruct (set_flag opt st) as [st1| | |]; try done.
    cbn [mbind outcome_bind].
    destruct (convert_arg opt (Some a)) as [cv| | |] eqn:Hcv; try done.
    cbn [mbind outcome_bind].
    change (store_converted (with_function opt f) (Some a) cv st1)
      with (store_converted opt (Some a) cv st1).
    change (store_converted (with_function opt g) (Some a) cv st1)
      with (store_converted opt (Some a) cv st1).
    change (store_list_size (with_function opt f) cv)
      with (store_list_size opt cv).
    change (store_list_size (with_function opt g) cv)
      with (store_list_size opt cv).
    by eapply call_function_ext.
  - intros f st Hft Hn Hs. unfold execute_option.
    change (set_flag (with_function opt f) st) with (set_flag opt st).
    destruct (set_flag opt st) as [st1| | |]; try done.
    cbn [mbind outcome_bind convert_arg store_converted].
    unfold call_function, store_list_size.
    cbn [function function_type arg_delim arg_name arg_data_type
         arg_storage_size with_function].
    rewrite Hft.
    assert (arg_delim opt = None) as ->.
    { unfold check_opt in Hc. rewrite !andb_true_iff in Hc.
      destruct Hc as [[[[_ _] _] Hd] _]. rewrite Hft in Hd.
      by destruct (arg_delim opt). }
    by destruct (arg_data_type opt).
Qed.

Lemma checked_function_argument_witness :
  execute_option
    (with_function (arg_opt "n" None "N" DATA_TYPE_INT 1) (λ _ m, CbRet m))
    (Some "7") (initial_pstate empty_mem)
  = execute_option
      (with_function (arg_opt "n" None "N" DATA_TYPE_INT 1)
         (λ x m, match x with
                 | ArgVal None => CbShift (λ _, CbRet m)
                 | _ => CbRet m
                 end))
      (Some "7") (initial_pstate empty_mem).
Proof.
  set (opt := arg_opt "n" None "N" DATA_TYPE_INT 1).
  set (cmd := {| name := "prog"; options := Some [opt]; subcommands := None;
                 cmd_function := None |}).
  refine (proj1 (checked_function_argument 8 cmd opt _ _) _ _ _ _ _).
  - vm_compute; reflexivity.
  - exists [], [cmd], cmd, [opt]. split; [reflexivity|].
    split; [apply list_elem_of_here|]. split; [reflexivity|apply list_elem_of_here].
  - intros [] m Hx; try reflexivity. destruct v; [reflexivity|congruence].
Defined.

(** ** Option-arguments of type short *)

(** X15.  An option-argument of type [short] or [unsigned short] is
    converted and range-checked but never stored: [get_data_type_size] has
    no case for the two tags and returns 0, so the copy into the storage
    destination copies nothing.  For the tags with a size, the same call
    leaves the converted value at the destination. *)
Theorem short_argument_not_stored opt a st st' :
  arg_delim opt = None → function opt = None →
  execute_option opt (Some a) st = Ok st' →
  (arg_data_type opt = DATA_TYPE_SHRT ∨ arg_data_type opt = DATA_TYPE_USHRT →
   ret (strtox (Some a) (arg_data_type opt)) = 0%Z
   ∧ mem_storage (memory st') = mem_storage (memory st))
  ∧ (∀ p, arg_storage opt = Some p →
          (0 < get_data_type_size (arg_data_type opt))%Z →
          arg_data_type opt ≠ DATA_TYPE_STR →
          ∃ v, stored (strtox (Some a) (arg_data_type opt)) = Some v
               ∧ mem_storage (memory st') !! p = Some (CellValue v)).
Proof.
  intros Hd Hf Hrun. unfold execute_option in Hrun.
  inv_bind Hrun as st1 Hflag. inv_bind Hrun as cv Hcv.
  unfold call_function in Hrun. rewrite Hf in Hrun. injection Hrun as <-.
  assert (mem_storage (memory st1) = mem_storage (memory st)) as Hst1.
  { unfold set_flag in Hflag. destruct (flag opt); [|by injection Hflag as <-].
    case_match; [|done]. by injection Hflag as <-. }
  unfold store_list_size. rewrite Hd.
  unfold convert_arg in Hcv. rewrite Hd in Hcv.
  unfold store_converted. rewrite ?Hd.
  split.
  - intros Hty.
    assert (arg_data_type opt ≠ DATA_TYPE_NONE) as Hn by (destruct Hty; congruence).
    assert (arg_data_type opt ≠ DATA_TYPE_STR) as Hs by (destruct Hty; congruence).
    assert (get_data_type_size (arg_data_type opt) = 0%Z) as Hsz
      by (by destruct Hty as [-> | ->]).
    rewrite decide_False in Hcv by done.
    destruct (strtox_ret_cases (Some a) (arg_data_type opt)) as [H0|[H1|H1]];
      [|rewrite H1 in Hcv; done..].
    split; [done|].
    destruct (arg_storage opt); [|done].
    rewrite decide_False by done. by rewrite Hsz.
  - intros p Hp Hsz Hs. rewrite Hp.
    assert (arg_data_type opt ≠ DATA_TYPE_NONE) as Hn.
    { intros Hn. by rewrite Hn in Hsz. }
    rewrite decide_False in Hcv by done.
    destruct (strtox_stored a (arg_data_type opt) Hn) as [v Hv].
    exists v. split; [done|].
    rewrite decide_False by done.
    destruct (Z.ltb_spec 0 (get_data_type_size (arg_data_type opt))); [|lia].
    set (r := strtox (Some a) (arg_data_type opt)) in *.
    destruct (ret r =? 1)%Z; [done|]. destruct (ret r =? -1)%Z; [done|].
    injection Hcv as <-. cbn [conv_arg]. rewrite Hv. simpl.
    apply lookup_insert_eq.
Qed.

Lemma short_argument_not_stored_witness :
  ∃ st', execute_option (arg_opt "s" None "N" DATA_TYPE_SHRT 1) (Some "42")
           (initial_pstate empty_mem) = Ok st'
         ∧ mem_storage (memory st') = ∅.
Proof.
  destruct (execute_option (arg_opt "s" None "N" DATA_TYPE_SHRT 1) (Some "42")
              (initial_pstate empty_mem)) as [st'| | |] eqn:E;
    [|vm_compute in E; discriminate..].
  exists st'. split; [reflexivity|].
  destruct (short_argument_not_stored (arg_opt "s" None "N" DATA_TYPE_SHRT 1) "42"
              (initial_pstate empty_mem) st' eq_refl eq_refl E) as [Hshort _].
  destruct (Hshort (or_introl eq_refl)) as [_ ->]. reflexivity.
Defined.

(** ** The cursor primitives *)

Lemma set_args_index_same st : set_args_index (args_index st) st = st.
Proof. by destruct st. Qed.

(** X16.  [optparse_unshift] undoes an [optparse_shift] that has moved:
    at a token, the shift steps to the next cell and returns it, and the
    unshift that follows steps back and returns the token.  At the
    terminating NULL the shift returns NULL without moving, and the unshift
    that follows steps back all the same: the pair then leaves the scan
    index one cell before the place it started at. *)
Theorem shift_unshift st a :
  args st = Some a →
  (∀ tok t, a !! args_index st = Some (Some tok) → a !! S (args_index st) = Some t →
     optparse_shift st = Ok (t, set_args_index (S (args_index st)) st)
     ∧ optparse_unshift (set_args_index (S (args_index st)) st) = Ok (Some tok, st))
  ∧ (∀ i t, a !! args_index st = Some None → args_index st = S i → a !! i = Some t →
       optparse_shift st = Ok (None, st)
       ∧ optparse_unshift st = Ok (t, set_args_index i st)).
Proof.
  intros Ha. split.
  - intros tok t Hcur Hnext. split.
    + unfold optparse_shift, arg_at. cbn [args args_index set_args_index].
      by rewrite !Ha, Hcur, Hnext.
    + unfold optparse_unshift, arg_at. cbn [args args_index set_args_index].
      rewrite !Ha, Hcur. cbn [mbind outcome_bind].
      by destruct st.
  - intros i t Hcur Hi Hprev. split.
    + unfold optparse_shift, arg_at. by rewrite !Ha, Hcur.
    + unfold optparse_unshift, arg_at. rewrite !Ha, Hi.
      cbn [args args_index set_args_index]. by rewrite !Ha, Hprev.
Qed.

Lemma shift_unshift_witness :
  let st := set_args_index 1 (set_args (Some (argv_of "prog" ["a"; "b"]))
                                (initial_pstate empty_mem)) in
  optparse_shift st = Ok (Some "b", set_args_index 2 st)
  ∧ optparse_unshift (set_args_index 2 st) = Ok (Some "a", st).
Proof.
  intros st.
  destruct (shift_unshift st (argv_of "prog" ["a"; "b"]) eq_refl) as [H _].
  apply (H "a" (Some "b")); reflexivity.
Defined.

(** X17.  Whatever a function of the caller does with [optparse_shift]
    and [optparse_unshift], in a vector with a NULL at or behind the scan
    index every call is defined, none moves the index behind that NULL, and
    the vector and [argc] are left as they are. *)
Theorem callback_cursor_in_vector a nul p : ∀ st,
  args st = Some a → a !! nul = Some None → args_index st ≤ nul →
  ∃ st', run_cb p st = Ok st'
         ∧ args st' = Some a ∧ argc st' = argc st ∧ args_index st' ≤ nul.
Proof.
  intros st Ha Hnul. revert st Ha.
  assert (∀ i, i ≤ nul → is_Some (a !! i)) as Hin.
  { intros i Hi. apply lookup_lt_is_Some. apply lookup_lt_Some in Hnul. lia. }
  induction p as [m|k IH|k IH]; intros st Ha Hi; simpl.
  - eauto.
  - unfold optparse_shift, arg_at. rewrite Ha.
    destruct (Hin _ Hi) as [[tok|] Hcur]; rewrite Hcur; simpl.
    + assert (args_index st < nul) as Hlt.
      { destruct (decide (args_index st = nul)) as [Heq|]; [|lia].
        rewrite Heq in Hcur. congruence. }
      rewrite Ha. destruct (Hin (S (args_index st)) Hlt) as [t ->]. simpl.
      destruct (IH t (set_args_index (S (args_index st)) st) Ha Hlt)
        as (st' & -> & ? & ? & ?). eauto.
    + destruct (IH None st Ha Hi) as (st' & -> & ? & ? & ?). eauto.
  - unfold optparse_unshift, arg_at. rewrite Ha.
    destruct (args_index st) as [|i] eqn:Hidx.
    + simpl. destruct (IH None st Ha) as (st' & -> & ? & ? & ?); [lia|]. eauto.
    + simpl. rewrite Ha. destruct (Hin i ltac:(lia)) as [t ->]. simpl.
      destruct (IH t (set_args_index i st) Ha) as (st' & -> & ? & ? & ?);
        [simpl; lia|]. eauto.
Qed.

Lemma callback_cursor_in_vector_witness :
  let st := set_args_index 1 (set_args (Some (argv_of "prog" ["a"; "b"]))
                                (initial_pstate empty_mem)) in
  ∃ st', run_cb (CbShift (λ _, CbShift (λ _, CbShift (λ _, CbRet empty_mem)))) st
         = Ok st'
         ∧ args st' = Some (argv_of "prog" ["a"; "b"]) ∧ argc st' = argc st
         ∧ args_index st' ≤ 3.
Proof.
  intros st. apply (callback_cursor_in_vector (argv_of "prog" ["a"; "b"]) 3);
    [reflexivity|reflexivity|simpl; lia].
Defined.

(** ** Clusters of one flag *)

Lemma flag_step gmax option_group opts v l p rest st old :
  find_short v opts = Some (flag_opt v l p FLAG_TYPE_INCREMENT 0) →
  default 0%Z (mem_flags (memory st) !! p) = old →
  (INT_MIN ≤ old + 1 ≤ INT_MAX)%Z →
  execute_short_option_loop gmax option_group opts (String v rest) st
  = execute_short_option_loop gmax option_group opts rest
      (set_memory {| mem_flags := <[p:=(old + 1)%Z]> (mem_flags (memory st));
                     mem_storage := mem_storage (memory st);
                     mem_sizes := mem_sizes (memory st) |} st).
Proof.
  intros Hfind Hold Hrange. cbn [execute_short_option_loop]. rewrite Hfind.
  unfold check_mutual_exclusivity. cbn [group flag_opt].
  change (0 <? 0)%Z with false. cbn [andb mbind outcome_bind arg_name flag_opt].
  assert (execute_option (flag_opt v l p FLAG_TYPE_INCREMENT 0) None st
          = Ok (set_memory {| mem_flags := <[p:=(old + 1)%Z]> (mem_flags (memory st));
                              mem_storage := mem_storage (memory st);
                              mem_sizes := mem_sizes (memory st) |} st)) as Hex.
  { unfold execute_option, set_flag. cbn [flag flag_type flag_opt]. rewrite Hold.
    destruct (Z.leb_spec INT_MIN (old + 1)); [|lia].
    destruct (Z.leb_spec (old + 1) INT_MAX); [|lia]. done. }
  destruct rest as [|c rest]; cbn [requires_arg arg_name flag_opt mbind outcome_bind];
    by rewrite Hex.
Qed.

(** X18.  A cluster that repeats the short name of a counting flag counts
    it once per occurrence: -vvv adds 3 to the flag.  Nothing else changes,
    and no token of the vector is consumed. *)
Theorem repeated_flag_counts gmax option_group opts v l p k : ∀ st old,
  find_short v opts = Some (flag_opt v l p FLAG_TYPE_INCREMENT 0) →
  default 0%Z (mem_flags (memory st) !! p) = old →
  (INT_MIN ≤ old)%Z → (old + Z.of_nat k ≤ INT_MAX)%Z →
  ∃ st', execute_short_option_loop gmax option_group opts (copies k v) st = Ok st'
         ∧ default 0%Z (mem_flags (memory st') !! p) = (old + Z.of_nat k)%Z
         ∧ mem_storage (memory st') = mem_storage (memory st)
         ∧ args st' = args st ∧ args_index st' = args_index st
         ∧ argc st' = argc st.
Proof.
  induction k as [|k IH]; intros st old Hfind Hold Hlo Hhi.
  - exists st. simpl. split_and!; try done. lia.
  - cbn [copies].
    rewrite (flag_step gmax option_group opts v l p (copies k v) st old Hfind Hold)
      by lia.
    set (st1 := set_memory _ st).
    destruct (IH st1 (old + 1)%Z Hfind)
      as (st' & Hrun & Hflag & Hsto & Ha & Hi & Hc); [| | |exists st'].
    + simpl. by rewrite lookup_insert_eq.
    + lia.
    + lia.
    + split_and!; try done. lia.
Qed.

Lemma repeated_flag_counts_witness :
  ∃ st', execute_short_option_loop 8 "-vvv" sample_options "vvv"
           (initial_pstate empty_mem) = Ok st'
         ∧ default 0%Z (mem_flags (memory st') !! 2) = 3%Z.
Proof.
  destruct (repeated_flag_counts 8 "-vvv" sample_options "v" (Some "verbose") 2 3
              (initial_pstate empty_mem) 0%Z)
    as (st' & Hrun & Hflag & _); [reflexivity|reflexivity|done|done|].
  exists st'. split; [exact Hrun|exact Hflag].
Defined.

(** ** Commands with subcommands *)

Lemma argv_write_active i t st st' :
  argv_write i t st = Ok st' → active_cmd st' = active_cmd st.
Proof. intros (a & _ & _ & ->)%argv_write_Ok. done. Qed.

Lemma remove_previous_active fuel : ∀ st st',
  remove_previous fuel st = Ok st' → active_cmd st' = active_cmd st.
Proof.
  induction fuel as [|fuel IH]; intros st st' Hrun; [done|].
  cbn [remove_previous] in Hrun.
  inv_bind Hrun as [t st1] Hnext. apply next_arg_Ok in Hnext as [-> _].
  inv_bind Hrun as st2 Hw. apply argv_write_active in Hw.
  inv_bind Hrun as cur Hcur.
  destruct cur; [apply IH in Hrun|injection Hrun as <-]; simpl in *; congruence.
Qed.

Lemma parse_loop_parent gmax fuel : ∀ cmd ign st leaf st1,
  active_cmd st = Some cmd → (is_Some (subcommands cmd) → argc st = 1) →
  parse_loop gmax fuel cmd ign st = Ok (leaf, st1) →
  active_cmd st1 = Some leaf ∧ (is_Some (subcommands leaf) → argc st1 = 1).
Proof.
  induction fuel as [|fuel IH]; intros cmd ign st leaf st1 Hact Hargc Hrun; [done|].
  cbn [parse_loop] in Hrun.
  inv_bind Hrun as cur Hcur. destruct cur as [tok|];
    [|injection Hrun as <- <-; done].
  assert (∀ stA st2, frame st stA → advance stA = Ok st2 →
            active_cmd st2 = Some cmd ∧ (is_Some (subcommands cmd) → argc st2 = 1))
    as Hstep.
  { intros stA st2 (_ & Hc & Hact' & _) (_ & Hc2 & Hact2 & _)%advance_frame.
    split; [congruence|]. intros Hs. rewrite Hc2, Hc. auto. }
  destruct (negb ign && starts_with_dash tok).
  - destruct tok as [|c0 [|c1 rest]].
    + inv_bind Hrun as stA Hex. inv_bind Hrun as st2 Hadv.
      apply execute_short_option_frame in Hex.
      destruct (Hstep _ _ Hex Hadv). eauto.
    + inv_bind Hrun as stA Hex. inv_bind Hrun as st2 Hadv.
      apply execute_short_option_frame in Hex.
      destruct (Hstep _ _ Hex Hadv). eauto.
    + destruct (Ascii.eqb c1 "-").
      * destruct rest as [|r0 rest].
        -- inv_bind Hrun as st2 Hadv.
           destruct (Hstep _ _ (frame_refl st) Hadv). eauto.
        -- inv_bind Hrun as stA Hex. inv_bind Hrun as st2 Hadv.
           apply execute_long_option_frame in Hex.
           destruct (Hstep _ _ Hex Hadv). eauto.
      * inv_bind Hrun as stA Hex. inv_bind Hrun as st2 Hadv.
        apply execute_short_option_frame in Hex.
        destruct (Hstep _ _ Hex Hadv). eauto.
  - destruct (subcommands cmd) as [subs|] eqn:Hsubs.
    + destruct (find_subcmd tok subs) as [subcmd|] eqn:Hfind; [|done].
      inv_bind Hrun as stA Hrm. inv_bind Hrun as stB Hw.
      eapply IH; [| |done]; done.
    + inv_bind Hrun as stA Hw. inv_bind Hrun as stB Hadv.
      apply argv_write_active in Hw. apply advance_frame in Hadv as (_ & _ & Hact2 & _).
      eapply IH; [| |done].
      * simpl in Hact2. congruence.
      * rewrite Hsubs. by intros [? ?].
Qed.

(** X19.  A command that declares subcommands is never handed operands:
    when a parse ends in such a command (every token was an option of it),
    it returns with [argc] 1, whatever the tokens and the callbacks. *)
Theorem parent_command_keeps_no_operands gmax fuel cmd argv st st' leaf :
  optparse_parse gmax fuel (Some cmd) argv st = Ok st' →
  active_cmd st' = Some leaf → is_Some (subcommands leaf) →
  argc st' = 1.
Proof.
  unfold optparse_parse, parse. intros Hrun Hact Hsubs.
  inv_bind Hrun as [leaf' st1] Hwalk.
  apply parse_loop_parent in Hwalk as [Hact1 Hargc]; [|done..].
  unfold parse_end in Hrun. inv_bind Hrun as st2 Hw.
  pose proof (argv_write_active _ _ _ _ Hw) as Hact2.
  apply argv_write_table in Hw as (_ & Hc2 & _).
  assert (active_cmd st' = active_cmd st2 ∧ argc st' = argc st2) as [Ha' Hc'].
  { destruct (cmd_function leaf'); [|by injection Hrun as <-].
    apply run_cb_frame in Hrun as (_ & Hc & Hact' & _). simpl in *. done. }
  assert (leaf' = leaf) as -> by congruence.
  rewrite Hc', Hc2. auto.
Qed.

Lemma parent_command_keeps_no_operands_witness :
  ∃ st', optparse_parse 8 20 (Some git_cmd) (argv_of "prog" []) (initial_pstate empty_mem)
         = Ok st'
         ∧ argc st' = 1.
Proof.
  destruct (optparse_parse 8 20 (Some git_cmd) (argv_of "prog" [])
              (initial_pstate empty_mem)) as [st'| | |] eqn:E;
    [|vm_compute in E; discriminate..].
  exists st'. split; [reflexivity|].
  apply (parent_command_keeps_no_operands 8 20 git_cmd (argv_of "prog" [])
           (initial_pstate empty_mem) st' git_cmd E).
  - vm_compute in E. by injection E as <-.
  - by eexists.
Defined.

(** ** The array of original items *)

Lemma fields_take_token delim s :
  fields delim (Libc.take_token delim s).1 = [(Libc.take_token delim s).1].
Proof.
  induction s as [|c s IH]; [done|].
  rewrite take_token_cons.
  destruct (Libc.is_delim delim c) eqn:Hc; [done|].
  destruct (Libc.take_token delim s) as [t r]. simpl in *.
  by rewrite Hc, IH.
Qed.

Lemma items_strtok_residue delim s :
  items delim (strtok_residue delim s) = take 1 (items delim s).
Proof.
  induction s as [|c s IH]; [done|].
  cbn [strtok_residue].
  destruct (Libc.is_delim delim c) eqn:Hc.
  - by rewrite !items_cons_delim.
  - destruct (Libc.take_token delim (String c s)) as [tok rest] eqn:Htok.
    destruct (take_token_fields _ _ _ _ _ Hc Htok) as ([t ->] & -> & _).
    pose proof (fields_take_token delim (String c s)) as Hf.
    rewrite Htok in Hf. simpl in Hf. unfold items at 1. simpl. by rewrite Hf.
Qed.

Lemma convert_items_str its : ∀ i,
  convert_items DATA_TYPE_STR i its
  = Ok (imap (λ k it, ((Z.of_nat (i + k) * 8)%Z, VStr it)) its).
Proof.
  induction its as [|it its IH]; intros i; [done|].
  cbn [convert_items]. change (ret (strtox (Some it) DATA_TYPE_STR) =? 0)%Z with true.
  cbv iota. rewrite IH. simpl. apply f_equal. apply f_equal2.
  - do 2 f_equal. lia.
  - apply imap_ext. intros k x _. simpl. do 2 f_equal. lia.
Qed.

(** X20.  A function of type FUNCTION_TYPE_OARG_ARRAY gets at most the
    first item of a list: by the time its array is built, [strtoarr] has
    already cut the option-argument at the end of its first item to fill
    the typed array, and the second split reads the cut text.  The typed
    array holds all items. *)
Theorem oarg_array_first_item opt a d f cv st :
  arg_delim opt = Some d → function opt = Some f →
  function_type opt = FUNCTION_TYPE_OARG_ARRAY →
  convert_arg opt (Some a) = Ok cv →
  list_size cv = length (items d a)
  ∧ call_function opt (Some a) cv st
    = run_cb (f (ArgArray (length (take 1 (items d a)))
                   (Some ((λ it, (0%Z, VStr it)) <$> take 1 (items d a))))
                (memory st)) st.
Proof.
  intros Hd Hf Hft Hcv. unfold convert_arg in Hcv. rewrite Hd in Hcv.
  rewrite strtoarr_split_spec in Hcv. unfold split_spec in Hcv.
  inv_bind Hcv as [n arr] Hsplit. inv_bind Hsplit as arr' Hconv.
  injection Hsplit as <- <-. injection Hcv as <-. split; [done|].
  unfold call_function. rewrite Hf, Hft, Hd. cbn [arg_text].
  rewrite strtoarr_split_spec. unfold split_spec.
  rewrite items_strtok_residue, convert_items_str. cbn [mbind outcome_bind].
  do 4 f_equal.
  destruct (items d a) as [|it its]; [done|]. done.
Qed.

Lemma oarg_array_first_item_witness :
  let f := λ (x : cb_arg) (m : mem),
             CbRet {| mem_flags := mem_flags m; mem_storage := mem_storage m;
                      mem_sizes := match x with
                                   | ArgArray n _ => <[0:=n]> (mem_sizes m)
                                   | _ => mem_sizes m
                                   end |} in
  let opt := {| short_name := "l"; long_name := None; arg_name := Some "LIST";
                arg_data_type := DATA_TYPE_INT; arg_delim := Some ",";
                flag := None; flag_type := FLAG_TYPE_SET_TRUE;
                arg_storage := None; arg_storage_size := None;
                function := Some f;
                function_type := FUNCTION_TYPE_OARG_ARRAY; group := 0 |} in
  ∃ cv st', convert_arg opt (Some "1,2,3") = Ok cv
        ∧ list_size cv = 3
        ∧ call_function opt (Some "1,2,3") cv (initial_pstate empty_mem) = Ok st'
        ∧ mem_sizes (memory st') !! 0 = Some 1.
Proof.
  intros f opt.
  destruct (convert_arg opt (Some "1,2,3")) as [cv| | |] eqn:E;
    [|vm_compute in E; discriminate..].
  destruct (oarg_array_first_item opt "1,2,3" "," f cv
              (initial_pstate empty_mem) eq_refl eq_refl eq_refl E) as [Hn Hcall].
  exists cv. eexists. split; [reflexivity|]. split; [exact Hn|].
  rewrite Hcall. split; [vm_compute; reflexivity|vm_compute; reflexivity].
Defined.

(* ===================================================================== *)
(** * 19. The walk returns *)
(* ===================================================================== *)

(** ** The steps of the loop, forwards *)

Lemma remove_previous_run rest : ∀ fuel pre gap junk st,
  gap ≠ [] →
  args st = Some (pre ++ gap ++ (Some <$> rest) ++ None :: junk) →
  argc st = length pre →
  S (args_index st) = length pre + length gap →
  length rest < fuel →
  ∃ st', remove_previous fuel st = Ok st'.
Proof.
  induction rest as [|tok rest IH]; intros fuel pre gap junk st Hgap Ha Hc Hi Hf;
    (destruct fuel as [|fuel]; [simpl in Hf; lia|]);
    (destruct gap as [|g gs]; [done|]);
    cbn [remove_previous]; unfold next_arg, arg_at;
    cbn [args args_index set_args_index]; rewrite Ha, Hi;
    (replace (length pre + length (g :: gs))
       with (length pre + length (g :: gs) + 0) by lia);
    rewrite lookup_split; rewrite ?fmap_cons, ?fmap_nil;
    cbn [app lookup list_lookup mbind outcome_bind];
    unfold argv_write; cbn [args argc set_args_index]; rewrite Ha, Hc;
    rewrite ?fmap_cons, ?fmap_nil;
    (rewrite decide_True by (rewrite !length_app; simpl; lia));
    cbn [mbind outcome_bind args args_index argc set_args set_argc set_args_index].
  - assert (<[length pre:=None]> (pre ++ (g :: gs) ++ [] ++ None :: junk)
            = (pre ++ [None]) ++ gs ++ [] ++ None :: junk) as ->.
    { replace (length pre) with (length pre + 0) at 1 by lia.
      rewrite insert_app_r. simpl. by rewrite <- app_assoc. }
    replace (length pre + length (g :: gs) + 0)
      with (length (pre ++ [None]) + length gs + 0)
      by (rewrite length_app; simpl in *; lia).
    rewrite lookup_split. simpl. eauto.
  - assert (<[length pre:=Some tok]>
              (pre ++ (g :: gs) ++ (Some tok :: (Some <$> rest)) ++ None :: junk)
            = (pre ++ [Some tok]) ++ (gs ++ [Some tok]) ++ (Some <$> rest)
              ++ None :: junk) as ->.
    { replace (length pre) with (length pre + 0) at 1 by lia.
      rewrite insert_app_r. simpl. by rewrite <- !app_assoc. }
    assert (((pre ++ [Some tok]) ++ (gs ++ [Some tok]) ++ (Some <$> rest)
             ++ None :: junk) !! (length pre + length (g :: gs) + 0)
            = Some (Some tok)) as ->.
    { replace (length pre + length (g :: gs) + 0)
        with (length (pre ++ [Some tok]) + length gs)
        by (rewrite length_app; simpl in *; lia).
      rewrite <- (app_assoc gs), lookup_app_r by lia.
      rewrite lookup_app_r by lia.
      replace (_ - _ - _) with 0 by lia. done. }
    cbn [mbind outcome_bind].
    apply (IH fuel (pre ++ [Some tok]) (gs ++ [Some tok]) junk).
    + by destruct gs.
    + done.
    + simpl. rewrite length_app. simpl. lia.
    + simpl. rewrite !length_app. simpl in *. lia.
    + simpl in Hf. lia.
Qed.

Lemma walk_shape_cur prog ops gap pending junk st :
  walk_shape prog ops gap pending junk st →
  arg_at (args_index st) st = Ok (head pending).
Proof.
  intros (Ha & _ & Hi & _). unfold arg_at. rewrite Ha, Hi.
  replace (S (length ops) + length gap)
    with (S (length ops) + length gap + 0) by lia.
  rewrite lookup_inv_split. by destruct pending.
Qed.

(** One turn of the loop at a token that is kept as an operand. *)
Lemma operand_turn_gen gmax fuel cmd ign prog ops gap tok p2 junk st :
  walk_shape prog ops gap (tok :: p2) junk st →
  negb ign && starts_with_dash tok = false → subcommands cmd = None →
  ∃ st3,
    parse_loop gmax (S fuel) cmd ign st = parse_loop gmax fuel cmd ign st3
    ∧ walk_shape prog (ops ++ [tok]) (tail (gap ++ [Some tok])) p2 junk st3
    ∧ memory st3 = memory st ∧ exclusive_opts st3 = exclusive_opts st
    ∧ active_cmd st3 = active_cmd st.
Proof.
  intros Hshape Hplain Hleaf.
  pose proof (walk_shape_cur _ _ _ _ _ _ Hshape) as Hcur0.
  destruct Hshape as (Ha & Hc & Hi & Hj).
  set (a := (Some <$> prog :: ops) ++ gap ++ (Some <$> tok :: p2) ++ None :: junk) in *.
  assert (a !! args_index st = Some (Some tok)) as Hcur.
  { pose proof Hcur0 as Hcur1. apply arg_at_Ok in Hcur1 as (a' & Ha' & Hl).
    simpl in Hl. congruence. }
  assert (argc st < length a) as Hlt.
  { unfold a. rewrite Hc, !length_app, length_fmap. simpl. lia. }
  assert (<[argc st:=Some tok]> a !! args_index st = Some (Some tok)) as Hcur'.
  { destruct (decide (argc st = args_index st)) as [Heq|Hne].
    - rewrite Heq. apply list_lookup_insert_eq. by rewrite <- Heq.
    - by rewrite list_lookup_insert_ne. }
  exists (set_args_index (S (args_index st))
            (set_argc (S (argc st)) (set_args (Some (<[argc st:=Some tok]> a)) st))).
  split_and!; try done.
  - cbn [parse_loop]. rewrite Hcur0. cbn [head mbind outcome_bind].
    rewrite Hplain, Hleaf. unfold argv_write. rewrite Ha.
    rewrite decide_True by done.
    simpl. unfold advance, arg_at. simpl. rewrite Hcur'. done.
  - split_and!; [| | |done].
    + cbn [args set_args set_args_index set_argc]. f_equal. unfold a. rewrite Hc.
      replace (S (length ops)) with (length (Some <$> prog :: ops) + 0)
        by (rewrite length_fmap; simpl; lia).
      rewrite insert_app_r.
      assert ((Some <$> prog :: (ops ++ [tok]))
              = (Some <$> prog :: ops) ++ [Some tok]) as ->.
      { by rewrite !fmap_cons, fmap_app. }
      rewrite <- (app_assoc (Some <$> prog :: ops)). f_equal.
      destruct gap as [|g gs]; simpl; [done|].
      by rewrite <- app_assoc.
    + cbn [argc set_args set_args_index set_argc]. rewrite Hc, length_app. simpl. lia.
    + cbn [args_index set_args set_args_index set_argc]. rewrite Hi, length_app. simpl.
      destruct gap; simpl; [lia|]. rewrite length_app. simpl. lia.
Qed.

(** One turn of the loop at a token that names a subcommand. *)
Lemma descend_turn gmax fuel cmd ign prog gap tok p2 junk st subs subcmd :
  walk_shape prog [] gap (tok :: p2) junk st →
  negb ign && starts_with_dash tok = false →
  subcommands cmd = Some subs → find_subcmd tok subs = Some subcmd →
  length p2 < fuel →
  ∃ st' junk',
    parse_loop gmax (S fuel) cmd ign st = parse_loop gmax fuel subcmd false st'
    ∧ walk_shape prog [] [] p2 junk' st'
    ∧ memory st' = memory st ∧ exclusive_opts st' = exclusive_opts st
    ∧ active_cmd st' = Some subcmd.
Proof.
  intros Hshape Hplain Hsubs Hfind Hfuel.
  pose proof (walk_shape_cur _ _ _ _ _ _ Hshape) as Hcur0.
  destruct Hshape as (Ha & Hc & Hi & Hj).
  assert (args st = Some ((Some <$> [prog]) ++ (gap ++ [Some tok])
                          ++ (Some <$> p2) ++ None :: junk)) as Ha2.
  { rewrite Ha. simpl. by rewrite <- !app_assoc. }
  destruct (remove_previous_run p2 fuel (Some <$> [prog]) (gap ++ [Some tok]) junk st)
    as [st1 Hrm]; [by destruct gap|done|by rewrite Hc|
                   rewrite Hi, length_app; simpl; lia|done|].
  pose proof Hrm as Hrm'.
  apply (remove_previous_Ok fuel p2 (Some <$> [prog]) (gap ++ [Some tok]) junk)
    in Hrm' as (gap' & Hst1 & Hgap');
    [|by destruct gap|done|by rewrite Hc|rewrite Hi, length_app; simpl; lia].
  pose proof (remove_previous_table _ _ _ Hrm) as [He1 Hm1].
  set (a1 := (Some <$> [prog]) ++ (Some <$> p2) ++ None :: gap') in *.
  assert (args st1 = Some a1 ∧ argc st1 = S (S (length p2))) as [Ha1 Hc1].
  { rewrite Hst1. done. }
  assert (<[argc st1:=None]> a1
          = (Some <$> [prog]) ++ (Some <$> p2) ++ None :: None :: tail gap') as Hins.
  { rewrite Hc1. unfold a1. rewrite (app_assoc (Some <$> [prog])).
    replace (S (length p2)) with (length ((Some <$> [prog]) ++ (Some <$> p2)))
      by (rewrite length_app, !length_fmap; simpl; lia).
    rewrite insert_behind by done. by rewrite <- app_assoc. }
  exists (parse_init subcmd (set_args (Some (<[argc st1:=None]> a1)) st1)),
         (None :: tail gap').
  split_and!.
  - cbn [parse_loop]. rewrite Hcur0. cbn [head mbind outcome_bind].
    rewrite Hplain, Hsubs, Hfind, Hrm. cbn [mbind outcome_bind].
    unfold argv_write. rewrite Ha1.
    rewrite decide_True; [done|].
    unfold a1. rewrite Hc1, !length_app, !length_fmap. simpl.
    destruct gap'; [done|]. simpl. lia.
  - split_and!; [|done|done|right; by eexists].
    cbn [args parse_init set_args set_argc set_args_index set_active_cmd].
    rewrite Hins. done.
  - simpl. done.
  - simpl. done.
  - done.
Qed.

(** ** Command lines without options *)

Lemma plain_operands gmax cmd ign prog :
  subcommands cmd = None →
  ∀ pending fuel st ops gap junk,
    walk_shape prog ops gap pending junk st →
    Forall (λ tok, plain tok = true) pending →
    length pending < fuel →
    ∃ st' gap',
      parse_loop gmax fuel cmd ign st = Ok (cmd, st')
      ∧ walk_shape prog (ops ++ pending) gap' [] junk st'
      ∧ memory st' = memory st ∧ exclusive_opts st' = exclusive_opts st
      ∧ active_cmd st' = active_cmd st.
Proof.
  intros Hleaf pending.
  induction pending as [|tok p2 IH]; intros fuel st ops gap junk Hshape Hplain Hfuel.
  - destruct fuel as [|fuel]; [simpl in Hfuel; lia|].
    exists st, gap. rewrite app_nil_r. split_and!; try done.
    cbn [parse_loop]. by rewrite (walk_shape_cur _ _ _ _ _ _ Hshape).
  - destruct fuel as [|fuel]; [simpl in Hfuel; lia|].
    apply Forall_cons in Hplain as [Htok Hplain].
    destruct (operand_turn_gen gmax fuel cmd ign prog ops gap tok p2 junk st Hshape)
      as (st3 & Hturn & Hshape3 & Hm3 & He3 & Ha3); [|done|].
    { unfold plain in Htok. apply negb_true_iff in Htok. rewrite Htok.
      apply andb_false_r. }
    destruct (IH fuel st3 (ops ++ [tok]) (tail (gap ++ [Some tok])) junk Hshape3 Hplain)
      as (st' & gap' & Hrun & Hshape' & Hm' & He' & Ha'); [simpl in Hfuel; lia|].
    exists st', gap'. rewrite Hturn, Hrun.
    replace ((ops ++ [tok]) ++ p2) with (ops ++ tok :: p2) in *
      by (by rewrite <- app_assoc).
    split_and!; try done; congruence.
Qed.

Lemma plain_walk gmax prog toks : ∀ cmd fuel st junk,
  walk_shape prog [] [] toks junk st →
  Forall (λ tok, plain tok = true) toks → length toks < fuel →
  match read_cmd_chain cmd ((Some <$> toks) ++ [None]) with
  | Ok leaf =>
      ∃ st1 operands gap' junk',
        parse_loop gmax fuel cmd false st = Ok (leaf, st1)
        ∧ operands `suffix_of` toks
        ∧ walk_shape prog operands gap' [] junk' st1
        ∧ memory st1 = memory st ∧ exclusive_opts st1 = exclusive_opts st
  | Fatal e => parse_loop gmax fuel cmd false st = Fatal e
  | _ => False
  end.
Proof.
  induction toks as [|tok p2 IH]; intros cmd fuel st junk Hshape Hplain Hfuel;
    (destruct fuel as [|fuel]; [simpl in Hfuel; lia|]).
  - simpl. exists st, [], [], junk. split_and!; try done.
    cbn [parse_loop]. by rewrite (walk_shape_cur _ _ _ _ _ _ Hshape).
  - rewrite fmap_cons. cbn [app read_cmd_chain].
    pose proof Hplain as Hall.
    apply Forall_cons in Hplain as [Htok Hplain].
    assert (negb false && starts_with_dash tok = false) as Hcond.
    { unfold plain in Htok. apply negb_true_iff in Htok. by rewrite Htok. }
    destruct (subcommands cmd) as [subs|] eqn:Hsubs.
    + destruct (find_subcmd tok subs) as [subcmd|] eqn:Hfind.
      * destruct (descend_turn gmax fuel cmd false prog [] tok p2 junk st subs subcmd
                    Hshape Hcond Hsubs Hfind)
          as (st' & junk' & Hturn & Hshape' & Hm' & He' & _); [simpl in Hfuel; lia|].
        rewrite Hturn.
        specialize (IH subcmd fuel st' junk' Hshape' Hplain ltac:(simpl in Hfuel; lia)).
        destruct (read_cmd_chain subcmd _) as [leaf|e| |]; [|done..].
        destruct IH as (st1 & operands & gap1 & junk1 & Hrun & Hsuf & Hsh1 & Hm1 & He1).
        exists st1, operands, gap1, junk1. split_and!; try done; try congruence.
        by apply suffix_cons_r.
      * cbn [parse_loop]. rewrite (walk_shape_cur _ _ _ _ _ _ Hshape).
        cbn [head mbind outcome_bind]. by rewrite Hcond, Hsubs, Hfind.
    + destruct (plain_operands gmax cmd false prog Hsubs (tok :: p2) (S fuel) st [] []
                  junk Hshape Hall Hfuel)
        as (st' & gap' & Hrun & Hshape' & Hm' & He' & _).
      exists st', (tok :: p2), gap', junk. by split_and!.
Qed.

Lemma walk_shape_initial prog toks cmd st :
  walk_shape prog [] [] toks [] (parse_init cmd (set_args (Some (argv_of prog toks)) st)).
Proof. unfold walk_shape, argv_of. simpl. split_and!; try done. by left. Qed.

(** X21.  For a command line without option tokens the walker and
    [read_cmd_chain] agree, and the walk returns: with more fuel than there
    are tokens, the loop of [parse] ends in the command that
    [read_cmd_chain] returns for the tokens, having kept as operands the
    tokens behind the subcommand names, in order, and having left the
    caller's memory alone; and it is fatal with the same unknown-command
    error where [read_cmd_chain] is. *)
Theorem plain_command_line gmax prog toks cmd st fuel :
  Forall (λ tok, plain tok = true) toks → length toks < fuel →
  match read_cmd_chain cmd ((Some <$> toks) ++ [None]) with
  | Ok leaf =>
      ∃ st1 operands rest,
        parse_loop gmax fuel cmd false
          (parse_init cmd (set_args (Some (argv_of prog toks)) st)) = Ok (leaf, st1)
        ∧ optparse_parse gmax fuel (Some cmd) (argv_of prog toks) st
          = parse_end leaf st1
        ∧ operands `suffix_of` toks
        ∧ args st1 = Some (Some prog :: (Some <$> operands) ++ rest)
        ∧ argc st1 = S (length operands)
        ∧ memory st1 = memory st
  | Fatal e => optparse_parse gmax fuel (Some cmd) (argv_of prog toks) st = Fatal e
  | _ => False
  end.
Proof.
  intros Hplain Hfuel.
  pose proof (plain_walk gmax prog toks cmd fuel _ [] (walk_shape_initial prog toks cmd st)
                Hplain Hfuel) as H.
  destruct (read_cmd_chain cmd _) as [leaf|e| |]; [| |done..].
  - destruct H as (st1 & operands & gap' & junk' & Hrun & Hsuf & Hsh & Hm & _).
    destruct Hsh as (Ha & Hc & _).
    exists st1, operands, (gap' ++ None :: junk').
    split_and!; try done.
    unfold optparse_parse, parse. by rewrite Hrun.
  - unfold optparse_parse, parse. by rewrite H.
Qed.

Lemma plain_command_line_witness :
  ∃ st1 operands rest,
    parse_loop 8 20 git_cmd false
      (parse_init git_cmd
         (set_args (Some (argv_of "prog" ["remote"; "add"; "origin"; "http://x"]))
            (initial_pstate empty_mem))) = Ok (add_cmd, st1)
    ∧ optparse_parse 8 20 (Some git_cmd)
        (argv_of "prog" ["remote"; "add"; "origin"; "http://x"]) (initial_pstate empty_mem)
      = parse_end add_cmd st1
    ∧ operands `suffix_of` ["remote"; "add"; "origin"; "http://x"]
    ∧ args st1 = Some (Some "prog" :: (Some <$> operands) ++ rest)
    ∧ argc st1 = S (length operands)
    ∧ memory st1 = empty_mem.
Proof.
  apply (plain_command_line 8 "prog" ["remote"; "add"; "origin"; "http://x"]
           git_cmd (initial_pstate empty_mem) 20).
  - repeat constructor.
  - simpl. lia.
Defined.

(** ** The walk returns whatever the options do *)

Lemma returns_bind {A B} (m : outcome A) (f : A → outcome B) :
  returns m → (∀ a, m = Ok a → returns (f a)) → returns (m ≫= f).
Proof. destruct m; simpl; unfold returns; auto. Qed.

Lemma returns_arg_at i st : returns (arg_at i st).
Proof. unfold arg_at, returns. by repeat case_match. Qed.

Lemma returns_argv_write i t st : returns (argv_write i t st).
Proof. unfold argv_write, returns. by repeat case_match. Qed.

Lemma returns_advance st : returns (advance st).
Proof.
  unfold advance. apply returns_bind; [apply returns_arg_at|].
  intros cur _. by destruct cur.
Qed.

Lemma returns_next_arg st : returns (next_arg st).
Proof. unfold next_arg. apply returns_bind; [apply returns_arg_at|done]. Qed.

Lemma returns_run_cb p : ∀ st, returns (run_cb p st).
Proof.
  induction p as [m|k IH|k IH]; intros st; simpl; [done| |].
  - apply returns_bind; [|by intros [t st'] _].
    unfold optparse_shift. destruct (args st); [|done].
    apply returns_bind; [apply returns_arg_at|]. intros [tok|] _; [|done].
    apply returns_bind; [apply returns_arg_at|done].
  - apply returns_bind; [|by intros [t st'] _].
    unfold optparse_unshift. destruct (args st); [|done].
    destruct (args_index st); [done|].
    apply returns_bind; [apply returns_arg_at|done].
Qed.

Lemma returns_strtoarr str delim data_type : returns (strtoarr str delim data_type).
Proof.
  rewrite strtoarr_split_spec. unfold split_spec.
  destruct str as [s|], delim as [d|]; try done.
  apply returns_bind; [|done].
  generalize 0. induction (items d s) as [|it its IH]; intros i; [done|].
  cbn [convert_items]. set (r := strtox (Some it) data_type).
  destruct (ret r =? 0)%Z; [|destruct (ret r =? 1)%Z; done].
  apply returns_bind; [apply IH|done].
Qed.

Lemma returns_execute_option opt arg st : returns (execute_option opt arg st).
Proof.
  unfold execute_option.
  apply returns_bind.
  { unfold set_flag, returns. by repeat case_match. }
  intros st1 _. apply returns_bind.
  { unfold convert_arg. destruct arg as [a|]; [|done].
    destruct (arg_delim opt).
    - apply returns_bind; [apply returns_strtoarr|by intros [? ?] _].
    - unfold returns. by repeat case_match. }
  intros cv _. unfold call_function.
  destruct (function opt) as [f|]; [|done].
  repeat case_match; try done; try apply returns_run_cb.
  all: apply returns_bind; [apply returns_strtoarr|];
    intros [? ?] _; apply returns_run_cb.
Qed.

Lemma returns_check_mutual_exclusivity gmax opt st :
  returns (check_mutual_exclusivity gmax opt st).
Proof. unfold check_mutual_exclusivity, returns. by repeat case_match. Qed.

Lemma returns_execute_long_option gmax s opts st :
  returns (execute_long_option gmax s opts st).
Proof.
  unfold execute_long_option. destruct opts as [l|]; [|done].
  destruct (split_eq s) as [n arg].
  induction l as [|opt l IH]; [done|].
  cbn [execute_long_option_loop]. case_match; [|done].
  apply returns_bind; [apply returns_check_mutual_exclusivity|].
  intros st1 _. apply returns_bind; [|intros [? ?] _; apply returns_execute_option].
  destruct arg; [by destruct (arg_name opt)|].
  destruct (requires_arg opt); [|done].
  apply returns_bind; [apply returns_next_arg|]. by intros [[?|] ?] _.
Qed.

Lemma returns_execute_short_option gmax option_group opts st :
  returns (execute_short_option gmax option_group opts st).
Proof.
  unfold execute_short_option. destruct opts as [l|]; [|done].
  generalize (match option_group with
              | String _ r => r
              | EmptyString => EmptyString
              end). intros c. revert st.
  induction c as [|ch rest IH]; intros st; [done|].
  cbn [execute_short_option_loop].
  destruct (find_short ch l) as [opt|]; [|done].
  apply returns_bind; [apply returns_check_mutual_exclusivity|].
  intros st1 _. apply returns_bind.
  { destruct rest; [|by destruct (arg_name opt)].
    destruct (requires_arg opt); [|done].
    apply returns_bind; [apply returns_next_arg|]. by intros [[?|] ?] _. }
  intros [arg' st2] _.
  apply returns_bind; [apply returns_execute_option|].
  intros st3 _. by destruct arg'.
Qed.

Lemma walk_shape_vec_end prog ops gap pending junk st :
  walk_shape prog ops gap pending junk st →
  ∃ a, args st = Some a ∧ vec_end a (args_index st + length pending)
       ∧ ∀ tok, head pending = Some tok → a !! args_index st = Some (Some tok).
Proof.
  intros (Ha & Hc & Hi & Hj). eexists. split; [done|]. rewrite Hi. split.
  - unfold vec_end.
    replace (S (S (length ops) + length gap + length pending))
      with (S (length ops) + length gap + S (length pending)) by lia.
    rewrite !lookup_inv_split.
    rewrite !lookup_app_r by (rewrite length_fmap; lia).
    rewrite length_fmap.
    replace (length pending - length pending) with 0 by lia.
    replace (S (length pending) - length pending) with 1 by lia.
    split; [done|]. destruct Hj as [->|[junk' ->]]; auto.
  - intros tok Hhead.
    replace (S (length ops) + length gap)
      with (S (length ops) + length gap + 0) by lia.
    rewrite lookup_inv_split. destruct pending; simpl in *; congruence.
Qed.

(** The scan index has moved forwards over tokens still to be read. *)
Lemma walk_shape_move prog ops gap pending junk st st2 :
  walk_shape prog ops gap pending junk st →
  args st2 = args st → argc st2 = argc st →
  args_index st < args_index st2 ≤ args_index st + length pending →
  ∃ gap2 pending2,
    walk_shape prog ops gap2 pending2 junk st2 ∧ length pending2 < length pending.
Proof.
  intros (Ha & Hc & Hi & Hj) Ha2 Hc2 Hi2.
  set (d := args_index st2 - args_index st).
  exists (gap ++ (Some <$> take d pending)), (drop d pending).
  split; [split_and!|].
  - rewrite Ha2, Ha. do 2 f_equal.
    rewrite <- (take_drop d pending) at 1.
    by rewrite fmap_app, <- !app_assoc.
  - congruence.
  - rewrite length_app, length_fmap, length_take. lia.
  - done.
  - rewrite length_drop. lia.
Qed.

Lemma parse_loop_returns gmax prog fuel : ∀ cmd ign st ops gap pending junk,
  cmd_forward cmd →
  walk_shape prog ops gap pending junk st →
  (is_Some (subcommands cmd) → ops = []) →
  length pending < fuel →
  returns (parse_loop gmax fuel cmd ign st).
Proof.
  induction fuel as [|fuel IH];
    intros cmd ign st ops gap pending junk Hfw Hshape Hparent Hfuel; [lia|].
  pose proof (walk_shape_cur _ _ _ _ _ _ Hshape) as Hcur.
  destruct pending as [|tok p2].
  { cbn [parse_loop]. by rewrite Hcur. }
  simpl in Hfuel, Hcur.
  destruct (walk_shape_vec_end _ _ _ _ _ _ Hshape) as (a & Ha & Hend & Htok).
  specialize (Htok tok eq_refl).
  pose proof (cmd_forward_options _ Hfw) as Hopts.
  (* behind an option: the index has moved on, the vector is as before *)
  assert (∀ (m : outcome pstate) ign',
            returns m →
            (∀ stA, m = Ok stA →
               frame st stA
               ∧ args_index st ≤ args_index stA ≤ args_index st + length (tok :: p2)) →
            returns (m ≫= λ st1, advance st1 ≫= λ st2,
                       parse_loop gmax fuel cmd ign' st2)) as Hoption.
  { intros m ign' Hm Hbound. apply returns_bind; [done|].
    intros stA HA. destruct (Hbound stA HA) as [(FA & FC & _) IA].
    apply returns_bind; [apply returns_advance|].
    intros st2 Hadv.
    destruct (advance_bound a _ Hend st stA st2 tok Htok ltac:(congruence) IA Hadv)
      as ((F1 & F2 & _) & _ & I2).
    destruct (walk_shape_move _ _ _ _ _ _ st2 Hshape) as (gap2 & pending2 & Hsh2 & Hlen);
      [congruence|congruence|lia|].
    eapply IH; [done|exact Hsh2|done|simpl in Hlen; lia]. }
  destruct (negb ign && starts_with_dash tok) eqn:Hcond.
  - cbn [parse_loop]. rewrite Hcur. cbn [mbind outcome_bind]. rewrite Hcond.
    assert (returns (execute_short_option gmax tok (options cmd) st
                     ≫= λ st1, advance st1 ≫= λ st2,
                          parse_loop gmax fuel cmd ign st2)) as Hshort.
    { apply Hoption; [apply returns_execute_short_option|].
      intros stA HA.
      eapply (execute_short_option_bound gmax a _ Hend); [done|done|lia|done]. }
    destruct tok as [|c0 [|c1 rest]]; [done|done|].
    destruct (Ascii.eqb c1 "-"); [|done].
    destruct rest as [|r0 rest].
    + apply (Hoption (Ok st) true); [done|].
      intros stA [= <-]. split; [apply frame_refl|simpl; lia].
    + apply Hoption; [apply returns_execute_long_option|].
      intros stA HA.
      eapply (execute_long_option_bound gmax a _ Hend); [done|done|lia|done].
  - destruct (subcommands cmd) as [subs|] eqn:Hsubs.
    + rewrite (Hparent ltac:(done)) in Hshape.
      destruct (find_subcmd tok subs) as [subcmd|] eqn:Hfind.
      * destruct (descend_turn gmax fuel cmd ign prog gap tok p2 junk st subs subcmd
                    Hshape Hcond Hsubs Hfind)
          as (st' & junk' & Hturn & Hshape' & _); [lia|].
        rewrite Hturn.
        eapply IH; [by eapply cmd_forward_subcmd|exact Hshape'|done|lia].
      * cbn [parse_loop]. rewrite Hcur. cbn [mbind outcome_bind].
        by rewrite Hcond, Hsubs, Hfind.
    + destruct (operand_turn_gen gmax fuel cmd ign prog ops gap tok p2 junk st
                  Hshape Hcond Hsubs) as (st3 & Hturn & Hshape3 & _).
      rewrite Hturn.
      eapply IH; [done|exact Hshape3| |lia].
      rewrite Hsubs. by intros [? ?].
Qed.

(** X22.  The parser returns: for a command tree whose callbacks do not
    leave the scan index behind the position they were called at, a parse
    with more fuel than the vector has tokens ends, by returning to the
    caller, by a fatal error, or by an access that C leaves undefined; it
    never needs more turns of the loop than there are tokens. *)
Theorem parse_returns gmax prog toks cmd st fuel :
  cmd_forward cmd → length toks < fuel →
  optparse_parse gmax fuel (Some cmd) (argv_of prog toks) st ≠ OutOfFuel.
Proof.
  intros Hfw Hfuel. unfold optparse_parse, parse.
  apply returns_bind.
  - eapply parse_loop_returns; [done|apply walk_shape_initial|done|done].
  - intros [leaf st1] _. unfold parse_end.
    apply returns_bind; [apply returns_argv_write|].
    intros st2 _. destruct (cmd_function leaf); [apply returns_run_cb|done].
Qed.

Lemma parse_returns_witness :
  optparse_parse 8 4 (Some sample_cmd) (argv_of "prog" ["-abVALUE"; "--verbose"; "x"])
    (initial_pstate empty_mem) ≠ OutOfFuel.
Proof.
  apply parse_returns; [|simpl; lia].
  constructor; [|done].
  intros opts [= <-]. repeat constructor; apply flag_opt_forward || by intros ? ? ? [=].
Defined.
